(** * Scheduled refresh pipeline and snapshot cache

    A shallow embedding of the Go program: the snapshot cache (cache.go),
    the upstream clients (hyperliquid.go, hydromancer.go), the retry
    wrapper, the batch refresh orchestrator (worker.go),
    the identifier refresh routine (symbols.go) and two handlers of the
    read API (main.go).

    Conventions.
    - A Go [int], [int64] or [time.Duration] is a [Z] in the signed 64-bit
      range; every arithmetic operation of the source is followed by
      [wrap64], Go's two's complement wrap-around.
    - A function returning [(T, error)] returns a [result T].
    - A loop is a [Fixpoint] on a fuel argument that tests the loop
      condition of the source itself; running out of fuel is a separate
      outcome, and the theorems show it does not happen.
    - Effects the claims speak about (requests, sleeps, log lines, cache
      writes) are recorded in a trace.
    - The upstream, the clock and the order in which goroutines of a batch
      complete are inputs of the model. *)

From Stdlib Require Import ZArith Lia Floats Ascii String.
From Stdlib Require Import DecimalString DecimalZ DecimalPos.
From stdpp Require Import gmap strings list.

Set Warnings "-register-all".

(** ** Machine integers *)

Module Int64.

Definition min_int : Z := - 2 ^ 63.
Definition max_int : Z := 2 ^ 63 - 1.

Definition in_range (z : Z) : Prop := (min_int <= z <= max_int)%Z.

(** Two's complement wrap-around of a signed 64-bit result. *)
Definition wrap64 (z : Z) : Z := ((z + 2 ^ 63) mod 2 ^ 64 - 2 ^ 63)%Z.

Definition add (x y : Z) : Z := wrap64 (x + y).
Definition sub (x y : Z) : Z := wrap64 (x - y).
Definition mul (x y : Z) : Z := wrap64 (x * y).

(** Go's [/] on integers truncates toward zero; the caller handles a
    zero divisor, which panics. *)
Definition quot (x y : Z) : Z := wrap64 (Z.quot x y).

(** The conversion [uint(x)]. *)
Definition to_uint (x : Z) : Z := (x mod 2 ^ 64)%Z.

(** [x << n] for an unsigned count: all bits are shifted out from 64 on. *)
Definition shl (x n : Z) : Z :=
  if (64 <=? n)%Z then 0%Z else wrap64 (Z.shiftl x n).

End Int64.

(** ** Texts on the wire *)

(** A JSON document as a value tree. A number keeps its literal text, a
    string its unescaped content; an object keeps its members in order,
    repeated keys included. *)
Inductive json : Type :=
| JNull
| JBool (b : bool)
| JNumber (lit : string)
| JString (s : string)
| JArray (items : list json)
| JObject (members : list (string * json)).

(** The text of a body, up to what the program does with it: a JSON
    document, given by its value, or a text that is not one. *)
Inductive body_text : Type :=
| NotJson (raw : string)
| Json (v : json).

(** ** Errors and results *)

(** The error values of the program: those of the libraries it calls
    (net/http, io, encoding/json) and the ones it builds with
    [fmt.Errorf(... %w ...)], which wrap a cause. *)
Inductive error : Type :=
| ErrExternal (msg : string)
| ErrRequestFailed (cause : error)
    (* "request failed: %w" *)
| ErrStatus (code : Z) (body : body_text)
    (* "API returned status %d: %s" *)
| ErrReadResponse (cause : error)
    (* "failed to read response: %w" *)
| ErrParseResponse (cause : error)
    (* "failed to parse response: %w" *)
| ErrAfterRetries (maxRetries : Z) (lastErr : option error).
    (* "failed after %d retries: %w"; [None] is a nil lastErr *)

Inductive result (A : Type) : Type :=
| Ok (a : A)
| Err (e : error).
Arguments Ok {A} a.
Arguments Err {A} e.

Definition is_ok {A} (r : result A) : bool :=
  match r with Ok _ => true | Err _ => false end.

(** What running a piece of the program to its end gives: it returns, it
    panics (a Go run-time panic), the model's fuel ran out, or it blocks
    for ever on a channel. *)
Inductive outcome (A : Type) : Type :=
| Done (a : A)
| Panic
| OutOfFuel
| Blocked.
Arguments Done {A} a.
Arguments Panic {A}.
Arguments OutOfFuel {A}.
Arguments Blocked {A}.

Definition and_then {A B} (m : outcome A) (k : A -> outcome B) : outcome B :=
  match m with
  | Done a => k a
  | Panic => Panic
  | OutOfFuel => OutOfFuel
  | Blocked => Blocked
  end.

Notation "x <~ m ;; k" := (and_then m (fun x => k))
  (at level 100, m at next level, right associativity, only parsing).


(** ** Data model (types.go) *)

Definition float64 : Type := float.

Record Candle : Type := {
  Timestamp : Z;
  Open : float64;
  High : float64;
  Low : float64;
  Close : float64;
  Volume : float64
}.

(** An instant, as the number of nanoseconds since the zero [time.Time]. *)
Definition Time : Type := Z.
Definition zeroTime : Time := 0%Z.

(** [time.Duration], in nanoseconds. *)
Definition Nanosecond : Z := 1%Z.
Definition Millisecond : Z := 1000000%Z.
Definition Second : Z := 1000000000%Z.

(** ** Retry wrapper (hyperliquid.go, FetchCandlesWithRetry) *)

(** What one call of the wrapper does, in order. *)
Inductive retry_event : Type :=
| Attempted
| Slept (d : Z).

Section Retry.

(** The call [c.FetchCandles(symbol, interval, startTime, endTime)] as a
    transition on the state [W] of whatever answers it. *)
Context {W : Type}.
Variable FetchCandles : W -> result (list Candle) * W.

(** [time.Duration(1<<uint(attempt)) * time.Second] *)
Definition backoff (attempt : Z) : Z :=
  Int64.mul (Int64.shl 1 (Int64.to_uint attempt)) Second.

(** The loop [for attempt := 0; attempt < maxRetries; attempt++]. *)
Fixpoint retry_loop (fuel : nat) (maxRetries attempt : Z)
    (lastErr : option error) (w : W) (tr : list retry_event)
    : outcome (result (list Candle) * W * list retry_event) :=
  if (attempt <? maxRetries)%Z then
    match fuel with
    | 0%nat => OutOfFuel
    | S fuel' =>
        let '(r, w') := FetchCandles w in
        let tr := tr ++ [Attempted] in
        match r with
        | Ok candles => Done (Ok candles, w', tr)
        | Err err =>
            let tr :=
              if (attempt <? Int64.sub maxRetries 1)%Z
              then tr ++ [Slept (backoff attempt)]
              else tr in
            retry_loop fuel' maxRetries (Int64.add attempt 1) (Some err) w' tr
        end
    end
  else Done (Err (ErrAfterRetries maxRetries lastErr), w, tr).

Definition FetchCandlesWithRetry (maxRetries : Z) (w : W)
    : outcome (result (list Candle) * W * list retry_event) :=
  retry_loop (Z.to_nat maxRetries) maxRetries 0 None w [].

Definition attempts (tr : list retry_event) : nat :=
  length (omap (fun e => match e with Attempted => Some tt | Slept _ => None end) tr).

Definition sleeps (tr : list retry_event) : list Z :=
  omap (fun e => match e with Slept d => Some d | Attempted => None end) tr.

End Retry.

(** ** The wire format (encoding/json as the struct tags select it)

    [encoding/json] and [strconv] are libraries of Go, not code of the
    repository. This module states what their decoder (Go 1.21, the
    version the Dockerfile builds with) does with a value stored into a
    struct field, for the field types and the tags of types.go:
    [int64] and [int] without option, [float64] with the [string] option.
    [strconv.ParseFloat] stays a parameter. *)

Module Json.

Definition invalid_string_tag : error :=
  ErrExternal "json: invalid use of ,string struct tag".
Definition unmarshal_type_error : error :=
  ErrExternal "json: cannot unmarshal value into Go value".
Definition syntax_error : error :=
  ErrExternal "json: syntax error".

Definition is_digit (c : ascii) : bool :=
  (48 <=? nat_of_ascii c)%nat && (nat_of_ascii c <=? 57)%nat.

Definition digit_value (c : ascii) : Z := Z.of_nat (nat_of_ascii c) - 48.

Fixpoint digits_value (acc : Z) (s : string) : option Z :=
  match s with
  | EmptyString => Some acc
  | String c s' =>
      if is_digit c then digits_value (10 * acc + digit_value c) s' else None
  end.

Definition in_int64 (z : Z) : option Z :=
  if (Int64.min_int <=? z)%Z && (z <=? Int64.max_int)%Z then Some z else None.

(** [strconv.ParseInt(s, 10, 64)]: an optional sign, then decimal digits
    only, at least one; out of range is an error. *)
Definition ParseInt (s : string) : option Z :=
  match s with
  | EmptyString => None
  | String c s' =>
      if Ascii.eqb c "-" then
        match s' with
        | EmptyString => None
        | _ => z ← digits_value 0 s'; in_int64 (- z)
        end
      else if Ascii.eqb c "+" then
        match s' with
        | EmptyString => None
        | _ => z ← digits_value 0 s'; in_int64 z
        end
      else z ← digits_value 0 s; in_int64 z
  end.

(** The key of an object member selects the struct field whose name
    equals it after folding: ASCII letters to upper case, and the two
    non-ASCII runes whose fold set holds an ASCII letter, U+017F (to S)
    and U+212A (to K), given here by their UTF-8 bytes. *)
Definition upper (c : ascii) : ascii :=
  let n := nat_of_ascii c in
  if (97 <=? n)%nat && (n <=? 122)%nat then ascii_of_nat (n - 32) else c.

Fixpoint foldName (s : string) : string :=
  match s with
  | EmptyString => EmptyString
  | String c s' =>
      match nat_of_ascii c, s' with
      | 197%nat, String d s'' =>
          if (nat_of_ascii d =? 191)%nat then String "S" (foldName s'')
          else String c (foldName s')
      | 226%nat, String d (String e s'') =>
          if (nat_of_ascii d =? 132)%nat && (nat_of_ascii e =? 170)%nat
          then String "K" (foldName s'')
          else String c (foldName s')
      | _, _ => String (upper c) (foldName s')
      end
  end.

Definition selects (key name : string) : bool :=
  String.eqb key name || String.eqb (foldName key) (foldName name).

(** A value stored into an integer field without the [string] option:
    a number that [ParseInt] accepts is stored, [null] leaves the field
    as it is, anything else is an error. *)
Definition store_int (v : json) (old : Z) : result Z :=
  match v with
  | JNull => Ok old
  | JNumber lit =>
      match ParseInt lit with
      | Some n => Ok n
      | None => Err unmarshal_type_error
      end
  | _ => Err unmarshal_type_error
  end.

Section Floats.

(** [strconv.ParseFloat(s, 64)]; [None] when it returns an error. *)
Variable ParseFloat : string -> option float64.

(** The content of a JSON string stored into a [float64] field that
    has the [string] option (literalStore with fromQuoted): the text
    [null] leaves the field as it is; a text that starts with a digit
    or a minus sign goes to [ParseFloat]; every other text, the empty
    one included, is an error. *)
Definition store_quoted_float (s : string) (old : float64) : result float64 :=
  match s with
  | EmptyString => Err invalid_string_tag
  | String c _ =>
      if Ascii.eqb c "n" then
        if String.eqb s "null" then Ok old else Err invalid_string_tag
      else if Ascii.eqb c "-" || is_digit c then
        match ParseFloat s with
        | Some f => Ok f
        | None => Err unmarshal_type_error
        end
      else Err invalid_string_tag
  end.

(** A value stored into a [float64] field that has the [string]
    option: only a JSON string or [null] is looked at; a value that is
    not quoted is an error. *)
Definition store_float_string (v : json) (old : float64) : result float64 :=
  match v with
  | JNull => Ok old
  | JString s => store_quoted_float s old
  | _ => Err invalid_string_tag
  end.

End Floats.

End Json.

(** types.go, HyperliquidCandle: the raw response of the upstream. The
    one-letter field names live in a module of their own. *)
Module Raw.

Record HyperliquidCandle : Type := {
  T : Z;          (* `json:"t"` *)
  O : float64;    (* `json:"o,string"` *)
  H : float64;    (* `json:"h,string"` *)
  L : float64;    (* `json:"l,string"` *)
  C : float64;    (* `json:"c,string"` *)
  V : float64;    (* `json:"v,string"` *)
  N : Z           (* `json:"n"` *)
}.

Definition zero : HyperliquidCandle :=
  {| T := 0; O := 0%float; H := 0%float; L := 0%float; C := 0%float;
     V := 0%float; N := 0 |}.

End Raw.

Abbreviation HyperliquidCandle := Raw.HyperliquidCandle.

(** What one HTTP exchange gives the client: no response at all, or a
    status and a body. [text] is what the body holds and [read_error]
    what [io.ReadAll] returned with it. *)
Record http_body : Type := {
  text : body_text;
  read_error : option error
}.

(** The argument of [json.Unmarshal]: the document, when the text is one. *)
Definition document (body : http_body) : option json :=
  match text body with
  | Json v => Some v
  | NotJson _ => None
  end.

Inductive http_reply : Type :=
| NoResponse (err : error)
| Response (status : Z) (body : http_body).

Definition StatusOK : Z := 200.

Section Clients.

Variable ParseFloat : string -> option float64.

(** One member of a JSON object stored into a [HyperliquidCandle]; a key
    that selects no field is skipped. *)
Definition store_member (rc : HyperliquidCandle) (m : string * json)
    : result HyperliquidCandle :=
  let '(key, v) := m in
  let '(Raw.Build_HyperliquidCandle t o h l c vol n) := rc in
  if Json.selects key "t" then
    match Json.store_int v t with
    | Ok x => Ok (Raw.Build_HyperliquidCandle x o h l c vol n)
    | Err e => Err e
    end
  else if Json.selects key "o" then
    match Json.store_float_string ParseFloat v o with
    | Ok x => Ok (Raw.Build_HyperliquidCandle t x h l c vol n)
    | Err e => Err e
    end
  else if Json.selects key "h" then
    match Json.store_float_string ParseFloat v h with
    | Ok x => Ok (Raw.Build_HyperliquidCandle t o x l c vol n)
    | Err e => Err e
    end
  else if Json.selects key "l" then
    match Json.store_float_string ParseFloat v l with
    | Ok x => Ok (Raw.Build_HyperliquidCandle t o h x c vol n)
    | Err e => Err e
    end
  else if Json.selects key "c" then
    match Json.store_float_string ParseFloat v c with
    | Ok x => Ok (Raw.Build_HyperliquidCandle t o h l x vol n)
    | Err e => Err e
    end
  else if Json.selects key "v" then
    match Json.store_float_string ParseFloat v vol with
    | Ok x => Ok (Raw.Build_HyperliquidCandle t o h l c x n)
    | Err e => Err e
    end
  else if Json.selects key "n" then
    match Json.store_int v n with
    | Ok x => Ok (Raw.Build_HyperliquidCandle t o h l c vol x)
    | Err e => Err e
    end
  else Ok rc.

Fixpoint store_members (rc : HyperliquidCandle) (ms : list (string * json))
    : result HyperliquidCandle :=
  match ms with
  | [] => Ok rc
  | m :: ms' =>
      match store_member rc m with
      | Ok rc' => store_members rc' ms'
      | Err e => Err e
      end
  end.

(** One element of the array, stored into a fresh (zero) element of the
    slice. *)
Definition unmarshal_candle (v : json) : result HyperliquidCandle :=
  match v with
  | JNull => Ok Raw.zero
  | JObject ms => store_members Raw.zero ms
  | _ => Err Json.unmarshal_type_error
  end.

Fixpoint unmarshal_elements (items : list json) : result (list HyperliquidCandle) :=
  match items with
  | [] => Ok []
  | v :: items' =>
      match unmarshal_candle v with
      | Ok rc =>
          match unmarshal_elements items' with
          | Ok rcs => Ok (rc :: rcs)
          | Err e => Err e
          end
      | Err e => Err e
      end
  end.

(** [json.Unmarshal(body, &rawCandles)] with [rawCandles] a nil
    [[]HyperliquidCandle]: the result when Unmarshal returns no error,
    and an error whenever it returns one. (Of several errors in one
    document the first in document order stands for the one Unmarshal
    reports; FetchCandles wraps it whichever it is.) *)
Definition Unmarshal_candles (doc : option json) : result (list HyperliquidCandle) :=
  match doc with
  | None => Err Json.syntax_error
  | Some JNull => Ok []
  | Some (JArray items) => unmarshal_elements items
  | Some _ => Err Json.unmarshal_type_error
  end.

(** "Convert to our Candle format" *)
Definition to_Candle (rc : HyperliquidCandle) : Candle :=
  {| Timestamp := Raw.T rc; Open := Raw.O rc; High := Raw.H rc; Low := Raw.L rc;
     Close := Raw.C rc; Volume := Raw.V rc |}.

(** hyperliquid.go, FetchCandles, from the reply to its request on.
    (Building the request cannot fail: [json.Marshal] of a map of
    strings and integers, and [http.NewRequest] with a constant method
    and URL.) *)
Definition FetchCandles (reply : http_reply) : result (list Candle) :=
  match reply with
  | NoResponse err => Err (ErrRequestFailed err)
  | Response status body =>
      if negb (status =? StatusOK)%Z then Err (ErrStatus status (text body))
      else
        match read_error body with
        | Some err => Err (ErrReadResponse err)
        | None =>
            match Unmarshal_candles (document body) with
            | Err err => Err (ErrParseResponse err)
            | Ok rawCandles => Ok (map to_Candle rawCandles)
            end
        end
  end.

End Clients.

(** *** Time-series payloads *)

(** The two encodings of a numeric field on the wire. *)
Inductive encoding : Type := AsNumber | AsString.

Definition encode (enc : encoding) (lit : string) : json :=
  match enc with
  | AsNumber => JNumber lit
  | AsString => JString lit
  end.

(** One element of the time-series payload: the literal text of each
    field and, for the five prices and volumes, how it is encoded. *)
Record wire_candle : Type := {
  wire_t : string;
  wire_o : encoding * string;
  wire_h : encoding * string;
  wire_l : encoding * string;
  wire_c : encoding * string;
  wire_v : encoding * string;
  wire_n : string
}.

Definition wire_json (wc : wire_candle) : json :=
  JObject [("t", JNumber (wire_t wc));
           ("o", encode (fst (wire_o wc)) (snd (wire_o wc)));
           ("h", encode (fst (wire_h wc)) (snd (wire_h wc)));
           ("l", encode (fst (wire_l wc)) (snd (wire_l wc)));
           ("c", encode (fst (wire_c wc)) (snd (wire_c wc)));
           ("v", encode (fst (wire_v wc)) (snd (wire_v wc)));
           ("n", JNumber (wire_n wc))].

Definition all_strings (wc : wire_candle) : bool :=
  match fst (wire_o wc), fst (wire_h wc), fst (wire_l wc), fst (wire_c wc), fst (wire_v wc) with
  | AsString, AsString, AsString, AsString, AsString => true
  | _, _, _, _, _ => false
  end.

(** A number literal starts with a digit or a minus sign. *)
Definition starts_number (s : string) : bool :=
  match s with
  | EmptyString => false
  | String c _ => Ascii.eqb c "-" || Json.is_digit c
  end.

Section Wire.

Variable ParseFloat : string -> option float64.

(** The literal [s] is a number that ParseFloat reads as [f]. *)
Definition reads_as (s : string) (f : float64) : Prop :=
  starts_number s = true /\ ParseFloat s = Some f.

(** The values the literals of a wire candle denote. *)
Definition denotes (wc : wire_candle) (rc : HyperliquidCandle) : Prop :=
  Json.ParseInt (wire_t wc) = Some (Raw.T rc)
  /\ reads_as (snd (wire_o wc)) (Raw.O rc)
  /\ reads_as (snd (wire_h wc)) (Raw.H rc)
  /\ reads_as (snd (wire_l wc)) (Raw.L rc)
  /\ reads_as (snd (wire_c wc)) (Raw.C rc)
  /\ reads_as (snd (wire_v wc)) (Raw.V rc)
  /\ Json.ParseInt (wire_n wc) = Some (Raw.N rc).

End Wire.

(** *** Encodings of the members of an element *)

(** The five prices and volumes, by the name in their struct tag. *)
Definition price_fields : list string := ["o"; "h"; "l"; "c"; "v"].

(** The key of the member selects the field tagged [name]. *)
Definition carries (name : string) (m : string * json) : bool :=
  Json.selects (fst m) name.

Definition is_price (m : string * json) : bool :=
  existsb (fun name => carries name m) price_fields.

Definition is_integer (m : string * json) : bool :=
  carries "t" m || carries "n" m.

(** The field of a candle that the price or volume tagged [name] is
    converted to. *)
Definition price (name : string) (c : Candle) : float64 :=
  if String.eqb name "o" then Open c
  else if String.eqb name "h" then High c
  else if String.eqb name "l" then Low c
  else if String.eqb name "c" then Close c
  else Volume c.

Section Encodings.

Variable ParseFloat : string -> option float64.

(** A member of a payload with string-encoded prices: a price or volume
    is a JSON string that holds a number literal ParseFloat reads; the
    timestamp and the trade count are JSON numbers whose literal is an
    integer of 64 bits; any other member is whatever it is. *)
Definition string_encoded (m : string * json) : bool :=
  if is_price m then
    match snd m with
    | JString lit =>
        starts_number lit && match ParseFloat lit with Some _ => true | None => false end
    | _ => false
    end
  else if is_integer m then
    match snd m with
    | JNumber lit => match Json.ParseInt lit with Some _ => true | None => false end
    | _ => false
    end
  else true.

(** An element all of whose members are so: an object, with its members
    in any order and any number. *)
Definition string_encoded_element (v : json) : bool :=
  match v with
  | JObject ms => forallb string_encoded ms
  | _ => false
  end.

End Encodings.

(** A price or volume encoded as a JSON number, and an element that has
    one. *)
Definition number_encoded (m : string * json) : bool :=
  is_price m && match snd m with JNumber _ => true | _ => false end.

Definition has_number_encoded (v : json) : bool :=
  match v with
  | JObject ms => existsb number_encoded ms
  | _ => false
  end.

(** hydromancer.go, MetaResponse: one entry of the universe. *)
Record UniverseItem : Type := {
  Name : string;        (* `json:"name"` *)
  IsDelisted : bool     (* `json:"isDelisted,omitempty"` *)
}.

Record MetaResponse : Type := {
  Universe : list UniverseItem   (* `json:"universe"` *)
}.

(** An entry that is not marked delisted and whose name is not empty. *)
Definition listed (item : UniverseItem) : bool :=
  negb (String.eqb (Name item) "") && negb (IsDelisted item).

Section Universe.

(** [json.Unmarshal(body, &response)] for a zero [MetaResponse]. The
    decoder is a parameter: what the routine does after it does not
    depend on how the response was decoded. *)
Variable Unmarshal_meta : option json -> result MetaResponse.

(** The loop "Extract symbol names from universe (exclude delisted
    symbols)": [symbols] is appended to, item by item. *)
Fixpoint extract_symbols (symbols : list string) (items : list UniverseItem)
    : list string :=
  match items with
  | [] => symbols
  | item :: items' =>
      if negb (String.eqb (Name item) "") && negb (IsDelisted item)
      then extract_symbols (symbols ++ [Name item]) items'
      else extract_symbols symbols items'
  end.

(** hydromancer.go, FetchPerpetualSymbols, from the reply on. *)
Definition FetchPerpetualSymbols (reply : http_reply) : result (list string) :=
  match reply with
  | NoResponse err => Err (ErrRequestFailed err)
  | Response status body =>
      if negb (status =? StatusOK)%Z then Err (ErrStatus status (text body))
      else
        match read_error body with
        | Some err => Err (ErrReadResponse err)
        | None =>
            match Unmarshal_meta (document body) with
            | Err err => Err (ErrParseResponse err)
            | Ok response => Ok (extract_symbols [] (Universe response))
            end
        end
  end.

End Universe.

(** ** Snapshot cache (cache.go) *)

Record CacheEntry : Type := {
  Symbol : string;
  Candles : list Candle;
  LastUpdate : Time
}.

(** The mutex is not part of the state: every method below runs as one
    step, which is what holding the lock for its whole body gives. *)
Record Cache : Type := {
  data : gmap string CacheEntry;
  symbols : list string;
  lastUpdate : Time;
  symbolUpdate : Time
}.

Definition NewCache : Cache :=
  {| data := ∅; symbols := []; lastUpdate := zeroTime; symbolUpdate := zeroTime |}.

(** [Set]; [now1] and [now2] are its two readings of [time.Now()]. *)
Definition Set_ (c : Cache) (symbol : string) (candles : list Candle)
    (now1 now2 : Time) : Cache :=
  {| data := <[symbol := {| Symbol := symbol; Candles := candles; LastUpdate := now1 |}]> (data c);
     symbols := symbols c;
     lastUpdate := now2;
     symbolUpdate := symbolUpdate c |}.

(** [Get]: the entry and whether the key exists; the zero entry when it
    does not. *)
Definition zeroCacheEntry : CacheEntry :=
  {| Symbol := ""; Candles := []; LastUpdate := zeroTime |}.

Definition Get (c : Cache) (symbol : string) : CacheEntry * bool :=
  match data c !! symbol with
  | Some entry => (entry, true)
  | None => (zeroCacheEntry, false)
  end.

Definition SetSymbols (c : Cache) (syms : list string) (now : Time) : Cache :=
  {| data := data c; symbols := syms; lastUpdate := lastUpdate c; symbolUpdate := now |}.

(** [GetAll]: a new map with the entries of [c.data]. *)
Definition GetAll (c : Cache) : gmap string CacheEntry := data c.

(** [GetSymbols]: a new slice with the elements of [c.symbols]. *)
Definition GetSymbols (c : Cache) : list string := symbols c.

Definition GetLastUpdate (c : Cache) : Time := lastUpdate c.

Definition GetSymbolUpdate (c : Cache) : Time := symbolUpdate c.

(** ** The running program: state, clock and trace *)

Inductive log_line : Type :=
| LogNoSymbols
| LogFoundSymbols (n : Z)
| LogFetchingBatch (currentBatch totalBatches size : Z)
| LogFetchFailed (symbol : string) (err : error)
| LogBatchesComplete (totalBatches successCount : Z)
| LogCached (successCount n : Z)
| LogFetchingSymbols
| LogSymbolsFailed (err : error)
| LogUsingCachedSymbols (n : Z)
| LogEmptySymbolList
| LogDiscovered (n : Z).

Inductive event : Type :=
| Logged (line : log_line)
| FanOut (batch : list string)
    (* one goroutine launched per symbol of the batch, in this order *)
| WroteSeries (symbol : string) (candles : list Candle)
    (* a call of Cache.Set *)
| WroteSymbols (syms : list string)
    (* a call of Cache.SetSymbols *)
| Paused (d : Z).
    (* time.Sleep between batches *)

(** [ticks] counts the readings of the clock made so far and [recvs] the
    messages received from result channels; the environment answers the
    n-th of each. The readings counted are the calls of [time.Now()] in
    the code of the repository (cache.go, worker.go). The date and time
    that the logger puts before each line it prints ([log.LstdFlags], set
    by main) is a reading of the clock made inside the log package: it is
    not one of the readings that [ticks] numbers, and a [Logged] event
    records the line without this prefix. *)
Record world : Type := {
  cache : Cache;
  ticks : nat;
  recvs : nat;
  trace : list event
}.

Definition emit (e : event) (w : world) : world :=
  {| cache := cache w; ticks := ticks w; recvs := recvs w; trace := trace w ++ [e] |}.

Definition log (l : log_line) (w : world) : world := emit (Logged l) w.

(** The request of FetchCandles. *)
Record request : Type := {
  coin : string;
  interval : string;
  startTime : Z;
  endTime : Z
}.

(** Everything outside the program that a run depends on. *)
Record Env : Type := {
  (** the n-th reading of [time.Now()] *)
  clock : nat -> Time;
  (** [Time.UnixMilli] and [Time.AddDate] (calendar arithmetic) *)
  UnixMilli : Time -> Z;
  AddDate : Time -> Z -> Z -> Z -> Time;
  (** the reply to the n-th request of the goroutine launched for the
      i-th symbol of the cycle *)
  upstream : nat -> request -> nat -> http_reply;
  (** which of the goroutines still in flight delivers the n-th message
      received (taken modulo their number) *)
  arrival : nat -> nat;
  ParseFloat : string -> option float64
}.

Definition len {A} (l : list A) : Z := Z.of_nat (length l).

(** [s[lo:hi]] for a slice whose capacity is its length; [None] is the
    run-time panic "slice bounds out of range". *)
Definition slice {A} (s : list A) (lo hi : Z) : option (list A) :=
  if (0 <=? lo)%Z && (lo <=? hi)%Z && (hi <=? len s)%Z
  then Some (take (Z.to_nat (hi - lo)) (drop (Z.to_nat lo) s))
  else None.

Section World.

Variable env : Env.

Definition Now (w : world) : Time * world :=
  (clock env (ticks w),
   {| cache := cache w; ticks := S (ticks w); recvs := recvs w; trace := trace w |}).

(** [a.cache.Set(symbol, candles)] *)
Definition cache_Set (symbol : string) (candles : list Candle) (w : world) : world :=
  let '(now1, w) := Now w in
  let '(now2, w) := Now w in
  emit (WroteSeries symbol candles)
    {| cache := Set_ (cache w) symbol candles now1 now2;
       ticks := ticks w; recvs := recvs w; trace := trace w |}.

(** [a.cache.SetSymbols(syms)] *)
Definition cache_SetSymbols (syms : list string) (w : world) : world :=
  let '(now, w) := Now w in
  emit (WroteSymbols syms)
    {| cache := SetSymbols (cache w) syms now;
       ticks := ticks w; recvs := recvs w; trace := trace w |}.

End World.

(** The batches of a run, as its trace shows them, and its cache writes. *)
Definition batches_of (tr : list event) : list (list string) :=
  omap (fun e => match e with FanOut batch => Some batch | _ => None end) tr.

(** The progress lines "Fetching batch %d/%d (%d symbols)..." of a run. *)
Definition progress_of (tr : list event) : list (Z * Z * Z) :=
  omap (fun e => match e with
                 | Logged (LogFetchingBatch cur total size) => Some (cur, total, size)
                 | _ => None
                 end) tr.

Definition series_writes_of (tr : list event) : list (string * list Candle) :=
  omap (fun e => match e with WroteSeries s cs => Some (s, cs) | _ => None end) tr.

Definition symbol_writes_of (tr : list event) : list (list string) :=
  omap (fun e => match e with WroteSymbols syms => Some syms | _ => None end) tr.

(** Fixed-size batches, in the words of the specification: the list cut
    into consecutive pieces of [B] elements, the last one possibly
    shorter. *)
Fixpoint chunk_fuel {A} (fuel : nat) (B : nat) (l : list A) : list (list A) :=
  match l with
  | [] => []
  | _ :: _ =>
      match fuel with
      | 0%nat => []
      | S fuel' => take B l :: chunk_fuel fuel' B (drop B l)
      end
  end.

Definition chunks {A} (B : nat) (l : list A) : list (list A) :=
  chunk_fuel (length l) B l.

(** ** Batch refresh orchestrator (worker.go) *)

Module CandleFetcher.

Record CandleFetcherActor : Type := {
  refreshInterval : Z;
  candleInterval : string;
  candleDays : Z;
  batchSize : Z;
  batchDelay : Z
}.

Definition NewCandleFetcherActor (refreshInterval : Z) (candleInterval : string)
    (candleDays : Z) : CandleFetcherActor :=
  {| refreshInterval := refreshInterval;
     candleInterval := candleInterval;
     candleDays := candleDays;
     batchSize := 10;
     batchDelay := Int64.mul 200 Millisecond |}.

(** The local [type result struct] of fetchAllCandles. *)
Record batch_result : Type := {
  res_symbol : string;
  res_candles : list Candle;
  res_err : option error
}.

Section Program.

Variable env : Env.
Variable a : CandleFetcherActor.

(** The call [a.hyperliquidClient.FetchCandlesWithRetry(sym,
    a.candleInterval, startTime, endTime, 3)] made by the goroutine
    launched for the [i]-th symbol of the cycle: the n-th call of
    FetchCandles gets the upstream's n-th reply to it. *)
Definition fetch_with_retry (i : nat) (sym : string) (startTime endTime : Z)
    : outcome (result (list Candle) * nat * list retry_event) :=
  let req := {| coin := sym; interval := candleInterval a;
                startTime := startTime; endTime := endTime |} in
  FetchCandlesWithRetry
    (fun n => (FetchCandles (ParseFloat env) (upstream env i req n), S n)) 3 0%nat.

(** The goroutine: the message it sends on the channel. *)
Definition goroutine (i : nat) (sym : string) (startTime endTime : Z)
    : outcome batch_result :=
  x <~ fetch_with_retry i sym startTime endTime;;
  match fst (fst x) with
  | Ok candles => Done {| res_symbol := sym; res_candles := candles; res_err := None |}
  | Err err => Done {| res_symbol := sym; res_candles := []; res_err := Some err |}
  end.

(** The goroutines of one batch, in launch order; [i] is the index of
    the batch's first symbol. *)
Fixpoint launch (i : nat) (batch : list string) (startTime endTime : Z)
    : outcome (list batch_result) :=
  match batch with
  | [] => Done []
  | sym :: batch' =>
      r <~ goroutine i sym startTime endTime;;
      rs <~ launch (S i) batch' startTime endTime;;
      Done (r :: rs)
  end.

(** [res := <-results]: one of the messages in flight is delivered;
    [None] when none is, and the receive blocks for ever. *)
Definition receive (inflight : list batch_result) (w : world)
    : option (batch_result * list batch_result * world) :=
  match inflight with
  | [] => None
  | _ :: _ =>
      let k := (arrival env (recvs w) mod length inflight)%nat in
      match inflight !! k with
      | Some res =>
          Some (res, delete k inflight,
                {| cache := cache w; ticks := ticks w; recvs := S (recvs w);
                   trace := trace w |})
      | None => None
      end
  end.

(** What is done with one received result. *)
Definition store_result (res : batch_result) (successCount : Z) (w : world)
    : Z * world :=
  match res_err res with
  | Some err =>
      let w := log (LogFetchFailed (res_symbol res) err) w in
      (* "Store empty array for failed symbols" *)
      let w := cache_Set env (res_symbol res) [] w in
      (successCount, w)
  | None =>
      let w := cache_Set env (res_symbol res) (res_candles res) w in
      (Int64.add successCount 1, w)
  end.

(** "Collect results": [for i := 0; i < len(batch); i++], with [n]
    the iterations left. *)
Fixpoint collect (n : nat) (inflight : list batch_result) (successCount : Z)
    (w : world) : option (Z * world) :=
  match n with
  | 0%nat => Some (successCount, w)
  | S n' =>
      match receive inflight w with
      | None => None
      | Some (res, inflight', w) =>
          let '(successCount, w) := store_result res successCount w in
          collect n' inflight' successCount w
      end
  end.

(** The body of the batch loop once [batch] and [currentBatch] are
    computed. *)
Definition process_batch (startTime endTime totalBatches currentBatch : Z)
    (i : nat) (batch : list string) (successCount : Z) (w : world)
    : outcome (Z * world) :=
  let w := log (LogFetchingBatch currentBatch totalBatches (len batch)) w in
  let w := emit (FanOut batch) w in
  results <~ launch i batch startTime endTime;;
  match collect (length batch) results successCount w with
  | None => Blocked
  | Some (successCount, w) =>
      (* "Delay between batches to avoid rate limiting" *)
      if (currentBatch <? totalBatches)%Z
      then Done (successCount, emit (Paused (batchDelay a)) w)
      else Done (successCount, w)
  end.

(** The loop
    [for batchIdx := 0; batchIdx < len(symbols); batchIdx += a.batchSize]. *)
Fixpoint batch_loop (fuel : nat) (syms : list string)
    (startTime endTime totalBatches batchIdx successCount : Z) (w : world)
    : outcome (Z * world) :=
  if (batchIdx <? len syms)%Z then
    match fuel with
    | 0%nat => OutOfFuel
    | S fuel' =>
        let end_ := Int64.add batchIdx (batchSize a) in
        let end_ := if (end_ >? len syms)%Z then len syms else end_ in
        match slice syms batchIdx end_ with
        | None => Panic
        | Some batch =>
            if (batchSize a =? 0)%Z then Panic else
            let currentBatch := Int64.add (Int64.quot batchIdx (batchSize a)) 1 in
            x <~ process_batch startTime endTime totalBatches currentBatch
                   (Z.to_nat batchIdx) batch successCount w;;
            batch_loop fuel' syms startTime endTime totalBatches
              (Int64.add batchIdx (batchSize a)) (fst x) (snd x)
        end
    end
  else Done (successCount, w).

(** "Calculate time range": the two readings of the clock and the
    window they give. *)
Definition time_range (w : world) : Z * Z * world :=
  let '(now1, w) := Now env w in
  let endTime := UnixMilli env now1 in
  let '(now2, w) := Now env w in
  let startTime :=
    UnixMilli env (AddDate env now2 0 0 (Int64.sub 0 (candleDays a))) in
  (startTime, endTime, w).

Definition fetchAllCandles (w : world) : outcome world :=
  let syms := GetSymbols (cache w) in
  if (len syms =? 0)%Z then Done (log LogNoSymbols w)
  else
    let w := log (LogFoundSymbols (len syms)) w in
    let '(startTime, endTime, w) := time_range w in
    if (batchSize a =? 0)%Z then Panic else
    let totalBatches :=
      Int64.quot (Int64.sub (Int64.add (len syms) (batchSize a)) 1) (batchSize a) in
    x <~ batch_loop (length syms) syms startTime endTime totalBatches 0 0 w;;
    let '(successCount, w) := x in
    let w := log (LogBatchesComplete totalBatches successCount) w in
    Done (log (LogCached successCount (len syms)) w).

End Program.

(** What a cycle does, told from its results. *)
Section Results.

Variable env : Env.
Variable a : CandleFetcherActor.

(** The message of the goroutine launched for the [i]-th symbol. *)
Definition job (i : nat) (sym : string) (startTime endTime : Z) : batch_result :=
  match goroutine env a i sym startTime endTime with
  | Done r => r
  | _ => {| res_symbol := sym; res_candles := []; res_err := None |}
  end.

(** The messages of the goroutines launched for [batch], whose first
    symbol is the [i]-th of the cycle. *)
Definition jobs (i : nat) (batch : list string) (st et : Z) : list batch_result :=
  imap (fun k sym => job (i + k) sym st et) batch.

(** The bars stored for a result, and what handling it adds to the
    trace. *)
Definition stored (res : batch_result) : list Candle :=
  match res_err res with
  | Some _ => []
  | None => res_candles res
  end.

Definition write_of (res : batch_result) : string * list Candle :=
  (res_symbol res, stored res).

Definition events_of (res : batch_result) : list event :=
  match res_err res with
  | Some err =>
      [Logged (LogFetchFailed (res_symbol res) err); WroteSeries (res_symbol res) []]
  | None => [WroteSeries (res_symbol res) (res_candles res)]
  end.

Definition succeeded (res : batch_result) : bool :=
  match res_err res with Some _ => false | None => true end.

(** The results counted as successful. *)
Definition count_ok (rs : list batch_result) : nat :=
  length (filter (fun r => succeeded r = true) rs).

(** The cache after the results of [order] were stored in that order,
    the first at clock reading [t]. *)
Fixpoint apply_writes (t : nat) (order : list batch_result) (c : Cache) : Cache :=
  match order with
  | [] => c
  | res :: order' =>
      apply_writes (S (S t)) order'
        (Set_ c (res_symbol res) (stored res) (clock env t) (clock env (S t)))
  end.

(** The window of a cycle that starts in [w]: (startTime, endTime). *)
Definition window (w : world) : Z * Z := fst (time_range env a w).

End Results.

End CandleFetcher.

(** The Identifier Set of the data model: the sequence of keys and the
    time of its last update. *)
Definition IdentifierSet (c : Cache) : list string * Time :=
  (GetSymbols c, GetSymbolUpdate c).

(** ** Identifier refresh (symbols.go) *)

Module SymbolFetcher.

Record SymbolFetcherActor : Type := {
  refreshInterval : Z;
  cachedSymbols : list string   (* "Fallback cache" *)
}.

Definition NewSymbolFetcherActor (refreshInterval : Z) : SymbolFetcherActor :=
  {| refreshInterval := refreshInterval; cachedSymbols := [] |}.

Section Program.

Variable env : Env.
Variable Unmarshal_meta : option json -> result MetaResponse.

(** fetchSymbols; [reply] is what the request of FetchPerpetualSymbols
    gets from the upstream in this run. *)
Definition fetchSymbols (reply : http_reply) (a : SymbolFetcherActor) (w : world)
    : SymbolFetcherActor * world :=
  let w := log LogFetchingSymbols w in
  match FetchPerpetualSymbols Unmarshal_meta reply with
  | Err err =>
      let w := log (LogSymbolsFailed err) w in
      if (len (cachedSymbols a) >? 0)%Z then
        let w := log (LogUsingCachedSymbols (len (cachedSymbols a))) w in
        (a, cache_SetSymbols env (cachedSymbols a) w)
      else (a, w)
  | Ok syms =>
      if (len syms =? 0)%Z then (a, log LogEmptySymbolList w)
      else
        let w := log (LogDiscovered (len syms)) w in
        let w := cache_SetSymbols env syms w in
        ({| refreshInterval := refreshInterval a; cachedSymbols := syms |}, w)
  end.

(** The routine run once per reply of a list, first to last: the
    actor handles one message at a time. *)
Fixpoint runs (replies : list http_reply) (a : SymbolFetcherActor) (w : world)
    : SymbolFetcherActor * world :=
  match replies with
  | [] => (a, w)
  | reply :: replies' =>
      let '(a, w) := fetchSymbols reply a w in
      runs replies' a w
  end.

(** The states the program reaches: it starts with an empty cache and an
    actor made by NewSymbolFetcherActor; the identifier refresh runs; in
    between, the other components take their steps, none of which calls
    SetSymbols (the candle fetcher calls Set and GetSymbols, the handlers
    of the read API call the getters). *)
Inductive reachable : SymbolFetcherActor -> world -> Prop :=
| reach_start refreshInterval w :
    cache w = NewCache ->
    reachable (NewSymbolFetcherActor refreshInterval) w
| reach_fetchSymbols reply a w :
    reachable a w ->
    reachable (fst (fetchSymbols reply a w)) (snd (fetchSymbols reply a w))
| reach_others a w w' :
    reachable a w ->
    symbols (cache w') = symbols (cache w) ->
    symbolUpdate (cache w') = symbolUpdate (cache w) ->
    reachable a w'.



End Program.

End SymbolFetcher.

(** ** The cache up to sharing (cache.go, Get and GetAll) *)

(** A Go map is a reference and a slice is a header that points into an
    array: two copies of either one share what they point to. Where a
    claim is about mutation through a copy, the cache is read in a heap
    that holds the maps and the arrays. *)
Module Mem.

Definition addr : Type := nat.

(** A slice header: the array, the offset of the first element, the
    length and the capacity. *)
Record slice : Type := {
  array : addr;
  offset : nat;
  length_ : nat;
  capacity : nat
}.

Definition nil_slice : slice :=
  {| array := 0%nat; offset := 0%nat; length_ := 0%nat; capacity := 0%nat |}.

Record CacheEntry : Type := {
  Symbol : string;
  Candles : slice;
  LastUpdate : Time
}.

Definition zeroCacheEntry : CacheEntry :=
  {| Symbol := ""; Candles := nil_slice; LastUpdate := zeroTime |}.

Record heap : Type := {
  arrays : gmap addr (list Candle);
  maps : gmap addr (gmap string CacheEntry)
}.

(** The cache; [data] is the reference held in the field [c.data]. The
    symbol list plays no part here. *)
Record Cache : Type := {
  data : addr;
  lastUpdate : Time;
  symbolUpdate : Time
}.

(** [entry, exists := c.data[symbol]] *)
Definition Get (h : heap) (c : Cache) (symbol : string) : CacheEntry * bool :=
  match maps h !! data c with
  | Some m =>
      match m !! symbol with
      | Some entry => (entry, true)
      | None => (zeroCacheEntry, false)
      end
  | None => (zeroCacheEntry, false)
  end.

(** [GetAll]: [make] allocates a map, the loop copies every entry of
    [c.data] into it, and its reference is returned. *)
Definition GetAll (h : heap) (c : Cache) : heap * addr :=
  let result := fresh (dom (maps h)) in
  let entries := default ∅ (maps h !! data c) in
  ({| arrays := arrays h; maps := <[result := entries]> (maps h) |}, result).

(** The bars a slice shows in a heap. *)
Definition contents (h : heap) (s : slice) : list Candle :=
  take (length_ s) (drop (offset s) (default [] (arrays h !! array s))).

(** What a caller of Get sees: the key, the bars, the time and the flag. *)
Definition view (h : heap) (r : CacheEntry * bool) : string * list Candle * Time * bool :=
  (Symbol (fst r), contents h (Candles (fst r)), LastUpdate (fst r), snd r).

(** What a caller can do to a map [m] it was handed. *)
Inductive mutation : Type :=
| MapAssign (k : string) (e : CacheEntry)
    (* m[k] = e *)
| MapDelete (k : string)
    (* delete(m, k) *)
| ElemAssign (k : string) (i : nat) (c : Candle).
    (* m[k].Candles[i] = c *)

Definition is_map_level (mu : mutation) : bool :=
  match mu with
  | MapAssign _ _ | MapDelete _ => true
  | ElemAssign _ _ _ => false
  end.

(** One mutation through the reference [m]; [None] is a run-time panic
    (assignment to an entry of a nil map, index out of range). *)
Definition mutate (m : addr) (h : heap) (mu : mutation) : option heap :=
  match mu with
  | MapAssign k e =>
      match maps h !! m with
      | Some entries => Some {| arrays := arrays h; maps := <[m := <[k := e]> entries]> (maps h) |}
      | None => None
      end
  | MapDelete k =>
      match maps h !! m with
      | Some entries => Some {| arrays := arrays h; maps := <[m := delete k entries]> (maps h) |}
      | None => Some h
      end
  | ElemAssign k i c =>
      let s := Candles (default zeroCacheEntry (default ∅ (maps h !! m) !! k)) in
      if (i <? length_ s)%nat then
        match arrays h !! array s with
        | Some elems =>
            Some {| arrays := <[array s := <[(offset s + i)%nat := c]> elems]> (arrays h);
                    maps := maps h |}
        | None => None
        end
      else None
  end.

Fixpoint mutate_all (m : addr) (h : heap) (mus : list mutation) : option heap :=
  match mus with
  | [] => Some h
  | mu :: mus' =>
      match mutate m h mu with
      | Some h' => mutate_all m h' mus'
      | None => None
      end
  end.

End Mem.


(** ** Concrete inputs

    The runs the lemmas at the end of the file are checked on. *)

Definition candle_ex (t : Z) (x : float64) : Candle :=
  {| Timestamp := t; Open := x; High := x; Low := x; Close := x; Volume := x |}.

(** A fetch that fails twice and succeeds from then on; its state counts
    the calls. *)
Definition flaky_ex (n : nat) : result (list Candle) * nat :=
  ((if (n <? 2)%nat then Err (ErrExternal "timeout") else Ok [candle_ex 1 1.5%float]), S n).

(** A reader of three literals standing for [strconv.ParseFloat]. *)
Definition ParseFloat_ex (s : string) : option float64 :=
  if String.eqb s "1.5" then Some 1.5%float
  else if String.eqb s "2.5" then Some 2.5%float
  else if String.eqb s "-3" then Some (-3)%float
  else None.

Definition wire_ex : wire_candle :=
  {| wire_t := "1700000000000";
     wire_o := (AsString, "1.5"); wire_h := (AsString, "2.5");
     wire_l := (AsString, "-3"); wire_c := (AsString, "1.5");
     wire_v := (AsString, "2.5"); wire_n := "42" |}.

(** The same element with its opening price sent as a JSON number. *)
Definition wire_number_ex : wire_candle :=
  {| wire_t := "1700000000000";
     wire_o := (AsNumber, "1.5"); wire_h := (AsString, "2.5");
     wire_l := (AsString, "-3"); wire_c := (AsString, "1.5");
     wire_v := (AsString, "2.5"); wire_n := "42" |}.

Definition raw_ex : HyperliquidCandle :=
  Raw.Build_HyperliquidCandle 1700000000000 1.5%float 2.5%float (-3)%float
    1.5%float 2.5%float 42.

Definition body_ex (v : json) : http_body := {| text := Json v; read_error := None |}.

(** A decoder of universe responses for the examples: it reads the
    members [name] and [isDelisted] of each element of [universe]. *)
Definition item_ex (v : json) : UniverseItem :=
  match v with
  | JObject ms =>
      fold_left
        (fun item m =>
           match snd m with
           | JString s =>
               if Json.selects (fst m) "name"
               then {| Name := s; IsDelisted := IsDelisted item |} else item
           | JBool b =>
               if Json.selects (fst m) "isDelisted"
               then {| Name := Name item; IsDelisted := b |} else item
           | _ => item
           end)
        ms {| Name := ""; IsDelisted := false |}
  | _ => {| Name := ""; IsDelisted := false |}
  end.

Definition Unmarshal_meta_ex (doc : option json) : result MetaResponse :=
  match doc with
  | Some (JObject [(key, JArray items)]) =>
      if Json.selects key "universe"
      then Ok {| Universe := map item_ex items |}
      else Ok {| Universe := [] |}
  | Some _ => Err Json.unmarshal_type_error
  | None => Err Json.syntax_error
  end.

Definition universe_reply_ex : http_reply :=
  Response 200 (body_ex (JObject [("universe", JArray [
    JObject [("name", JString "BTC")];
    JObject [("name", JString "OLD"); ("isDelisted", JBool true)];
    JObject [("name", JString "")];
    JObject [("name", JString "ETH"); ("isDelisted", JBool false)]])])).

(** A universe in which a name is carried by a delisted entry and by one
    that is not. *)
Definition relisted_reply_ex : http_reply :=
  Response 200 (body_ex (JObject [("universe", JArray [
    JObject [("name", JString "ABC"); ("isDelisted", JBool true)];
    JObject [("name", JString "ABC")]])])).

Definition down_reply_ex : http_reply := NoResponse (ErrExternal "connection refused").

(** An environment: the clock advances by a second at each reading, the
    upstream is down for the coin X and answers one bar for every other
    coin, and of the messages in flight the second arrives first. *)
Definition env_ex : Env :=
  {| clock := fun n => (1000000000 * Z.of_nat (S n))%Z;
     UnixMilli := fun t => (t / 1000000)%Z;
     AddDate := fun t _ _ days => (t + days * 86400000000000)%Z;
     upstream := fun _ req _ =>
       if String.eqb (coin req) "X" then down_reply_ex
       else Response 200 (body_ex (JArray [wire_json wire_ex]));
     arrival := fun _ => 1%nat;
     ParseFloat := ParseFloat_ex |}.

Definition actor_ex : CandleFetcher.CandleFetcherActor :=
  {| CandleFetcher.refreshInterval := 300 * Second;
     CandleFetcher.candleInterval := "1h";
     CandleFetcher.candleDays := 7;
     CandleFetcher.batchSize := 2;
     CandleFetcher.batchDelay := 200 * Millisecond |}.

Definition world_of (c : Cache) : world :=
  {| cache := c; ticks := 0; recvs := 0; trace := [] |}.

Definition world_ex : world := world_of (SetSymbols NewCache ["X"; "Y"; "Z"] 5%Z).

Definition heap_ex : Mem.heap :=
  {| Mem.arrays := {[ 0%nat := [candle_ex 1 1.5%float; candle_ex 2 2.5%float] ]};
     Mem.maps := {[ 0%nat := {[ "BTC" :=
       {| Mem.Symbol := "BTC";
          Mem.Candles := {| Mem.array := 0%nat; Mem.offset := 0%nat;
                            Mem.length_ := 2%nat; Mem.capacity := 2%nat |};
          Mem.LastUpdate := 100%Z |} ]} ]} |}.

Definition mem_cache_ex : Mem.Cache :=
  {| Mem.data := 0%nat; Mem.lastUpdate := 100%Z; Mem.symbolUpdate := 50%Z |}.

(** ** Sequences of cache writes (cache.go) *)

(** A write to the cache, with the readings of the clock it makes. *)
Inductive cache_op : Type :=
| OpSet (symbol : string) (candles : list Candle) (now1 now2 : Time)
| OpSetSymbols (syms : list string) (now : Time).

Definition apply_op (c : Cache) (op : cache_op) : Cache :=
  match op with
  | OpSet symbol candles now1 now2 => Set_ c symbol candles now1 now2
  | OpSetSymbols syms now => SetSymbols c syms now
  end.

Definition apply_ops (ops : list cache_op) (c : Cache) : Cache :=
  fold_left apply_op ops c.

(** The entry of the last Set made for [symbol] in [ops]; [before] when
    there is none. *)
Fixpoint last_set (symbol : string) (ops : list cache_op) (before : option CacheEntry)
    : option CacheEntry :=
  match ops with
  | [] => before
  | OpSet s candles now1 _ :: ops' =>
      if String.eqb s symbol
      then last_set symbol ops'
             (Some {| Symbol := s; Candles := candles; LastUpdate := now1 |})
      else last_set symbol ops' before
  | OpSetSymbols _ _ :: ops' => last_set symbol ops' before
  end.

(** The list of the last SetSymbols of [ops]; [before] when there is none. *)
Fixpoint last_symbols (ops : list cache_op) (before : list string) : list string :=
  match ops with
  | [] => before
  | OpSet _ _ _ _ :: ops' => last_symbols ops' before
  | OpSetSymbols syms _ :: ops' => last_symbols ops' syms
  end.

(** ** Runs of the retry wrapper (hyperliquid.go) *)

Section RetryRuns.

Context {W : Type}.
Variable FetchCandles : W -> result (list Candle) * W.

(** The upstream after [n] attempts in a row that all failed, from [w] on,
    and the error of the last of them ([lastErr] when [n] is 0); [None]
    when one of the [n] attempts succeeds. *)
Fixpoint after_failures (n : nat) (lastErr : option error) (w : W)
    : option (option error * W) :=
  match n with
  | 0%nat => Some (lastErr, w)
  | S n' =>
      match FetchCandles w with
      | (Err err, w') => after_failures n' (Some err) w'
      | (Ok _, _) => None
      end
  end.

End RetryRuns.

(** What [k] failed attempts, the first numbered [attempt], add to the
    trace of a call with [maxRetries]. *)
Definition failed_attempts (maxRetries attempt : Z) (k : nat) : list retry_event :=
  flat_map (fun i => Attempted ::
                     (if (i <? maxRetries - 1)%Z then [Slept (backoff i)] else []))
    (seqZ attempt (Z.of_nat k)).

(** ** The trace of a cycle (worker.go) *)

(** The pauses of a run. *)
Definition pauses_of (tr : list event) : list Z :=
  omap (fun e => match e with Paused d => Some d | _ => None end) tr.

(** What one batch adds to the trace: its progress line, the launch of
    its goroutines, the handling of its results in their order of arrival,
    and the pause when it is not the last. *)
Definition segment (total delay cur : Z) (batch : list string)
    (order : list CandleFetcher.batch_result) : list event :=
  [Logged (LogFetchingBatch cur total (len batch)); FanOut batch]
  ++ flat_map CandleFetcher.events_of order
  ++ (if (cur <? total)%Z then [Paused delay] else []).

Fixpoint segments (total delay cur : Z) (bs : list (list string))
    (orders : list (list CandleFetcher.batch_result)) : list event :=
  match bs, orders with
  | b :: bs', order :: orders' =>
      segment total delay cur b order ++ segments total delay (cur + 1) bs' orders'
  | _, _ => []
  end.

(** [orders] gives, batch by batch, an order of arrival of the results of
    the goroutines of that batch; [i] is the index of the first symbol of
    the first batch and [B] the batch size. *)
Fixpoint arrivals (env : Env) (a : CandleFetcher.CandleFetcherActor) (B i : nat)
    (st et : Z) (bs : list (list string))
    (orders : list (list CandleFetcher.batch_result)) : Prop :=
  match bs, orders with
  | [], [] => True
  | b :: bs', order :: orders' =>
      order ≡ₚ CandleFetcher.jobs env a i b st et
      /\ arrivals env a B (i + B) st et bs' orders'
  | _, _ => False
  end.

(** ** The running program (worker.go, symbols.go, cache.go) *)

(** The steps the actors take on the shared state. *)
Inductive step : Type :=
| StepSet (symbol : string) (candles : list Candle)
| StepSetSymbols (syms : list string)
| StepNow
| StepRecv
| StepEmit (e : event).

Definition run_step (env : Env) (w : world) (s : step) : world :=
  match s with
  | StepSet symbol candles => cache_Set env symbol candles w
  | StepSetSymbols syms => cache_SetSymbols env syms w
  | StepNow => snd (Now env w)
  | StepRecv =>
      {| cache := cache w; ticks := ticks w; recvs := S (recvs w); trace := trace w |}
  | StepEmit e => emit e w
  end.

Definition run_steps (env : Env) (steps : list step) (w : world) : world :=
  fold_left (run_step env) steps w.

Definition writes_symbols (s : step) : bool :=
  match s with StepSetSymbols _ => true | _ => false end.

Definition writes_series (s : step) : bool :=
  match s with StepSet _ _ => true | _ => false end.

Definition series_only (steps : list step) : Prop :=
  forallb (fun s => negb (writes_symbols s)) steps = true.

(** The clock never runs backwards and never reads before the zero time. *)
Definition monotone (env : Env) : Prop :=
  (forall n, (zeroTime <= clock env n)%Z)
  /\ forall m n, (m <= n)%nat -> (clock env m <= clock env n)%Z.

(** The states of the running program: it starts with the empty cache and
    the actor made by NewSymbolFetcherActor; then come, in any order, runs
    of the identifier refresh, whole data refresh cycles (of any candle
    fetcher), and single steps of a cycle in progress, which are all the
    steps but the write of the identifier list. *)
Inductive running (env : Env) (Unmarshal_meta : option json -> result MetaResponse)
    : SymbolFetcher.SymbolFetcherActor -> world -> Prop :=
| running_start refreshInterval :
    running env Unmarshal_meta
      (SymbolFetcher.NewSymbolFetcherActor refreshInterval) (world_of NewCache)
| running_fetchSymbols reply a w :
    running env Unmarshal_meta a w ->
    running env Unmarshal_meta
      (fst (SymbolFetcher.fetchSymbols env Unmarshal_meta reply a w))
      (snd (SymbolFetcher.fetchSymbols env Unmarshal_meta reply a w))
| running_fetchAllCandles actor a w w' :
    running env Unmarshal_meta a w ->
    CandleFetcher.fetchAllCandles env actor w = Done w' ->
    running env Unmarshal_meta a w'
| running_step s a w :
    running env Unmarshal_meta a w ->
    writes_symbols s = false ->
    running env Unmarshal_meta a (run_step env w s).

(** The timestamps of a state are in order: no entry is newer than the
    data timestamp, and neither timestamp of the cache is ahead of the
    last reading of the clock. *)
Definition stamps_in_order (env : Env) (w : world) : Prop :=
  (forall k e, data (cache w) !! k = Some e ->
               (LastUpdate e <= lastUpdate (cache w))%Z)
  /\ (forall n, (ticks w <= S n)%nat -> (lastUpdate (cache w) <= clock env n)%Z)
  /\ (forall n, (ticks w <= S n)%nat -> (symbolUpdate (cache w) <= clock env n)%Z).

(** ** The read API (main.go)

    [net/http], [encoding/json] and [strings] are libraries of Go. A
    handler is read as a function on the ResponseWriter it is given:
    the header map, the status line once it is written, and the values
    written to the body. [strings.ToUpper], [Time.Unix] and the failure
    of [json.Marshal] on a value stay parameters; writes to the
    connection succeed. *)

Module Api.

(** What a handler writes to the body: the message of [http.Error], or
    the JSON encoding of a value, kept as the value. *)
Inductive payload : Type :=
| Text (msg : string)
| EntryJson (entry : CacheEntry)
| AllJson (entries : gmap string CacheEntry).

Record ResponseWriter : Type := {
  header : gmap string string;
  statusCode : option Z;
  written : list payload
}.

Definition newWriter : ResponseWriter :=
  {| header := ∅; statusCode := None; written := [] |}.

Record Request : Type := {
  Method : string;
  Path : string        (* r.URL.Path *)
}.

Definition StatusBadRequest : Z := 400.
Definition StatusNotFound : Z := 404.
Definition StatusMethodNotAllowed : Z := 405.
Definition StatusInternalServerError : Z := 500.

(** [w.Header().Set(key, value)] *)
Definition Header_Set (key value : string) (w : ResponseWriter) : ResponseWriter :=
  {| header := <[key := value]> (header w); statusCode := statusCode w;
     written := written w |}.

(** [w.WriteHeader(code)]: only the first call counts. *)
Definition WriteHeader (code : Z) (w : ResponseWriter) : ResponseWriter :=
  match statusCode w with
  | Some _ => w
  | None => {| header := header w; statusCode := Some code; written := written w |}
  end.

(** [w.Write]: writes the status 200 first when none was written. *)
Definition Write (p : payload) (w : ResponseWriter) : ResponseWriter :=
  let w := WriteHeader StatusOK w in
  {| header := header w; statusCode := statusCode w; written := written w ++ [p] |}.

(** [http.Error(w, msg, code)] (Go 1.21) *)
Definition Error (msg : string) (code : Z) (w : ResponseWriter) : ResponseWriter :=
  let w := Header_Set "Content-Type" "text/plain; charset=utf-8" w in
  let w := Header_Set "X-Content-Type-Options" "nosniff" w in
  let w := WriteHeader code w in
  Write (Text msg) w.

(** [strings.TrimPrefix(s, prefix)] *)
Fixpoint strip (prefix s : string) : option string :=
  match prefix with
  | EmptyString => Some s
  | String c prefix' =>
      match s with
      | String d s' => if Ascii.eqb c d then strip prefix' s' else None
      | EmptyString => None
      end
  end.

Definition TrimPrefix (s prefix : string) : string :=
  match strip prefix s with
  | Some rest => rest
  | None => s
  end.

(** [strconv.FormatInt(z, 10)] *)
Definition FormatInt (z : Z) : string := NilZero.string_of_int (Z.to_int z).

Definition quote : string := String (ascii_of_nat 34) EmptyString.

Section Handlers.

Variable ToUpper : string -> string.
Variable Unix : Time -> Z.
(** The error [json.Marshal] returns for a value, when it returns one. *)
Variable marshal_error : payload -> option error.

(** generateETag *)
Definition generateETag (t : Time) : string :=
  (quote ++ FormatInt (Unix t) ++ quote)%string.

(** [json.NewEncoder(w).Encode(v)]: the value is marshalled, then
    written; nothing is written when marshalling fails. *)
Definition Encode (p : payload) (w : ResponseWriter) : ResponseWriter * option error :=
  match marshal_error p with
  | Some err => (w, Some err)
  | None => (Write p w, None)
  end.

(** handleGetAllCandles; [c] is the cache when GetAll reads it and [c']
    the cache when GetLastUpdate reads it, after GetAll has returned. *)
Definition handleGetAllCandles (r : Request) (c c' : Cache) (w : ResponseWriter)
    : ResponseWriter :=
  if negb (String.eqb (Method r) "GET")
  then Error "Method not allowed" StatusMethodNotAllowed w
  else
    let allCandles := GetAll c in
    let w := Header_Set "Content-Type" "application/json" w in
    let w := Header_Set "ETag" (generateETag (GetLastUpdate c')) w in
    match Encode (AllJson allCandles) w with
    | (w, Some _) => Error "Internal server error" StatusInternalServerError w
    | (w, None) => w
    end.

(** handleGetSymbolCandles *)
Definition handleGetSymbolCandles (r : Request) (c : Cache) (w : ResponseWriter)
    : ResponseWriter :=
  if negb (String.eqb (Method r) "GET")
  then Error "Method not allowed" StatusMethodNotAllowed w
  else
    let path := TrimPrefix (Path r) "/api/candles/" in
    let symbol := ToUpper path in
    if String.eqb symbol "" then Error "Symbol required" StatusBadRequest w
    else
      let '(entry, exists_) := Get c symbol in
      if negb exists_ then Error "Symbol not found" StatusNotFound w
      else
        let w := Header_Set "Content-Type" "application/json" w in
        let w := Header_Set "ETag" (generateETag (LastUpdate entry)) w in
        match Encode (EntryJson entry) w with
        | (w, Some _) => Error "Internal server error" StatusInternalServerError w
        | (w, None) => w
        end.

End Handlers.

End Api.

(** ** The identifier list up to sharing (cache.go, SetSymbols and GetSymbols)

    The slice of the field [c.symbols] and the slices of its callers,
    read in a heap that holds their arrays. *)
Module SymbolMem.

Abbreviation heap := (gmap Mem.addr (list string)).

Record Cache : Type := {
  symbols : Mem.slice;
  symbolUpdate : Time
}.

(** The strings a slice shows in a heap. *)
Definition contents (h : heap) (s : Mem.slice) : list string :=
  take (Mem.length_ s) (drop (Mem.offset s) (default [] (h !! Mem.array s))).

(** [c.symbols = symbols; c.symbolUpdate = time.Now()] *)
Definition SetSymbols (c : Cache) (syms : Mem.slice) (now : Time) : Cache :=
  {| symbols := syms; symbolUpdate := now |}.

(** [GetSymbols]: [make] allocates an array of [len(c.symbols)] empty
    strings, [copy] fills it from [c.symbols], and the slice of the whole
    new array is returned. *)
Definition GetSymbols (h : heap) (c : Cache) : heap * Mem.slice :=
  let result := fresh (dom h) in
  let n := Mem.length_ (symbols c) in
  (<[result := resize n "" (contents h (symbols c))]> h,
   {| Mem.array := result; Mem.offset := 0; Mem.length_ := n; Mem.capacity := n |}).

(** [s[i] = x]; [None] is the run-time panic "index out of range". *)
Definition assign (s : Mem.slice) (h : heap) (ix : nat * string) : option heap :=
  let '(i, x) := ix in
  if (i <? Mem.length_ s)%nat then
    match h !! Mem.array s with
    | Some elems => Some (<[Mem.array s := <[(Mem.offset s + i)%nat := x]> elems]> h)
    | None => None
    end
  else None.

Fixpoint assign_all (s : Mem.slice) (h : heap) (ixs : list (nat * string)) : option heap :=
  match ixs with
  | [] => Some h
  | ix :: ixs' =>
      match assign s h ix with
      | Some h' => assign_all s h' ixs'
      | None => None
      end
  end.

End SymbolMem.

(** ** Further inputs *)

(** The element of the upstream's payload: the opening and the closing
    time, the coin and the interval, then prices, volume and count. *)
Definition upstream_element_ex : json :=
  JObject [("t", JNumber "1700000000000"); ("T", JNumber "1700003599999");
           ("s", JString "BTC"); ("i", JString "1h");
           ("o", JString "1.5"); ("c", JString "2.5"); ("h", JString "2.5");
           ("l", JString "-3"); ("v", JString "1.5"); ("n", JNumber "42")].

Definition ops_ex : list cache_op :=
  [OpSet "BTC" [candle_ex 1 1.5%float] 10%Z 11%Z;
   OpSetSymbols ["BTC"; "ETH"] 12%Z;
   OpSet "ETH" [] 13%Z 14%Z;
   OpSet "BTC" [candle_ex 2 2.5%float] 15%Z 16%Z].

(** An element that carries the opening time under [t] and, after it, the
    closing time under [T]. *)
Definition members_ex : list (string * json) :=
  [("t", JNumber "1700000000000"); ("T", JNumber "1700003599999");
   ("s", JString "BTC"); ("o", JString "1.5")].

(** The program after a first identifier refresh that found BTC and ETH,
    and after a cycle that followed it. *)
Definition refreshed_ex : SymbolFetcher.SymbolFetcherActor * world :=
  SymbolFetcher.fetchSymbols env_ex Unmarshal_meta_ex universe_reply_ex
    (SymbolFetcher.NewSymbolFetcherActor (3600 * Second)) (world_of NewCache).

Definition cycled_ex : world :=
  match CandleFetcher.fetchAllCandles env_ex actor_ex (snd refreshed_ex) with
  | Done w => w
  | _ => snd refreshed_ex
  end.

(** Stand-ins for the library functions of the read API: upper-casing of
    the ASCII letters, the Unix second of an instant counted from the zero
    time, and an encoder that never fails. *)
Fixpoint ToUpper_ex (s : string) : string :=
  match s with
  | EmptyString => EmptyString
  | String c s' => String (Json.upper c) (ToUpper_ex s')
  end.

Definition Unix_ex (t : Time) : Z := (t / 1000000000 - 62135596800)%Z.

Definition marshal_error_ex (p : Api.payload) : option error := None.

(** A cache that holds an entry under a key with a lower-case letter. *)
Definition api_cache_ex : Cache :=
  apply_ops [OpSet "kPEPE" [candle_ex 1 1.5%float] 1000000000%Z 1000000001%Z;
             OpSet "BTC" [candle_ex 2 2.5%float] 1500000000%Z 1500000001%Z] NewCache.

(** The same keys with other bars, written within the same second. *)
Definition api_cache_later_ex : Cache :=
  apply_ops [OpSet "kPEPE" [] 1700000000%Z 1700000001%Z;
             OpSet "BTC" [] 1800000000%Z 1800000001%Z] NewCache.

Definition get_ex (path : string) : Api.Request :=
  {| Api.Method := "GET"; Api.Path := path |}.

(** A heap in which the identifier list of the cache is the slice of a
    whole array of two strings. *)
Definition symbol_heap_ex : SymbolMem.heap := {[ 0%nat := ["BTC"; "ETH"] ]}.

Definition symbol_slice_ex : Mem.slice :=
  {| Mem.array := 0%nat; Mem.offset := 0%nat; Mem.length_ := 2%nat; Mem.capacity := 2%nat |}.

Definition symbol_cache_ex : SymbolMem.Cache :=
  {| SymbolMem.symbols := symbol_slice_ex; SymbolMem.symbolUpdate := 50%Z |}.

(** * Properties *)

(** ** Machine integers *)

Lemma wrap64_in_range z : Int64.in_range z -> Int64.wrap64 z = z.
Proof.
  unfold Int64.in_range, Int64.min_int, Int64.max_int, Int64.wrap64.
  intros Hz. rewrite Z.mod_small; lia.
Qed.

Lemma wrap64_range z : Int64.in_range (Int64.wrap64 z).
Proof.
  unfold Int64.in_range, Int64.min_int, Int64.max_int, Int64.wrap64.
  pose proof (Z.mod_pos_bound (z + 2 ^ 63) (2 ^ 64) ltac:(lia)). lia.
Qed.

Lemma wrap64_sub_wrap x y : Int64.wrap64 (Int64.wrap64 x - y) = Int64.wrap64 (x - y).
Proof.
  unfold Int64.wrap64. f_equal.
  replace ((x + 2 ^ 63) mod 2 ^ 64 - 2 ^ 63 - y + 2 ^ 63)%Z
    with ((x + 2 ^ 63) mod 2 ^ 64 - y)%Z by lia.
  rewrite Zminus_mod_idemp_l. f_equal. lia.
Qed.

Lemma add_in_range x y :
  (Int64.min_int <= x + y <= Int64.max_int)%Z -> Int64.add x y = (x + y)%Z.
Proof. intros. now apply wrap64_in_range. Qed.

Lemma sub_in_range x y :
  (Int64.min_int <= x - y <= Int64.max_int)%Z -> Int64.sub x y = (x - y)%Z.
Proof. intros. now apply wrap64_in_range. Qed.

Lemma quot_in_range x y :
  (0 <= x <= Int64.max_int)%Z -> (0 < y)%Z -> Int64.quot x y = (x / y)%Z.
Proof.
  intros Hx Hy. unfold Int64.quot. rewrite Z.quot_div_nonneg by lia.
  apply wrap64_in_range. unfold Int64.in_range, Int64.min_int, Int64.max_int in *.
  pose proof (Z.div_pos x y ltac:(lia) Hy).
  assert (x / y <= x)%Z by (apply Z.div_le_upper_bound; nia). lia.
Qed.

(** ** Retry wrapper *)

Section RetryFacts.

Context {W : Type}.
Variable fetch : W -> result (list Candle) * W.

Lemma backoff_0 : backoff 0 = (1 * Second)%Z.
Proof. reflexivity. Qed.

Lemma backoff_1 : backoff 1 = (2 * Second)%Z.
Proof. reflexivity. Qed.

(** The loop returns from every state when given the fuel
    [FetchCandlesWithRetry] gives it. *)
Lemma retry_loop_returns fuel maxRetries attempt lastErr w tr :
  (0 <= attempt)%Z -> (maxRetries <= Int64.max_int)%Z ->
  (maxRetries - attempt <= Z.of_nat fuel)%Z ->
  exists r w' tr',
    retry_loop fetch fuel maxRetries attempt lastErr w tr = Done (r, w', tr').
Proof.
  revert attempt lastErr w tr.
  induction fuel as [|fuel IH]; intros attempt lastErr w tr Ha Hm Hf; cbn [retry_loop].
  - destruct (Z.ltb_spec attempt maxRetries); [lia | eauto].
  - destruct (Z.ltb_spec attempt maxRetries) as [Hlt|]; [| eauto].
    destruct (fetch w) as [[candles|err] w']; [eauto |].
    apply IH; try lia.
    + rewrite add_in_range; unfold Int64.min_int, Int64.max_int in *; lia.
    + rewrite add_in_range; unfold Int64.min_int, Int64.max_int in *; lia.
Qed.

Lemma FetchCandlesWithRetry_returns maxRetries w :
  (maxRetries <= Int64.max_int)%Z ->
  exists r w' tr, FetchCandlesWithRetry fetch maxRetries w = Done (r, w', tr).
Proof.
  intros Hm. unfold FetchCandlesWithRetry.
  apply retry_loop_returns; lia.
Qed.

End RetryFacts.

(** C2: with maxRetries = 3, a fetch that fails twice and then succeeds
    makes the wrapper return the success after three attempts and exactly
    two sleeps, of 1 and 2 seconds (2^attempt seconds after failed attempt
    0 and 1); a fetch that fails at each of the three attempts makes it
    return, after exactly three attempts and the same two sleeps (none
    after the last attempt), the error that wraps the error of the last
    attempt, and no success. *)
Theorem C2_retry_backoff {W : Type} (fetch : W -> result (list Candle) * W) :
  (forall w0 w1 w2 w3 e1 e2 candles,
      fetch w0 = (Err e1, w1) ->
      fetch w1 = (Err e2, w2) ->
      fetch w2 = (Ok candles, w3) ->
      exists tr,
        FetchCandlesWithRetry fetch 3 w0 = Done (Ok candles, w3, tr)
        /\ attempts tr = 3%nat
        /\ sleeps tr = [(2 ^ 0 * Second)%Z; (2 ^ 1 * Second)%Z]
        /\ tr = [Attempted; Slept (1 * Second); Attempted; Slept (2 * Second); Attempted])
  /\
  (forall w0 w1 w2 w3 e1 e2 e3,
      fetch w0 = (Err e1, w1) ->
      fetch w1 = (Err e2, w2) ->
      fetch w2 = (Err e3, w3) ->
      exists tr,
        FetchCandlesWithRetry fetch 3 w0 = Done (Err (ErrAfterRetries 3 (Some e3)), w3, tr)
        /\ attempts tr = 3%nat
        /\ sleeps tr = [(2 ^ 0 * Second)%Z; (2 ^ 1 * Second)%Z]
        /\ tr = [Attempted; Slept (1 * Second); Attempted; Slept (2 * Second); Attempted]).
Proof.
  split; intros w0 w1 w2 w3 e1 e2 x H0 H1 H2;
    eexists; (split; [| split; [| split; [| reflexivity]]]).
  - unfold FetchCandlesWithRetry. change (Z.to_nat 3) with 3%nat.
    cbn [retry_loop]. change (0 <? 3)%Z with true. cbn iota. rewrite H0.
    change (Int64.add 0 1) with 1%Z. change (0 <? Int64.sub 3 1)%Z with true.
    change (1 <? 3)%Z with true. cbn iota. rewrite H1.
    change (Int64.add 1 1) with 2%Z. change (1 <? Int64.sub 3 1)%Z with true.
    change (2 <? 3)%Z with true. cbn iota. rewrite H2.
    reflexivity.
  - reflexivity.
  - reflexivity.
  - unfold FetchCandlesWithRetry. change (Z.to_nat 3) with 3%nat.
    cbn [retry_loop]. change (0 <? 3)%Z with true. cbn iota. rewrite H0.
    change (Int64.add 0 1) with 1%Z. change (0 <? Int64.sub 3 1)%Z with true.
    change (1 <? 3)%Z with true. cbn iota. rewrite H1.
    change (Int64.add 1 1) with 2%Z. change (1 <? Int64.sub 3 1)%Z with true.
    change (2 <? 3)%Z with true. cbn iota. rewrite H2.
    change (Int64.add 2 1) with 3%Z. change (2 <? Int64.sub 3 1)%Z with false.
    change (3 <? 3)%Z with false. cbn iota.
    reflexivity.
  - reflexivity.
  - reflexivity.
Qed.

(** C10: for maxRetries <= 0 the wrapper makes no attempt and no sleep,
    leaves the upstream as it was, and returns the error that wraps a nil
    error. *)
Theorem C10_no_attempts {W : Type} (fetch : W -> result (list Candle) * W)
    (maxRetries : Z) (w : W) :
  (maxRetries <= 0)%Z ->
  exists tr,
    FetchCandlesWithRetry fetch maxRetries w
      = Done (Err (ErrAfterRetries maxRetries None), w, tr)
    /\ attempts tr = 0%nat
    /\ sleeps tr = [].
Proof.
  intros Hm. exists []. split; [| split; reflexivity].
  unfold FetchCandlesWithRetry.
  destruct (Z.to_nat maxRetries); cbn [retry_loop];
    destruct (Z.ltb_spec 0 maxRetries); (lia || reflexivity).
Qed.

(** ** Batch refresh orchestrator *)

Import CandleFetcher.

Lemma chunk_fuel_concat {A} fuel B (l : list A) :
  (0 < B)%nat -> (length l <= fuel)%nat -> concat (chunk_fuel fuel B l) = l.
Proof.
  intros HB. revert l. induction fuel as [|fuel IH]; intros l Hl.
  - destruct l; [done | simpl in Hl; lia].
  - destruct l as [|x l]; [done |].
    cbn [chunk_fuel concat]. rewrite IH.
    + apply take_drop.
    + rewrite length_drop. simpl in *. lia.
Qed.


Lemma chunk_fuel_lookup {A} fuel B (l : list A) j :
  (0 < B)%nat -> (length l <= fuel)%nat -> (j * B < length l)%nat ->
  chunk_fuel fuel B l !! j = Some (take B (drop (j * B) l)).
Proof.
  intros HB. revert l j. induction fuel as [|fuel IH]; intros l j Hl Hj.
  - lia.
  - destruct l as [|x l]; [simpl in Hj; lia |].
    cbn [chunk_fuel]. destruct j as [|j].
    + reflexivity.
    + cbn [lookup list_lookup]. change (chunk_fuel fuel B (drop B (x :: l)) !! j = Some (take B (drop (S j * B) (x :: l)))).
      rewrite IH.
      * rewrite drop_drop. reflexivity.
      * rewrite length_drop. simpl in *. lia.
      * rewrite length_drop. simpl in *. lia.
Qed.

Lemma chunk_fuel_count {A} fuel B (l : list A) :
  (0 < B)%nat -> (length l <= fuel)%nat ->
  (length (chunk_fuel fuel B l) * B < length l + B /\ length l <= length (chunk_fuel fuel B l) * B)%nat.
Proof.
  intros HB. revert l. induction fuel as [|fuel IH]; intros l Hl.
  - destruct l; simpl in *; lia.
  - destruct l as [|x l]; [simpl; lia |].
    cbn [chunk_fuel length].
    destruct (decide (length (x :: l) <= B)%nat) as [Hle|Hgt].
    + rewrite drop_ge by done. destruct fuel; cbn [chunk_fuel length] in *; lia.
    + specialize (IH (drop B (x :: l))). rewrite length_drop in IH.
      cbn [length] in *. destruct IH as [IH1 IH2]; [lia |].
      rewrite Nat.mul_succ_l. lia.
Qed.

Lemma slice_batch {A} (s : list A) (lo B : Z) :
  (0 <= lo < len s)%Z -> (0 < B)%Z ->
  slice s lo (if (lo + B >? len s)%Z then len s else (lo + B)%Z)
  = Some (take (Z.to_nat B) (drop (Z.to_nat lo) s)).
Proof.
  intros Hlo HB. unfold slice, len in *.
  destruct (Z.gtb_spec (lo + B) (Z.of_nat (length s))) as [Hgt|Hle].
  - replace ((0 <=? lo)%Z && (lo <=? Z.of_nat (length s))%Z
             && (Z.of_nat (length s) <=? Z.of_nat (length s))%Z) with true
      by (symmetry; rewrite !andb_true_iff, !Z.leb_le; lia).
    f_equal. rewrite !take_ge; [done | |]; rewrite length_drop; lia.
  - replace ((0 <=? lo)%Z && (lo <=? lo + B)%Z
             && (lo + B <=? Z.of_nat (length s))%Z) with true
      by (symmetry; rewrite !andb_true_iff, !Z.leb_le; lia).
    do 2 f_equal. lia.
Qed.

Section Orchestrator.

Variable env : Env.
Variable a : CandleFetcherActor.

Local Abbreviation job := (CandleFetcher.job env a).
Local Abbreviation jobs := (CandleFetcher.jobs env a).
Local Abbreviation apply_writes := (CandleFetcher.apply_writes env).
Local Abbreviation window := (CandleFetcher.window env a).

Lemma fetch_with_retry_returns i sym st et :
  exists r n tr, fetch_with_retry env a i sym st et = Done (r, n, tr).
Proof.
  unfold fetch_with_retry. apply FetchCandlesWithRetry_returns.
  unfold Int64.max_int. lia.
Qed.

Lemma goroutine_done i sym st et :
  goroutine env a i sym st et = Done (job i sym st et).
Proof.
  unfold job, goroutine.
  destruct (fetch_with_retry_returns i sym st et) as (r & n & tr & ->).
  cbn. destruct r; reflexivity.
Qed.

Lemma job_failed i sym st et e n tr :
  fetch_with_retry env a i sym st et = Done (Err e, n, tr) ->
  job i sym st et = {| res_symbol := sym; res_candles := []; res_err := Some e |}.
Proof. unfold job, goroutine. intros ->. reflexivity. Qed.

Lemma job_succeeded i sym st et bars n tr :
  fetch_with_retry env a i sym st et = Done (Ok bars, n, tr) ->
  job i sym st et = {| res_symbol := sym; res_candles := bars; res_err := None |}.
Proof. unfold job, goroutine. intros ->. reflexivity. Qed.

Lemma job_symbol i sym st et : res_symbol (job i sym st et) = sym.
Proof.
  unfold job, goroutine.
  destruct (fetch_with_retry_returns i sym st et) as (r & n & tr & ->).
  cbn. destruct r; reflexivity.
Qed.

Lemma launch_done i batch st et :
  launch env a i batch st et = Done (jobs i batch st et).
Proof.
  unfold jobs. revert i. induction batch as [|sym batch IH]; intros i; [done |].
  cbn [launch imap]. rewrite goroutine_done. cbn [and_then]. rewrite IH. cbn [and_then].
  rewrite Nat.add_0_r. do 2 f_equal. apply imap_ext. intros k x _. cbn. f_equal. lia.
Qed.

Lemma store_result_eq res sc w :
  (0 <= sc)%Z -> (sc + 1 <= Int64.max_int)%Z ->
  store_result env res sc w
  = ((sc + Z.of_nat (count_ok [res]))%Z,
     {| cache := apply_writes (ticks w) [res] (cache w);
        ticks := S (S (ticks w));
        recvs := recvs w;
        trace := trace w ++ events_of res |}).
Proof.
  intros H0 H1. cbn [apply_writes].
  unfold store_result, count_ok, events_of, stored, succeeded.
  cbn [filter list_filter].
  destruct (res_err res) as [err|]; cbn.
  - unfold cache_Set, log, emit, Now; cbn. rewrite <- app_assoc, Z.add_0_r. reflexivity.
  - unfold cache_Set, log, emit, Now; cbn.
    rewrite add_in_range by (unfold Int64.min_int, Int64.max_int in *; lia).
    reflexivity.
Qed.

Lemma apply_writes_app t o1 o2 c :
  apply_writes t (o1 ++ o2) c
  = apply_writes (t + 2 * length o1) o2 (apply_writes t o1 c).
Proof.
  revert t c. induction o1 as [|r o1 IH]; intros t c; cbn [app apply_writes length].
  - f_equal. lia.
  - rewrite IH. f_equal. lia.
Qed.

Lemma count_ok_cons r rs : count_ok (r :: rs) = (count_ok [r] + count_ok rs)%nat.
Proof.
  unfold count_ok. cbn [filter list_filter].
  destruct (decide (succeeded r = true)); reflexivity.
Qed.

Lemma count_ok_app' rs1 rs2 : count_ok (rs1 ++ rs2) = (count_ok rs1 + count_ok rs2)%nat.
Proof. unfold count_ok. rewrite filter_app, length_app. reflexivity. Qed.

Lemma count_ok_le rs : (count_ok rs <= length rs)%nat.
Proof. unfold count_ok. apply length_filter. Qed.

Lemma receive_spec inflight w :
  inflight <> [] ->
  let k := (arrival env (recvs w) mod length inflight)%nat in
  exists res,
    inflight !! k = Some res
    /\ receive env inflight w
       = Some (res, delete k inflight,
               {| cache := cache w; ticks := ticks w; recvs := S (recvs w);
                  trace := trace w |}).
Proof.
  intros Hne k.
  assert (Hk : (k < length inflight)%nat).
  { apply Nat.mod_upper_bound. destruct inflight; [done | cbn; lia]. }
  destruct (lookup_lt_is_Some_2 _ _ Hk) as [res Hres].
  exists res. split; [done |].
  destruct inflight as [|r0 rest]; [done |].
  unfold receive. fold k. rewrite Hres. reflexivity.
Qed.

(** The results of a batch are stored one by one in the order in which
    they arrive, which is some permutation of the messages in flight. *)
Lemma collect_spec n inflight sc w :
  length inflight = n ->
  (0 <= sc)%Z -> (sc + Z.of_nat n <= Int64.max_int)%Z ->
  exists order,
    order ≡ₚ inflight
    /\ collect env n inflight sc w
       = Some ((sc + Z.of_nat (count_ok order))%Z,
               {| cache := apply_writes (ticks w) order (cache w);
                  ticks := ticks w + 2 * n;
                  recvs := recvs w + n;
                  trace := trace w ++ flat_map events_of order |}).
Proof.
  revert inflight sc w. induction n as [|n IH]; intros inflight sc w Hlen H0 H1.
  - destruct inflight; [| done]. exists []. split; [done |].
    cbn. rewrite Z.add_0_r, !Nat.add_0_r, app_nil_r. destruct w; reflexivity.
  - destruct (receive_spec inflight w) as (res & Hres & Hrecv).
    { destruct inflight; done. }
    cbn [collect]. rewrite Hrecv.
    rewrite store_result_eq by lia. cbn [ticks cache recvs trace].
    pose proof (count_ok_le [res]) as Hc. cbn [length] in Hc.
    destruct (IH (delete (arrival env (recvs w) mod length inflight) inflight)
                (sc + Z.of_nat (count_ok [res]))%Z
                {| cache := apply_writes (ticks w) [res] (cache w);
                   ticks := S (S (ticks w)); recvs := S (recvs w);
                   trace := trace w ++ events_of res |})
      as (order & Hperm & Heq).
    + rewrite length_delete by eauto. lia.
    + lia.
    + lia.
    + exists (res :: order). split.
      * rewrite Hperm. symmetry. by apply delete_Permutation.
      * rewrite Heq. cbn [ticks cache recvs trace flat_map].
        rewrite (count_ok_cons res order). f_equal. f_equal; [lia |].
        f_equal; [lia | lia |]. rewrite <- app_assoc. reflexivity.
Qed.

Lemma batches_of_app t1 t2 : batches_of (t1 ++ t2) = batches_of t1 ++ batches_of t2.
Proof. unfold batches_of. apply omap_app. Qed.

Lemma series_writes_of_app t1 t2 :
  series_writes_of (t1 ++ t2) = series_writes_of t1 ++ series_writes_of t2.
Proof. unfold series_writes_of. apply omap_app. Qed.

Lemma progress_of_app t1 t2 : progress_of (t1 ++ t2) = progress_of t1 ++ progress_of t2.
Proof. unfold progress_of. apply omap_app. Qed.

Lemma progress_of_events order : progress_of (flat_map events_of order) = [].
Proof.
  induction order as [|r order IH]; [done |].
  cbn [flat_map]. rewrite progress_of_app, IH.
  unfold events_of. destruct (res_err r); reflexivity.
Qed.

Lemma batches_of_events order : batches_of (flat_map events_of order) = [].
Proof.
  induction order as [|r order IH]; [done |].
  cbn [flat_map]. rewrite batches_of_app, IH.
  unfold events_of. destruct (res_err r); reflexivity.
Qed.

Lemma series_writes_of_events order :
  series_writes_of (flat_map events_of order) = map write_of order.
Proof.
  induction order as [|r order IH]; [done |].
  cbn [flat_map map]. rewrite series_writes_of_app, IH.
  unfold events_of, write_of, stored. destruct (res_err r); reflexivity.
Qed.

(** One batch: every goroutine returns, every message is received, and
    the results are stored in some order of arrival. *)
Lemma process_batch_spec st et total cur i batch sc w :
  (0 <= sc)%Z -> (sc + len batch <= Int64.max_int)%Z ->
  exists order w',
    order ≡ₚ jobs i batch st et
    /\ process_batch env a st et total cur i batch sc w
       = Done ((sc + Z.of_nat (count_ok order))%Z, w')
    /\ cache w' = apply_writes (ticks w) order (cache w)
    /\ ticks w' = (ticks w + 2 * length order)%nat
    /\ batches_of (trace w') = batches_of (trace w) ++ [batch]
    /\ series_writes_of (trace w')
       = series_writes_of (trace w) ++ map write_of order
    /\ progress_of (trace w')
       = progress_of (trace w) ++ [(cur, total, len batch)].
Proof.
  intros H0 H1. unfold process_batch. rewrite launch_done. cbn [and_then].
  set (w1 := emit (FanOut batch) (log (LogFetchingBatch cur total (len batch)) w)).
  assert (Hlen : length (jobs i batch st et) = length batch)
    by (unfold jobs; apply length_imap).
  destruct (collect_spec (length batch) (jobs i batch st et) sc w1 Hlen H0 H1)
    as (order & Hperm & ->).
  assert (Hlo : length order = length batch) by (rewrite Hperm; done).
  exists order.
  assert (Hb : batches_of (trace w1 ++ flat_map events_of order)
               = batches_of (trace w) ++ [batch]).
  { rewrite batches_of_app, batches_of_events, app_nil_r. subst w1. cbn.
    rewrite <- app_assoc, batches_of_app. reflexivity. }
  assert (Hs : series_writes_of (trace w1 ++ flat_map events_of order)
               = series_writes_of (trace w) ++ map write_of order).
  { rewrite series_writes_of_app, series_writes_of_events. subst w1. cbn.
    rewrite <- app_assoc, series_writes_of_app. cbn. rewrite app_nil_r. reflexivity. }
  assert (Hg : progress_of (trace w1 ++ flat_map events_of order)
               = progress_of (trace w) ++ [(cur, total, len batch)]).
  { rewrite progress_of_app, progress_of_events, app_nil_r. subst w1. cbn.
    rewrite <- app_assoc, progress_of_app. reflexivity. }
  destruct (cur <? total)%Z; eexists; (split; [exact Hperm |]);
    (split; [reflexivity |]); cbn [cache ticks trace emit];
    rewrite Hlo; repeat split; try done.
  - rewrite batches_of_app, Hb. cbn. apply app_nil_r.
  - rewrite series_writes_of_app, Hs. cbn. apply app_nil_r.
  - rewrite progress_of_app, Hg. cbn. apply app_nil_r.
Qed.

Lemma jobs_app i l1 l2 st et :
  jobs i (l1 ++ l2) st et = jobs i l1 st et ++ jobs (i + length l1) l2 st et.
Proof.
  unfold jobs. rewrite imap_app. f_equal. apply imap_ext. intros k x _. cbn.
  f_equal. lia.
Qed.

Lemma length_jobs i l st et : length (jobs i l st et) = length l.
Proof. unfold jobs. apply length_imap. Qed.

Section Loop.

Variable syms : list string.
Variables st et total : Z.

Hypothesis HB : (0 < batchSize a <= Int64.max_int)%Z.
Hypothesis Hn : (len syms < 2 ^ 62)%Z.

Lemma batch_loop_spec fuel batchIdx sc w :
  (0 <= batchIdx <= Int64.max_int)%Z ->
  ((batchIdx < len syms)%Z -> (batchIdx + batchSize a <= Int64.max_int)%Z) ->
  (len syms - batchIdx <= Z.of_nat fuel)%Z ->
  (0 <= sc)%Z ->
  (sc + len (drop (Z.to_nat batchIdx) syms) <= Int64.max_int)%Z ->
  exists order w',
    order ≡ₚ jobs (Z.to_nat batchIdx) (drop (Z.to_nat batchIdx) syms) st et
    /\ batch_loop env a fuel syms st et total batchIdx sc w
       = Done ((sc + Z.of_nat (count_ok order))%Z, w')
    /\ cache w' = apply_writes (ticks w) order (cache w)
    /\ ticks w' = (ticks w + 2 * length order)%nat
    /\ batches_of (trace w')
       = batches_of (trace w)
         ++ chunk_fuel fuel (Z.to_nat (batchSize a)) (drop (Z.to_nat batchIdx) syms)
    /\ series_writes_of (trace w')
       = series_writes_of (trace w) ++ map write_of order
    /\ progress_of (trace w')
       = progress_of (trace w)
         ++ imap (fun j b => ((batchIdx / batchSize a + Z.of_nat j + 1)%Z, total, len b))
              (chunk_fuel fuel (Z.to_nat (batchSize a)) (drop (Z.to_nat batchIdx) syms)).
Proof.
  revert batchIdx sc w.
  induction fuel as [|fuel IH]; intros batchIdx sc w Hidx Hov Hfuel Hsc0 Hsc1;
    cbn [batch_loop].
  - destruct (Z.ltb_spec batchIdx (len syms)); [lia |].
    rewrite drop_ge by (unfold len in *; lia).
    exists [], w. cbn. rewrite Z.add_0_r, !app_nil_r, Nat.add_0_r. done.
  - destruct (Z.ltb_spec batchIdx (len syms)) as [Hlt|Hge].
    2:{ rewrite drop_ge by (unfold len in *; lia).
        exists [], w. cbn. rewrite Z.add_0_r, !app_nil_r, Nat.add_0_r. done. }
    specialize (Hov Hlt).
    rewrite add_in_range by (unfold Int64.min_int; lia).
    rewrite slice_batch by lia.
    destruct (Z.eqb_spec (batchSize a) 0) as [|_]; [lia |].
    set (rest := drop (Z.to_nat batchIdx) syms) in *.
    set (Bn := Z.to_nat (batchSize a)).
    assert (Hrest : length rest = (length syms - Z.to_nat batchIdx)%nat)
      by (subst rest; apply length_drop).
    assert (Hsplit : rest = take Bn rest ++ drop Bn rest)
      by (symmetry; apply take_drop).
    assert (Hlt' : (length (take Bn rest) <= length rest)%nat)
      by (rewrite length_take; lia).
    destruct (process_batch_spec st et total
                (Int64.add (Int64.quot batchIdx (batchSize a)) 1)
                (Z.to_nat batchIdx) (take Bn rest) sc w)
      as (o1 & w1 & Hp1 & -> & Hc1 & Ht1 & Hb1 & Hs1 & Hg1); [lia | |].
    { unfold len in *. lia. }
    cbn [and_then fst snd].
    assert (Ho1 : length o1 = length (take Bn rest))
      by (rewrite Hp1; apply length_jobs).
    pose proof (count_ok_le o1) as Hcnt.
    assert (Hdrop : drop (Z.to_nat (batchIdx + batchSize a)) syms = drop Bn rest).
    { subst rest Bn. rewrite drop_drop. f_equal. lia. }
    destruct (IH (batchIdx + batchSize a)%Z (sc + Z.of_nat (count_ok o1))%Z w1)
      as (o2 & w2 & Hp2 & -> & Hc2 & Ht2 & Hb2 & Hs2 & Hg2).
    + lia.
    + intros Hlt2. unfold Int64.max_int in *. lia.
    + lia.
    + lia.
    + rewrite Hdrop. unfold len in *. rewrite length_drop.
      rewrite length_take in *. lia.
    + rewrite Hdrop in *.
      exists (o1 ++ o2), w2. split; [| split; [| split; [| split; [| split; [| split]]]]].
      * rewrite Hsplit at 1. rewrite jobs_app, Hp1, Hp2.
        destruct (decide (Bn <= length rest)%nat) as [Hfull|Hshort].
        -- rewrite length_take, Nat.min_l by done.
           replace (Z.to_nat (batchIdx + batchSize a))
             with (Z.to_nat batchIdx + Bn)%nat by (subst Bn; lia).
           reflexivity.
        -- rewrite (drop_ge rest Bn) by lia. reflexivity.
      * rewrite count_ok_app'. do 2 f_equal. lia.
      * rewrite Hc2, Hc1, Ht1, apply_writes_app. reflexivity.
      * rewrite Ht2, Ht1, length_app. lia.
      * rewrite Hb2, Hb1, <- app_assoc. f_equal.
        destruct rest as [|x rest'] eqn:Erest; [cbn in Hrest; unfold len in *; lia |].
        reflexivity.
      * rewrite Hs2, Hs1, map_app, <- app_assoc. reflexivity.
      * rewrite Hg2, Hg1, <- app_assoc. f_equal.
        destruct rest as [|x rest'] eqn:Erest; [cbn in Hrest; unfold len in *; lia |].
        cbn [chunk_fuel imap app]. f_equal.
        -- rewrite quot_in_range by lia.
           rewrite add_in_range; [f_equal; f_equal; lia |].
           assert (batchIdx / batchSize a <= batchIdx)%Z
             by (apply Z.div_le_upper_bound; nia).
           pose proof (Z.div_pos batchIdx (batchSize a)).
           unfold Int64.min_int, Int64.max_int in *. lia.
        -- apply imap_ext. intros j b _. cbn.
           replace (batchIdx + batchSize a)%Z with (1 * batchSize a + batchIdx)%Z by lia.
           rewrite Z.div_add_l by lia. f_equal. f_equal. lia.
Qed.

End Loop.

Lemma fetchAllCandles_spec w :
  GetSymbols (cache w) <> [] ->
  (0 < batchSize a <= Int64.max_int)%Z ->
  (len (GetSymbols (cache w)) < 2 ^ 62)%Z ->
  exists order w',
    order ≡ₚ jobs 0 (GetSymbols (cache w)) (fst (window w)) (snd (window w))
    /\ fetchAllCandles env a w = Done w'
    /\ cache w' = apply_writes (S (S (ticks w))) order (cache w)
    /\ batches_of (trace w')
       = batches_of (trace w)
         ++ chunks (Z.to_nat (batchSize a)) (GetSymbols (cache w))
    /\ series_writes_of (trace w')
       = series_writes_of (trace w) ++ map write_of order
    /\ last (trace w')
       = Some (Logged (LogCached (Z.of_nat (count_ok order))
                         (len (GetSymbols (cache w)))))
    /\ progress_of (trace w')
       = progress_of (trace w)
         ++ imap (fun j b =>
                    ((Z.of_nat j + 1)%Z,
                     Int64.quot (Int64.sub (Int64.add (len (GetSymbols (cache w)))
                                              (batchSize a)) 1) (batchSize a),
                     len b))
              (chunks (Z.to_nat (batchSize a)) (GetSymbols (cache w))).
Proof.
  intros Hne HB Hn. unfold fetchAllCandles, window.
  set (syms := GetSymbols (cache w)) in *.
  destruct (Z.eqb_spec (len syms) 0) as [H0|_].
  { destruct syms; [done | unfold len in H0; cbn in H0; lia]. }
  destruct (Z.eqb_spec (batchSize a) 0) as [|_]; [lia |].
  unfold time_range, Now. cbn [ticks cache recvs trace log emit fst snd].
  match goal with
  | |- context [batch_loop env a ?f syms ?st ?et ?tot 0 0 ?w0] =>
      destruct (batch_loop_spec syms st et tot HB Hn f 0%Z 0%Z w0)
        as (order & w' & Hp & Hrun & Hc & Ht & Hb & Hs & Hg)
  end.
  - unfold Int64.max_int. lia.
  - intros _. lia.
  - unfold len. lia.
  - lia.
  - change (Z.to_nat 0) with 0%nat. rewrite drop_0.
    unfold len, Int64.max_int in *. lia.
  - cbn [Z.to_nat drop] in *. change (Z.to_nat 0) with 0%nat in *. cbn [drop] in *.
    rewrite Hrun. cbn [and_then]. exists order. eexists.
    split; [exact Hp |]. split; [reflexivity |].
    cbn [cache ticks trace log emit] in *.
    split; [exact Hc |]. split; [| split; [| split]].
    + rewrite !batches_of_app, Hb, batches_of_app. cbn. rewrite !app_nil_r. reflexivity.
    + rewrite !series_writes_of_app, Hs, series_writes_of_app. cbn.
      rewrite !app_nil_r. reflexivity.
    + rewrite last_snoc. reflexivity.
    + rewrite !progress_of_app, Hg, progress_of_app. cbn. rewrite !app_nil_r.
      reflexivity.
Qed.

(** Storing results one after the other: the last one stored under a
    key decides what the key holds. *)
Lemma apply_writes_lookup X v t order c :
  (forall r, r ∈ order -> res_symbol r = X -> stored r = v) ->
  (exists r, r ∈ order /\ res_symbol r = X)
  \/ (exists e, data c !! X = Some e /\ Candles e = v) ->
  exists e, data (apply_writes t order c) !! X = Some e /\ Candles e = v.
Proof.
  revert t c. induction order as [|r order IH]; intros t c Hall Hex.
  - destruct Hex as [(r & Hr & _)|Hq]; [by apply elem_of_nil in Hr | exact Hq].
  - cbn [apply_writes]. apply IH.
    + intros r' Hr'. apply Hall. by right.
    + destruct (decide (res_symbol r = X)) as [Heq|Hne].
      * right. unfold Set_. cbn [data]. rewrite Heq, lookup_insert_eq.
        eexists. split; [reflexivity |]. cbn. apply Hall; [by left | done].
      * destruct Hex as [(r' & Hr' & Hsym)|Hq].
        -- left. exists r'. split; [| done].
           apply elem_of_cons in Hr' as [->|Hr']; [done | exact Hr'].
        -- right. unfold Set_. cbn [data]. by rewrite lookup_insert_ne.
Qed.

Lemma apply_writes_frame X t order c :
  (forall r, r ∈ order -> res_symbol r <> X) ->
  data (apply_writes t order c) !! X = data c !! X.
Proof.
  revert t c. induction order as [|r order IH]; intros t c Hall; [done |].
  cbn [apply_writes]. rewrite IH.
  - unfold Set_. cbn [data]. apply lookup_insert_ne. apply Hall. by left.
  - intros r' Hr'. apply Hall. by right.
Qed.

Lemma apply_writes_symbols t order c :
  symbols (apply_writes t order c) = symbols c
  /\ symbolUpdate (apply_writes t order c) = symbolUpdate c.
Proof.
  revert t c. induction order as [|r order IH]; intros t c; [done |].
  cbn [apply_writes]. destruct (IH (S (S t)) (Set_ c (res_symbol r) (stored r)
    (clock env t) (clock env (S t)))) as [-> ->]. done.
Qed.

Lemma elem_of_jobs r i l st et :
  r ∈ jobs i l st et <-> exists k sym, l !! k = Some sym /\ r = job (i + k) sym st et.
Proof.
  unfold jobs. rewrite elem_of_lookup_imap. split.
  - intros (k & sym & -> & Hk). eauto.
  - intros (k & sym & Hk & ->). eauto.
Qed.

End Orchestrator.

(** C1: a refresh cycle over a non-empty identifier list returns; every
    result of its goroutines is received once, in the order of arrival,
    whatever that order is; a result that is a terminal failure is stored
    as an empty bar sequence under its key and is not counted, a success
    is stored with its bars and counted. So after the cycle a key all of
    whose fetches failed terminally holds an empty sequence, and a key
    whose fetches succeeded with some bars holds exactly those bars. *)
Theorem C1_failure_to_empty (env : Env) (a : CandleFetcherActor) (w : world) :
  GetSymbols (cache w) <> [] ->
  (0 < batchSize a <= Int64.max_int)%Z ->
  (len (GetSymbols (cache w)) < 2 ^ 62)%Z ->
  exists order w',
    fetchAllCandles env a w = Done w'
    /\ order ≡ₚ jobs env a 0 (GetSymbols (cache w))
                 (fst (window env a w)) (snd (window env a w))
    /\ series_writes_of (trace w')
       = series_writes_of (trace w) ++ map write_of order
    /\ last (trace w')
       = Some (Logged (LogCached (Z.of_nat (count_ok order))
                         (len (GetSymbols (cache w)))))
    /\ forall X, X ∈ GetSymbols (cache w) ->
         ((forall i, GetSymbols (cache w) !! i = Some X ->
             exists e n tr,
               fetch_with_retry env a i X (fst (window env a w)) (snd (window env a w))
               = Done (Err e, n, tr)) ->
          exists entry, Get (cache w') X = (entry, true) /\ Candles entry = [])
         /\
         (forall bars,
            (forall i, GetSymbols (cache w) !! i = Some X ->
               exists n tr,
                 fetch_with_retry env a i X (fst (window env a w)) (snd (window env a w))
                 = Done (Ok bars, n, tr)) ->
            exists entry, Get (cache w') X = (entry, true) /\ Candles entry = bars).
Proof.
  intros Hne HB Hn.
  destruct (fetchAllCandles_spec env a w Hne HB Hn)
    as (order & w' & Hperm & Hrun & Hcache & _ & Hwrites & Hlast & _).
  exists order, w'. repeat (split; [done |]).
  intros X HX.
  assert (Hin : exists r, r ∈ order /\ res_symbol r = X).
  { apply list_elem_of_lookup in HX as [k Hk].
    exists (job env a (0 + k) X (fst (window env a w)) (snd (window env a w))).
    split; [| apply job_symbol].
    rewrite Hperm. apply elem_of_jobs. eauto. }
  assert (Hfound : forall v,
    (forall r, r ∈ order -> res_symbol r = X -> stored r = v) ->
    exists entry, Get (cache w') X = (entry, true) /\ Candles entry = v).
  { intros v Hall.
    destruct (apply_writes_lookup env X v (S (S (ticks w))) order (cache w) Hall)
      as (e & He & Hv); [by left |].
    exists e. unfold Get. rewrite Hcache, He. done. }
  split.
  - intros Hfail. apply Hfound. intros r Hr Hsym.
    rewrite Hperm in Hr. apply elem_of_jobs in Hr as (k & sym & Hk & ->).
    rewrite job_symbol in Hsym. subst sym. change (0 + k)%nat with k.
    destruct (Hfail k Hk) as (e & n & tr & Hf).
    rewrite (job_failed _ _ _ _ _ _ _ _ _ Hf). reflexivity.
  - intros bars Hok. apply Hfound. intros r Hr Hsym.
    rewrite Hperm in Hr. apply elem_of_jobs in Hr as (k & sym & Hk & ->).
    rewrite job_symbol in Hsym. subst sym. change (0 + k)%nat with k.
    destruct (Hok k Hk) as (n & tr & Hf).
    rewrite (job_succeeded _ _ _ _ _ _ _ _ _ Hf). reflexivity.
Qed.

Lemma chunk_fuel_lookup_inv {A} fuel B (l : list A) j b :
  (0 < B)%nat -> (length l <= fuel)%nat ->
  chunk_fuel fuel B l !! j = Some b ->
  (j * B < length l)%nat /\ b = take B (drop (j * B) l).
Proof.
  intros HB Hl Hj.
  assert (Hlt : (j < length (chunk_fuel fuel B l))%nat) by (eapply lookup_lt_Some; eauto).
  destruct (chunk_fuel_count fuel B l HB Hl) as [Hc1 Hc2].
  assert (Hjl : (j * B < length l)%nat) by nia.
  split; [done |].
  rewrite chunk_fuel_lookup in Hj by done. congruence.
Qed.

(** C3: for a non-empty identifier list of length N and a batch size
    B > 0, the cycle returns and processes ceil(N/B) batches (the number k
    with (k-1)*B < N <= k*B); the batches, one after the other, are the
    list itself, so that every position of the list is in exactly one
    batch and the order is kept; batch j is the B elements from position
    j*B on, every batch has between 1 and B elements, and every batch but
    the last has B; when the identifiers are distinct, no identifier is in
    two batches. The progress line of batch j reports j+1 of that number
    of batches (when N + B - 1 fits a Go int, on which the count is
    computed). *)
Theorem C3_batch_partition (env : Env) (a : CandleFetcherActor) (w : world) :
  GetSymbols (cache w) <> [] ->
  (0 < batchSize a <= Int64.max_int)%Z ->
  (len (GetSymbols (cache w)) < 2 ^ 62)%Z ->
  exists bs w',
    fetchAllCandles env a w = Done w'
    /\ batches_of (trace w') = batches_of (trace w) ++ bs
    /\ ((len bs - 1) * batchSize a < len (GetSymbols (cache w)) <= len bs * batchSize a)%Z
    /\ concat bs = GetSymbols (cache w)
    /\ (forall j b, bs !! j = Some b ->
          b = take (Z.to_nat (batchSize a))
                (drop (j * Z.to_nat (batchSize a)) (GetSymbols (cache w)))
          /\ (1 <= len b <= batchSize a)%Z
          /\ ((S j < length bs)%nat -> len b = batchSize a))
    /\ (NoDup (GetSymbols (cache w)) ->
        forall x j1 j2 b1 b2,
          bs !! j1 = Some b1 -> bs !! j2 = Some b2 -> x ∈ b1 -> x ∈ b2 -> j1 = j2)
    /\ ((len (GetSymbols (cache w)) + batchSize a - 1 <= Int64.max_int)%Z ->
        progress_of (trace w')
        = progress_of (trace w)
          ++ imap (fun j b => ((Z.of_nat j + 1)%Z, len bs, len b)) bs).
Proof.
  intros Hne HB Hn.
  destruct (fetchAllCandles_spec env a w Hne HB Hn)
    as (order & w' & _ & Hrun & _ & Hb & _ & _ & Hg).
  set (syms := GetSymbols (cache w)) in *.
  set (Bn := Z.to_nat (batchSize a)) in *.
  assert (HBn : (0 < Bn)%nat) by (subst Bn; lia).
  exists (chunks Bn syms), w'. unfold chunks.
  pose proof (chunk_fuel_count (length syms) Bn syms HBn (le_n _)) as [Hc1 Hc2].
  assert (Hpos : (0 < length syms)%nat) by (destruct syms; [done | cbn; lia]).
  assert (Hlook : forall j b, chunk_fuel (length syms) Bn syms !! j = Some b ->
            (j * Bn < length syms)%nat /\ b = take Bn (drop (j * Bn) syms)).
  { intros j b. by apply chunk_fuel_lookup_inv. }
  split; [done |]. split; [done |]. split; [| split; [| split; [| split]]].
  - unfold len. replace (batchSize a) with (Z.of_nat Bn) by (subst Bn; lia). nia.
  - by apply chunk_fuel_concat.
  - intros j b Hj. destruct (Hlook j b Hj) as [Hjl ->]. split; [done |].
    unfold len. rewrite length_take, length_drop.
    replace (batchSize a) with (Z.of_nat Bn) by (subst Bn; lia).
    split; [lia |]. intros Hlast. nia.
  - intros Hnd x j1 j2 b1 b2 H1 H2 Hx1 Hx2.
    destruct (Hlook j1 b1 H1) as [Hl1 ->]. destruct (Hlook j2 b2 H2) as [Hl2 ->].
    apply list_elem_of_lookup in Hx1 as [k1 Hk1].
    apply list_elem_of_lookup in Hx2 as [k2 Hk2].
    apply lookup_take_Some in Hk1 as [Hk1 Hb1].
    apply lookup_take_Some in Hk2 as [Hk2 Hb2].
    rewrite lookup_drop in Hk1, Hk2.
    pose proof (NoDup_lookup _ _ _ _ Hnd Hk1 Hk2). nia.
  - intros Hfit. rewrite Hg. f_equal. apply imap_ext. intros j b _. cbn.
    f_equal. f_equal.
    unfold Int64.quot, Int64.sub, Int64.add. rewrite wrap64_sub_wrap.
    assert (Hnn : (0 <= len syms + batchSize a - 1)%Z) by (unfold len; lia).
    rewrite (wrap64_in_range (len syms + batchSize a - 1))
      by (unfold Int64.in_range, Int64.min_int in *; lia).
    rewrite Z.quot_div_nonneg by lia.
    assert (Hq : (len (chunk_fuel (length syms) Bn syms)
                  = (len syms + batchSize a - 1) / batchSize a)%Z).
    { apply (Z.div_unique _ _ _
               (len syms + batchSize a - 1
                - batchSize a * len (chunk_fuel (length syms) Bn syms))%Z);
        [| lia].
      left. unfold len. replace (batchSize a) with (Z.of_nat Bn) by (subst Bn; lia). nia. }
    rewrite <- Hq. apply wrap64_in_range.
    unfold Int64.in_range, Int64.min_int, Int64.max_int, len in *.
    replace (batchSize a) with (Z.of_nat Bn) in * by (subst Bn; lia). nia.
Qed.

(** C8: a cycle that reads an empty Identifier Set returns at once: the
    cache is unchanged, the data timestamp with it, the clock is not read,
    nothing is received, no goroutine is launched, no series is written;
    one line is logged. *)
Theorem C8_empty_identifier_set (env : Env) (a : CandleFetcherActor) (w : world) :
  GetSymbols (cache w) = [] ->
  exists w',
    fetchAllCandles env a w = Done w'
    /\ cache w' = cache w
    /\ GetLastUpdate (cache w') = GetLastUpdate (cache w)
    /\ ticks w' = ticks w
    /\ recvs w' = recvs w
    /\ trace w' = trace w ++ [Logged LogNoSymbols]
    /\ batches_of (trace w') = batches_of (trace w)
    /\ series_writes_of (trace w') = series_writes_of (trace w).
Proof.
  intros Hempty. unfold fetchAllCandles. rewrite Hempty. cbn.
  eexists. split; [reflexivity |]. cbn.
  rewrite batches_of_app, series_writes_of_app. cbn. rewrite !app_nil_r. done.
Qed.

(** ** Identifier refresh *)

Section SymbolFacts.

Variable env : Env.
Variable Unmarshal_meta : option json -> result MetaResponse.

Local Abbreviation fetchSymbols := (SymbolFetcher.fetchSymbols env Unmarshal_meta).
Local Abbreviation runs := (SymbolFetcher.runs env Unmarshal_meta).

Lemma symbol_writes_of_app t1 t2 :
  symbol_writes_of (t1 ++ t2) = symbol_writes_of t1 ++ symbol_writes_of t2.
Proof. unfold symbol_writes_of. apply omap_app. Qed.

Lemma len_pos_iff {A} (l : list A) : (len l >? 0)%Z = true <-> l <> [].
Proof.
  unfold len. destruct l as [|x l]; cbn [length].
  - split; [discriminate | done].
  - split; [done |]. intros _. apply Z.gtb_lt. lia.
Qed.

Lemma len_zero_iff {A} (l : list A) : (len l =? 0)%Z = true <-> l = [].
Proof.
  unfold len. destruct l as [|x l]; cbn [length].
  - done.
  - split; [| done]. intros H. apply Z.eqb_eq in H. lia.
Qed.

(** One run of the routine, case by case. *)
Lemma fetchSymbols_failed reply a w err :
  FetchPerpetualSymbols Unmarshal_meta reply = Err err ->
  SymbolFetcher.cachedSymbols a <> [] ->
  fetchSymbols reply a w
  = (a, {| cache := SetSymbols (cache w) (SymbolFetcher.cachedSymbols a) (clock env (ticks w));
           ticks := S (ticks w);
           recvs := recvs w;
           trace := trace w ++ [Logged LogFetchingSymbols; Logged (LogSymbolsFailed err);
                                Logged (LogUsingCachedSymbols (len (SymbolFetcher.cachedSymbols a)));
                                WroteSymbols (SymbolFetcher.cachedSymbols a)] |}).
Proof.
  intros Hf Hne. unfold SymbolFetcher.fetchSymbols. rewrite Hf.
  apply len_pos_iff in Hne. rewrite Hne.
  unfold cache_SetSymbols, Now, log, emit. cbn. rewrite <- !app_assoc. reflexivity.
Qed.

Lemma fetchSymbols_failed_no_fallback reply a w err :
  FetchPerpetualSymbols Unmarshal_meta reply = Err err ->
  SymbolFetcher.cachedSymbols a = [] ->
  fetchSymbols reply a w
  = (a, {| cache := cache w; ticks := ticks w; recvs := recvs w;
           trace := trace w ++ [Logged LogFetchingSymbols; Logged (LogSymbolsFailed err)] |}).
Proof.
  intros Hf He. unfold SymbolFetcher.fetchSymbols. rewrite Hf, He.
  unfold log, emit. cbn. rewrite <- !app_assoc. reflexivity.
Qed.

Lemma fetchSymbols_empty reply a w :
  FetchPerpetualSymbols Unmarshal_meta reply = Ok [] ->
  fetchSymbols reply a w
  = (a, {| cache := cache w; ticks := ticks w; recvs := recvs w;
           trace := trace w ++ [Logged LogFetchingSymbols; Logged LogEmptySymbolList] |}).
Proof.
  intros Hf. unfold SymbolFetcher.fetchSymbols. rewrite Hf.
  unfold log, emit. cbn. rewrite <- !app_assoc. reflexivity.
Qed.

Lemma fetchSymbols_discovered reply a w syms :
  FetchPerpetualSymbols Unmarshal_meta reply = Ok syms ->
  syms <> [] ->
  fetchSymbols reply a w
  = ({| SymbolFetcher.refreshInterval := SymbolFetcher.refreshInterval a;
        SymbolFetcher.cachedSymbols := syms |},
     {| cache := SetSymbols (cache w) syms (clock env (ticks w));
        ticks := S (ticks w);
        recvs := recvs w;
        trace := trace w ++ [Logged LogFetchingSymbols; Logged (LogDiscovered (len syms));
                             WroteSymbols syms] |}).
Proof.
  intros Hf Hne. unfold SymbolFetcher.fetchSymbols. rewrite Hf.
  destruct (len syms =? 0)%Z eqn:E; [by apply len_zero_iff in E |].
  unfold cache_SetSymbols, Now, log, emit. cbn. rewrite <- !app_assoc. reflexivity.
Qed.





(** In every state the program reaches, the cache holds the fallback's
    sequence. *)
Lemma reachable_symbols a w :
  SymbolFetcher.reachable env Unmarshal_meta a w ->
  symbols (cache w) = SymbolFetcher.cachedSymbols a.
Proof.
  induction 1 as [r w Hc|reply a w Hr IH|a w w' Hr IH Hs Hu].
  - rewrite Hc. reflexivity.
  - destruct (FetchPerpetualSymbols Unmarshal_meta reply) as [syms|err] eqn:Hf.
    + destruct syms as [|sym syms].
      * rewrite fetchSymbols_empty by done. exact IH.
      * rewrite (fetchSymbols_discovered _ _ _ _ Hf) by done. reflexivity.
    + destruct (SymbolFetcher.cachedSymbols a) as [|sym syms] eqn:Hc.
      * rewrite (fetchSymbols_failed_no_fallback _ _ _ _ Hf Hc). cbn. by rewrite IH.
      * rewrite (fetchSymbols_failed _ _ _ _ Hf) by (rewrite Hc; done). cbn. done.
  - congruence.
Qed.

End SymbolFacts.

(** ** Time-series payloads *)

Section WireFacts.

Variable ParseFloat : string -> option float64.

Local Abbreviation reads_as := (reads_as ParseFloat).
Local Abbreviation denotes := (denotes ParseFloat).

Lemma store_quoted_float_reads s f old :
  reads_as s f -> Json.store_quoted_float ParseFloat s old = Ok f.
Proof.
  intros [Hs Hf]. unfold Json.store_quoted_float.
  destruct s as [|c s']; [discriminate |].
  cbn [starts_number] in Hs.
  destruct (Ascii.eqb c "n") eqn:Hn.
  - apply Ascii.eqb_eq in Hn. subst c. discriminate.
  - rewrite Hs, Hf. reflexivity.
Qed.

Lemma store_float_string_number lit old :
  Json.store_float_string ParseFloat (JNumber lit) old = Err Json.invalid_string_tag.
Proof. reflexivity. Qed.

Lemma store_float_string_string s f old :
  reads_as s f -> Json.store_float_string ParseFloat (JString s) old = Ok f.
Proof. apply store_quoted_float_reads. Qed.

Lemma store_float_encoded enc s f old :
  reads_as s f ->
  Json.store_float_string ParseFloat (encode enc s) old
  = match enc with AsString => Ok f | AsNumber => Err Json.invalid_string_tag end.
Proof.
  intros H. destruct enc; [reflexivity | by apply store_float_string_string].
Qed.

Lemma unmarshal_candle_wire wc rc :
  denotes wc rc ->
  unmarshal_candle ParseFloat (wire_json wc)
  = if all_strings wc then Ok rc else Err Json.invalid_string_tag.
Proof.
  intros (Ht & Ho & Hh & Hl & Hc & Hv & Hn).
  destruct rc as [t o h l c v n]. cbn [Raw.T Raw.O Raw.H Raw.L Raw.C Raw.V Raw.N] in *.
  unfold unmarshal_candle, wire_json, all_strings.
  cbn [store_members]. unfold store_member at 1.
  change (Json.selects "t" "t") with true. cbn iota. unfold Raw.zero.
  unfold Json.store_int. rewrite Ht.
  unfold store_member at 1.
  change (Json.selects "o" "t") with false. change (Json.selects "o" "o") with true. cbn iota.
  rewrite (store_float_encoded _ _ _ _ Ho).
  destruct (fst (wire_o wc)); [reflexivity |].
  unfold store_member at 1.
  change (Json.selects "h" "t") with false. change (Json.selects "h" "o") with false.
  change (Json.selects "h" "h") with true. cbn iota.
  rewrite (store_float_encoded _ _ _ _ Hh).
  destruct (fst (wire_h wc)); [reflexivity |].
  unfold store_member at 1.
  change (Json.selects "l" "t") with false. change (Json.selects "l" "o") with false.
  change (Json.selects "l" "h") with false. change (Json.selects "l" "l") with true. cbn iota.
  rewrite (store_float_encoded _ _ _ _ Hl).
  destruct (fst (wire_l wc)); [reflexivity |].
  unfold store_member at 1.
  change (Json.selects "c" "t") with false. change (Json.selects "c" "o") with false.
  change (Json.selects "c" "h") with false. change (Json.selects "c" "l") with false.
  change (Json.selects "c" "c") with true. cbn iota.
  rewrite (store_float_encoded _ _ _ _ Hc).
  destruct (fst (wire_c wc)); [reflexivity |].
  unfold store_member at 1.
  change (Json.selects "v" "t") with false. change (Json.selects "v" "o") with false.
  change (Json.selects "v" "h") with false. change (Json.selects "v" "l") with false.
  change (Json.selects "v" "c") with false. change (Json.selects "v" "v") with true. cbn iota.
  rewrite (store_float_encoded _ _ _ _ Hv).
  destruct (fst (wire_v wc)); [reflexivity |].
  unfold store_member at 1.
  change (Json.selects "n" "t") with false. change (Json.selects "n" "o") with false.
  change (Json.selects "n" "h") with false. change (Json.selects "n" "l") with false.
  change (Json.selects "n" "c") with false. change (Json.selects "n" "v") with false.
  change (Json.selects "n" "n") with true. cbn iota.
  unfold Json.store_int. rewrite Hn. reflexivity.
Qed.

Lemma unmarshal_elements_wire wcs rcs :
  Forall2 denotes wcs rcs ->
  unmarshal_elements ParseFloat (map wire_json wcs)
  = if forallb all_strings wcs then Ok rcs else Err Json.invalid_string_tag.
Proof.
  induction 1 as [|wc rc wcs rcs Hd _ IH]; [reflexivity |].
  cbn [map unmarshal_elements forallb].
  rewrite (unmarshal_candle_wire _ _ Hd).
  destruct (all_strings wc); [| reflexivity].
  rewrite IH. cbn [andb]. destruct (forallb all_strings wcs); reflexivity.
Qed.

End WireFacts.

(** ** The cache up to sharing *)

Section MemFacts.

Variable h : Mem.heap.
Variable c : Mem.Cache.
Hypothesis Hdata : is_Some (Mem.maps h !! Mem.data c).

Lemma GetAll_fresh : snd (Mem.GetAll h c) <> Mem.data c.
Proof.
  cbn. intros Heq.
  assert (Hin : Mem.data c ∈ dom (Mem.maps h)) by (by apply elem_of_dom).
  rewrite <- Heq in Hin. by apply is_fresh in Hin.
Qed.

(** The map returned holds the entries the cache held at the call. *)
Lemma GetAll_copy :
  Mem.maps (fst (Mem.GetAll h c)) !! snd (Mem.GetAll h c) = Mem.maps h !! Mem.data c.
Proof.
  cbn. rewrite lookup_insert_eq. destruct Hdata as [m ->]. reflexivity.
Qed.

Lemma mutate_map_level m h1 mu :
  m <> Mem.data c ->
  is_Some (Mem.maps h1 !! m) ->
  Mem.is_map_level mu = true ->
  exists h2,
    Mem.mutate m h1 mu = Some h2
    /\ Mem.arrays h2 = Mem.arrays h1
    /\ Mem.maps h2 !! Mem.data c = Mem.maps h1 !! Mem.data c
    /\ is_Some (Mem.maps h2 !! m).
Proof.
  intros Hne [entries Hm] Hmu. destruct mu as [k e|k|k i x]; [| | discriminate]; cbn.
  - rewrite Hm. eexists. split; [reflexivity |]. cbn.
    rewrite lookup_insert_ne by done. rewrite lookup_insert_eq. eauto.
  - rewrite Hm. eexists. split; [reflexivity |]. cbn.
    rewrite lookup_insert_ne by done. rewrite lookup_insert_eq. eauto.
Qed.

Lemma mutate_all_map_level m h1 mus :
  m <> Mem.data c ->
  is_Some (Mem.maps h1 !! m) ->
  forallb Mem.is_map_level mus = true ->
  exists h2,
    Mem.mutate_all m h1 mus = Some h2
    /\ Mem.arrays h2 = Mem.arrays h1
    /\ Mem.maps h2 !! Mem.data c = Mem.maps h1 !! Mem.data c.
Proof.
  intros Hne. revert h1. induction mus as [|mu mus IH]; intros h1 Hm Hall.
  - exists h1. done.
  - cbn [forallb] in Hall. apply andb_true_iff in Hall as [Hmu Hall].
    destruct (mutate_map_level m h1 mu Hne Hm Hmu) as (h2 & Hstep & Ha & Hd & Hm2).
    destruct (IH h2 Hm2 Hall) as (h3 & Hrun & Ha3 & Hd3).
    exists h3. cbn [Mem.mutate_all]. rewrite Hstep. split; [done |].
    split; congruence.
Qed.

End MemFacts.


(** ** The universe *)

Lemma extract_symbols_spec acc items :
  extract_symbols acc items = acc ++ map Name (List.filter listed items).
Proof.
  revert acc. induction items as [|item items IH]; intros acc; cbn [extract_symbols List.filter map].
  - by rewrite app_nil_r.
  - fold (listed item). destruct (listed item).
    + rewrite IH, <- app_assoc. reflexivity.
    + apply IH.
Qed.

Lemma listed_spec item :
  listed item = true <-> Name item <> "" /\ IsDelisted item = false.
Proof.
  unfold listed. rewrite andb_true_iff, !negb_true_iff.
  destruct (String.eqb_spec (Name item) ""); intuition congruence.
Qed.

(** C7, amended: when the universe is fetched and decoded, the routine
    returns exactly the names of the entries that are not marked delisted
    and whose name is not empty, in the order of the response, a name as
    many times as such entries carry it; so every identifier returned is a
    non-empty string and is the name of an entry that is not marked
    delisted. The name of an entry marked delisted is returned exactly
    when it is not empty and an entry that is not marked delisted carries
    the same name; so when the names of the entries of the response are
    pairwise distinct, the name of no entry marked delisted is returned. *)
Theorem C7_universe_filter (Unmarshal_meta : option json -> result MetaResponse)
    (status : Z) (body : http_body) (response : MetaResponse) :
  status = StatusOK ->
  read_error body = None ->
  Unmarshal_meta (document body) = Ok response ->
  exists syms,
    FetchPerpetualSymbols Unmarshal_meta (Response status body) = Ok syms
    /\ syms = map Name (List.filter listed (Universe response))
    /\ Forall (fun s => s <> "") syms
    /\ (forall s, s ∈ syms <->
         exists item, item ∈ Universe response /\ Name item = s
                      /\ Name item <> "" /\ IsDelisted item = false)
    /\ (forall item,
          item ∈ Universe response -> IsDelisted item = true ->
          (Name item ∈ syms <->
           Name item <> ""
           /\ exists item', item' ∈ Universe response /\ Name item' = Name item
                            /\ IsDelisted item' = false))
    /\ (NoDup (map Name (Universe response)) ->
        forall item,
          item ∈ Universe response -> IsDelisted item = true -> Name item ∉ syms).
Proof.
  intros -> Hread Hdec. eexists. split; [| split; [reflexivity |]].
  - unfold FetchPerpetualSymbols. cbn. rewrite Hread, Hdec.
    rewrite extract_symbols_spec. reflexivity.
  - assert (Hin : forall s, s ∈ map Name (List.filter listed (Universe response)) <->
        exists item, item ∈ Universe response /\ Name item = s
                     /\ Name item <> "" /\ IsDelisted item = false).
    { intros s. rewrite list_elem_of_fmap. split.
      - intros (item & -> & Hitem). apply list_elem_of_In, filter_In in Hitem as [Hi Hl].
        apply listed_spec in Hl. exists item. rewrite list_elem_of_In. tauto.
      - intros (item & Hi & <- & Hl). exists item. split; [done |].
        apply list_elem_of_In, filter_In. rewrite <- list_elem_of_In.
        split; [done |]. by apply listed_spec. }
    split; [| split; [exact Hin | split]].
    + apply Forall_forall. intros s Hs. apply Hin in Hs as (item & _ & <- & Hne & _). done.
    + intros item Hitem Hdel. rewrite Hin. split.
      * intros (item' & Hi' & Heq & Hne & Hl). split; [congruence |]. eauto.
      * intros (Hne & item' & Hi' & Heq & Hl). exists item'.
        split; [done |]. split; [done |]. split; [congruence | done].
    + intros Hnd item Hitem Hdel Hs. apply Hin in Hs as (item' & Hi' & Heq & _ & Hl).
      apply list_elem_of_lookup in Hitem as [i Hi].
      apply list_elem_of_lookup in Hi' as [j Hj].
      assert (Hij : i = j).
      { apply (NoDup_lookup (Name <$> Universe response) i j (Name item)).
        - exact Hnd.
        - rewrite list_lookup_fmap, Hi. reflexivity.
        - rewrite list_lookup_fmap, Hj. cbn. by rewrite Heq. }
      subst j. rewrite Hi in Hj. injection Hj as <-. congruence.
Qed.

Lemma C7_witness :
  exists syms,
    FetchPerpetualSymbols Unmarshal_meta_ex universe_reply_ex = Ok syms
    /\ syms = ["BTC"; "ETH"]
    /\ "OLD" ∉ syms.
Proof.
  destruct (C7_universe_filter Unmarshal_meta_ex 200
              (body_ex (JObject [("universe", JArray [
                 JObject [("name", JString "BTC")];
                 JObject [("name", JString "OLD"); ("isDelisted", JBool true)];
                 JObject [("name", JString "")];
                 JObject [("name", JString "ETH"); ("isDelisted", JBool false)]])]))
              {| Universe := [ {| Name := "BTC"; IsDelisted := false |};
                               {| Name := "OLD"; IsDelisted := true |};
                               {| Name := ""; IsDelisted := false |};
                               {| Name := "ETH"; IsDelisted := false |} ] |}
              eq_refl eq_refl eq_refl)
    as (syms & Hrun & Hsyms & _ & _ & _ & Hdistinct).
  exists syms. split; [exact Hrun |]. split; [exact Hsyms |].
  assert (Hnd : NoDup ["BTC"; "OLD"; ""; "ETH"]).
  { apply (bool_decide_unpack (NoDup ["BTC"; "OLD"; ""; "ETH"])). vm_compute. exact I. }
  apply (Hdistinct Hnd {| Name := "OLD"; IsDelisted := true |}).
  - right. left.
  - reflexivity.
Defined.

(** The claim as stated fails where a name is carried by a delisted entry
    and by one that is not: the name of the delisted entry is returned. *)
Lemma C7_counterexample :
  Unmarshal_meta_ex (Some (JObject [("universe", JArray [
      JObject [("name", JString "ABC"); ("isDelisted", JBool true)];
      JObject [("name", JString "ABC")]])]))
  = Ok {| Universe := [ {| Name := "ABC"; IsDelisted := true |};
                        {| Name := "ABC"; IsDelisted := false |} ] |}
  /\ FetchPerpetualSymbols Unmarshal_meta_ex relisted_reply_ex = Ok ["ABC"]
  /\ ~ (forall item,
          item ∈ [ {| Name := "ABC"; IsDelisted := true |};
                   {| Name := "ABC"; IsDelisted := false |} ] ->
          IsDelisted item = true -> Name item ∉ ["ABC"]).
Proof.
  split; [reflexivity |]. split; [reflexivity |].
  intros H. apply (H {| Name := "ABC"; IsDelisted := true |}).
  - left.
  - reflexivity.
  - left.
Qed.

(** ** The identifier refresh routine *)


(** C4, amended: when fetchUniverse fails in a state the program reaches
    and a fallback exists, the fallback is written into the Cache: the
    identifier sequence the Cache holds is the fallback and is the
    sequence it held before, the series and their timestamp are untouched,
    the fallback is kept, and the identifier timestamp is set to the time
    of this write; when no fallback exists, nothing is written and the
    Cache is unchanged. *)
Theorem C4_fallback_on_failure (env : Env)
    (Unmarshal_meta : option json -> result MetaResponse)
    (reply : http_reply) (a : SymbolFetcher.SymbolFetcherActor) (w : world) (err : error) :
  SymbolFetcher.reachable env Unmarshal_meta a w ->
  FetchPerpetualSymbols Unmarshal_meta reply = Err err ->
  fst (SymbolFetcher.fetchSymbols env Unmarshal_meta reply a w) = a
  /\ (SymbolFetcher.cachedSymbols a <> [] ->
      symbol_writes_of (trace (snd (SymbolFetcher.fetchSymbols env Unmarshal_meta reply a w)))
      = symbol_writes_of (trace w) ++ [SymbolFetcher.cachedSymbols a]
      /\ GetSymbols (cache (snd (SymbolFetcher.fetchSymbols env Unmarshal_meta reply a w)))
         = SymbolFetcher.cachedSymbols a
      /\ GetSymbols (cache (snd (SymbolFetcher.fetchSymbols env Unmarshal_meta reply a w)))
         = GetSymbols (cache w)
      /\ GetSymbolUpdate (cache (snd (SymbolFetcher.fetchSymbols env Unmarshal_meta reply a w)))
         = clock env (ticks w)
      /\ GetAll (cache (snd (SymbolFetcher.fetchSymbols env Unmarshal_meta reply a w)))
         = GetAll (cache w)
      /\ GetLastUpdate (cache (snd (SymbolFetcher.fetchSymbols env Unmarshal_meta reply a w)))
         = GetLastUpdate (cache w))
  /\ (SymbolFetcher.cachedSymbols a = [] ->
      symbol_writes_of (trace (snd (SymbolFetcher.fetchSymbols env Unmarshal_meta reply a w)))
      = symbol_writes_of (trace w)
      /\ cache (snd (SymbolFetcher.fetchSymbols env Unmarshal_meta reply a w)) = cache w).
Proof.
  intros Hreach Hfail.
  pose proof (reachable_symbols env Unmarshal_meta a w Hreach) as Hinv.
  destruct (SymbolFetcher.cachedSymbols a) as [|sym syms] eqn:Hc.
  - rewrite (fetchSymbols_failed_no_fallback env Unmarshal_meta _ _ _ _ Hfail Hc).
    split; [done |]. split; [done |]. intros _. cbn.
    rewrite symbol_writes_of_app. cbn. rewrite app_nil_r. destruct w; done.
  - rewrite (fetchSymbols_failed env Unmarshal_meta _ _ _ _ Hfail) by (rewrite Hc; done).
    split; [done |]. split; [| done]. intros _. cbn.
    rewrite symbol_writes_of_app, Hc. cbn. unfold GetSymbols. rewrite Hinv. done.
Qed.

Lemma C4_witness :
  exists a w,
    a = fst (SymbolFetcher.fetchSymbols env_ex Unmarshal_meta_ex universe_reply_ex
               (SymbolFetcher.NewSymbolFetcherActor (3600 * Second)) (world_of NewCache))
    /\ w = snd (SymbolFetcher.fetchSymbols env_ex Unmarshal_meta_ex universe_reply_ex
               (SymbolFetcher.NewSymbolFetcherActor (3600 * Second)) (world_of NewCache))
    /\ SymbolFetcher.cachedSymbols a = ["BTC"; "ETH"]
    /\ GetSymbols (cache (snd (SymbolFetcher.fetchSymbols env_ex Unmarshal_meta_ex
                                 down_reply_ex a w)))
       = GetSymbols (cache w).
Proof.
  eexists. eexists. split; [reflexivity |]. split; [reflexivity |].
  split; [reflexivity |].
  refine (proj1 (proj2 (proj2 (proj1 (proj2
    (C4_fallback_on_failure env_ex Unmarshal_meta_ex down_reply_ex _ _
       (ErrRequestFailed (ErrExternal "connection refused"))
       (SymbolFetcher.reach_fetchSymbols env_ex Unmarshal_meta_ex universe_reply_ex _ _
          (SymbolFetcher.reach_start env_ex Unmarshal_meta_ex (3600 * Second)
             (world_of NewCache) eq_refl))
       eq_refl)) _)))).
  vm_compute. discriminate.
Defined.

(** The claim as stated fails on the timestamp of the Identifier Set: a
    refresh that succeeds at the first reading of the clock and one that
    fails at the second leave the sequence as it was and move the
    timestamp to the second reading. *)
Lemma C4_counterexample :
  SymbolFetcher.reachable env_ex Unmarshal_meta_ex
    (fst (SymbolFetcher.fetchSymbols env_ex Unmarshal_meta_ex universe_reply_ex
            (SymbolFetcher.NewSymbolFetcherActor (3600 * Second)) (world_of NewCache)))
    (snd (SymbolFetcher.fetchSymbols env_ex Unmarshal_meta_ex universe_reply_ex
            (SymbolFetcher.NewSymbolFetcherActor (3600 * Second)) (world_of NewCache)))
  /\ FetchPerpetualSymbols Unmarshal_meta_ex down_reply_ex
     = Err (ErrRequestFailed (ErrExternal "connection refused"))
  /\ IdentifierSet
       (cache (snd (SymbolFetcher.fetchSymbols env_ex Unmarshal_meta_ex universe_reply_ex
                      (SymbolFetcher.NewSymbolFetcherActor (3600 * Second))
                      (world_of NewCache))))
     = (["BTC"; "ETH"], 1000000000%Z)
  /\ IdentifierSet
       (cache (snd (SymbolFetcher.runs env_ex Unmarshal_meta_ex
                      [universe_reply_ex; down_reply_ex]
                      (SymbolFetcher.NewSymbolFetcherActor (3600 * Second))
                      (world_of NewCache))))
     = (["BTC"; "ETH"], 2000000000%Z)
  /\ IdentifierSet
       (cache (snd (SymbolFetcher.runs env_ex Unmarshal_meta_ex
                      [universe_reply_ex; down_reply_ex]
                      (SymbolFetcher.NewSymbolFetcherActor (3600 * Second))
                      (world_of NewCache))))
     <> IdentifierSet
          (cache (snd (SymbolFetcher.fetchSymbols env_ex Unmarshal_meta_ex universe_reply_ex
                         (SymbolFetcher.NewSymbolFetcherActor (3600 * Second))
                         (world_of NewCache)))).
Proof.
  split; [| split; [reflexivity | split; [reflexivity | split; [reflexivity |]]]].
  - apply SymbolFetcher.reach_fetchSymbols, SymbolFetcher.reach_start. reflexivity.
  - vm_compute. discriminate.
Qed.

(** ** getAllSeries *)

(** C6, amended: the mapping returned by getAllSeries is a new map that
    holds the entries the cache held at the call; assigning or deleting
    entries of the returned map, in any number, never panics and changes
    nothing of what a later getSeries on the same cache returns, bars
    included. (The bar sequences of the entries are shared with the
    cache.) *)
Theorem C6_getAll_copies_the_map (h : Mem.heap) (c : Mem.Cache) (mus : list Mem.mutation) :
  is_Some (Mem.maps h !! Mem.data c) ->
  forallb Mem.is_map_level mus = true ->
  Mem.maps (fst (Mem.GetAll h c)) !! snd (Mem.GetAll h c) = Mem.maps h !! Mem.data c
  /\ snd (Mem.GetAll h c) <> Mem.data c
  /\ exists h2,
       Mem.mutate_all (snd (Mem.GetAll h c)) (fst (Mem.GetAll h c)) mus = Some h2
       /\ forall symbol,
            Mem.Get h2 c symbol = Mem.Get h c symbol
            /\ Mem.view h2 (Mem.Get h2 c symbol) = Mem.view h (Mem.Get h c symbol).
Proof.
  intros Hdata Hall. split; [by apply GetAll_copy |].
  split; [by apply GetAll_fresh |].
  destruct (mutate_all_map_level c (snd (Mem.GetAll h c)) (fst (Mem.GetAll h c)) mus)
    as (h2 & Hrun & Ha & Hd).
  - by apply GetAll_fresh.
  - rewrite GetAll_copy by done. done.
  - done.
  - exists h2. split; [done |]. intros symbol.
    assert (Hget : Mem.Get h2 c symbol = Mem.Get h c symbol).
    { unfold Mem.Get. rewrite Hd. cbn [Mem.GetAll fst Mem.maps].
      rewrite lookup_insert_ne; [done |]. apply (GetAll_fresh h c Hdata). }
    split; [done |]. rewrite Hget. unfold Mem.view, Mem.contents. rewrite Ha. reflexivity.
Qed.

Lemma C6_witness :
  exists h2,
    Mem.mutate_all (snd (Mem.GetAll heap_ex mem_cache_ex)) (fst (Mem.GetAll heap_ex mem_cache_ex))
      [Mem.MapDelete "BTC"; Mem.MapAssign "ETH" Mem.zeroCacheEntry] = Some h2
    /\ forall symbol,
         Mem.Get h2 mem_cache_ex symbol = Mem.Get heap_ex mem_cache_ex symbol
         /\ Mem.view h2 (Mem.Get h2 mem_cache_ex symbol)
            = Mem.view heap_ex (Mem.Get heap_ex mem_cache_ex symbol).
Proof.
  refine (proj2 (proj2 (C6_getAll_copies_the_map heap_ex mem_cache_ex
    [Mem.MapDelete "BTC"; Mem.MapAssign "ETH" Mem.zeroCacheEntry] _ eq_refl))).
  vm_compute. eauto.
Defined.

(** The claim as stated fails on the contents of an entry: an assignment
    to an element of the bars of a returned entry changes the bars a later
    getSeries on the cache shows. *)
Lemma C6_counterexample :
  is_Some (Mem.maps heap_ex !! Mem.data mem_cache_ex)
  /\ exists h2,
       Mem.mutate_all (snd (Mem.GetAll heap_ex mem_cache_ex)) (fst (Mem.GetAll heap_ex mem_cache_ex))
         [Mem.ElemAssign "BTC" 0 (candle_ex 9 9.5%float)] = Some h2
       /\ Mem.view heap_ex (Mem.Get heap_ex mem_cache_ex "BTC")
          = ("BTC", [candle_ex 1 1.5%float; candle_ex 2 2.5%float], 100%Z, true)
       /\ Mem.view h2 (Mem.Get h2 mem_cache_ex "BTC")
          = ("BTC", [candle_ex 9 9.5%float; candle_ex 2 2.5%float], 100%Z, true)
       /\ Mem.view h2 (Mem.Get h2 mem_cache_ex "BTC")
          <> Mem.view heap_ex (Mem.Get heap_ex mem_cache_ex "BTC").
Proof.
  split; [vm_compute; eauto |].
  eexists. split; [vm_compute; reflexivity |].
  split; [vm_compute; reflexivity |]. split; [vm_compute; reflexivity |].
  vm_compute. intros H. discriminate H.
Qed.

(** ** Witnesses of the orchestrator and the retry wrapper *)

Lemma C2_witness :
  exists tr,
    FetchCandlesWithRetry flaky_ex 3 0%nat = Done (Ok [candle_ex 1 1.5%float], 3%nat, tr)
    /\ sleeps tr = [1000000000%Z; 2000000000%Z].
Proof.
  destruct (proj1 (C2_retry_backoff flaky_ex) 0%nat 1%nat 2%nat 3%nat
              (ErrExternal "timeout") (ErrExternal "timeout") [candle_ex 1 1.5%float]
              eq_refl eq_refl eq_refl) as (tr & Hrun & _ & Hs & _).
  exists tr. split; [exact Hrun | exact Hs].
Defined.

Lemma C10_witness :
  exists tr,
    FetchCandlesWithRetry flaky_ex (-1) 0%nat
    = Done (Err (ErrAfterRetries (-1) None), 0%nat, tr)
    /\ attempts tr = 0%nat /\ sleeps tr = [].
Proof.
  apply (C10_no_attempts flaky_ex (-1) 0%nat). lia.
Defined.

Lemma C8_witness :
  exists w',
    fetchAllCandles env_ex actor_ex (world_of NewCache) = Done w'
    /\ cache w' = NewCache
    /\ batches_of (trace w') = []
    /\ series_writes_of (trace w') = [].
Proof.
  destruct (C8_empty_identifier_set env_ex actor_ex (world_of NewCache) eq_refl)
    as (w' & Hrun & Hc & _ & _ & _ & _ & Hb & Hs).
  exists w'. split; [exact Hrun |]. split; [exact Hc |]. split; [exact Hb | exact Hs].
Defined.

Lemma C3_witness :
  exists bs w',
    fetchAllCandles env_ex actor_ex world_ex = Done w'
    /\ batches_of (trace w') = bs
    /\ concat bs = ["X"; "Y"; "Z"]
    /\ bs !! 0%nat = Some ["X"; "Y"] /\ bs !! 1%nat = Some ["Z"].
Proof.
  destruct (C3_batch_partition env_ex actor_ex world_ex) as
    (bs & w' & Hrun & Hb & Hcount & Hconcat & Hlook & _).
  - discriminate.
  - split; [reflexivity | intros H; discriminate H].
  - reflexivity.
  - exists bs, w'. split; [exact Hrun |]. split; [exact Hb |]. split; [exact Hconcat |].
    cbn in Hcount. unfold len in Hcount.
    destruct bs as [|b0 [|b1 [|b2 bs]]]; cbn [length] in Hcount; try lia.
    destruct (Hlook 0%nat b0 eq_refl) as [-> _].
    destruct (Hlook 1%nat b1 eq_refl) as [-> _].
    split; reflexivity.
Defined.

Lemma C1_witness :
  exists w' eX eY,
    fetchAllCandles env_ex actor_ex world_ex = Done w'
    /\ Get (cache w') "X" = (eX, true) /\ Candles eX = []
    /\ Get (cache w') "Y" = (eY, true) /\ Candles eY = [to_Candle raw_ex].
Proof.
  destruct (C1_failure_to_empty env_ex actor_ex world_ex) as
    (order & w' & Hrun & _ & _ & _ & Hkeys).
  - discriminate.
  - split; [reflexivity | intros H; discriminate H].
  - reflexivity.
  - destruct (proj1 (Hkeys "X" ltac:(left))) as (eX & HX & HcX).
    { intros i Hi. destruct i as [|[|[|i]]]; try discriminate Hi.
      vm_compute. eauto. }
    destruct (proj2 (Hkeys "Y" ltac:(right; left)) [to_Candle raw_ex]) as (eY & HY & HcY).
    { intros i Hi. destruct i as [|[|[|i]]]; try discriminate Hi.
      vm_compute. eauto. }
    exists w', eX, eY. repeat split; assumption.
Defined.

(** * Further properties of the code *)

(** ** Sequences of cache writes *)

Lemma apply_ops_app ops1 ops2 c :
  apply_ops (ops1 ++ ops2) c = apply_ops ops2 (apply_ops ops1 c).
Proof. unfold apply_ops. apply fold_left_app. Qed.

Lemma apply_ops_data ops c symbol :
  data (apply_ops ops c) !! symbol = last_set symbol ops (data c !! symbol).
Proof.
  revert c. induction ops as [|op ops IH]; intros c; [done |].
  change (apply_ops (op :: ops) c) with (apply_ops ops (apply_op c op)).
  rewrite IH. destruct op as [s candles now1 now2|syms now]; cbn [last_set apply_op].
  - unfold Set_. cbn [data]. destruct (String.eqb_spec s symbol) as [->|Hne].
    + by rewrite lookup_insert_eq.
    + by rewrite lookup_insert_ne.
  - reflexivity.
Qed.

Lemma apply_ops_symbols ops c :
  symbols (apply_ops ops c) = last_symbols ops (symbols c).
Proof.
  revert c. induction ops as [|op ops IH]; intros c; [done |].
  change (apply_ops (op :: ops) c) with (apply_ops ops (apply_op c op)).
  rewrite IH. destruct op; reflexivity.
Qed.

Lemma last_set_own_key symbol ops before e :
  (forall e0, before = Some e0 -> Symbol e0 = symbol) ->
  last_set symbol ops before = Some e -> Symbol e = symbol.
Proof.
  revert before. induction ops as [|op ops IH]; intros before Hb He; cbn [last_set] in He.
  - by apply Hb.
  - destruct op as [s candles now1 now2|syms now].
    + destruct (String.eqb_spec s symbol) as [->|Hne].
      * eapply IH; [| exact He]. intros e0 [= <-]. reflexivity.
      * eapply IH; eauto.
    + eapply IH; eauto.
Qed.

Lemma last_set_is_Some symbol ops before :
  is_Some before -> is_Some (last_set symbol ops before).
Proof.
  revert before. induction ops as [|op ops IH]; intros before Hb; cbn [last_set]; [done |].
  destruct op as [s candles now1 now2|syms now]; [| by apply IH].
  destruct (String.eqb s symbol); apply IH; eauto.
Qed.

(** X1: after any sequence of Set and SetSymbols, Get of a key returns
    the entry of the last Set made for that key (the entry the cache held
    before when there was none, and the zero entry with false when there
    was none either), and GetSymbols returns the list of the last
    SetSymbols; a key that was present stays present; and right after
    Set(symbol, candles), Get(symbol) returns those candles under that
    symbol with the time of the first clock reading of Set. *)
Theorem cache_last_write_wins (ops : list cache_op) (c : Cache) (symbol : string) :
  Get (apply_ops ops c) symbol
  = match last_set symbol ops (data c !! symbol) with
    | Some entry => (entry, true)
    | None => (zeroCacheEntry, false)
    end
  /\ GetSymbols (apply_ops ops c) = last_symbols ops (GetSymbols c)
  /\ (snd (Get c symbol) = true -> snd (Get (apply_ops ops c) symbol) = true)
  /\ forall candles now1 now2 ops',
       ops = ops' ++ [OpSet symbol candles now1 now2] ->
       Get (apply_ops ops c) symbol
       = ({| Symbol := symbol; Candles := candles; LastUpdate := now1 |}, true).
Proof.
  split; [| split; [| split]].
  - unfold Get. rewrite apply_ops_data. reflexivity.
  - apply apply_ops_symbols.
  - unfold Get. rewrite apply_ops_data.
    destruct (data c !! symbol) as [e|] eqn:He; [| discriminate]. intros _.
    destruct (last_set_is_Some symbol ops (Some e)) as [e' ->]; eauto.
  - intros candles now1 now2 ops' ->. rewrite apply_ops_app. cbn.
    unfold Get, Set_. cbn [data]. rewrite lookup_insert_eq. reflexivity.
Qed.

(** X2: in a cache built from NewCache by Set and SetSymbols, the entry
    that Get finds under a key names that key in its Symbol field. *)
Theorem cache_entries_under_own_key (ops : list cache_op) (symbol : string)
    (entry : CacheEntry) :
  Get (apply_ops ops NewCache) symbol = (entry, true) -> Symbol entry = symbol.
Proof.
  unfold Get. rewrite apply_ops_data. cbn [NewCache data]. rewrite lookup_empty.
  destruct (last_set symbol ops None) as [e|] eqn:He; [| discriminate].
  intros [= <-]. eapply last_set_own_key; [| exact He]. discriminate.
Qed.

(** ** Runs of the retry wrapper *)

Lemma attempts_app (tr1 tr2 : list retry_event) :
  attempts (tr1 ++ tr2) = (attempts tr1 + attempts tr2)%nat.
Proof. unfold attempts. rewrite omap_app, length_app. reflexivity. Qed.

Lemma sleeps_app (tr1 tr2 : list retry_event) :
  sleeps (tr1 ++ tr2) = sleeps tr1 ++ sleeps tr2.
Proof. apply omap_app. Qed.

Section RetrySchedule.

Context {W : Type}.
Variable fetch : W -> result (list Candle) * W.

Lemma retry_loop_schedule fuel maxRetries attempt lastErr w tr :
  (0 <= attempt <= maxRetries)%Z -> (maxRetries <= Int64.max_int)%Z ->
  (maxRetries - attempt <= Z.of_nat fuel)%Z ->
  Z.of_nat (attempts tr) = attempt ->
  sleeps tr = backoff <$> seqZ 0 (Z.min attempt (maxRetries - 1)) ->
  ((0 < attempt)%Z -> lastErr <> None) ->
  exists r w' tr',
    retry_loop fetch fuel maxRetries attempt lastErr w tr = Done (r, w', tr')
    /\ (Z.of_nat (attempts tr') <= maxRetries)%Z
    /\ sleeps tr' = backoff <$> seqZ 0 (Z.of_nat (attempts tr') - 1)
    /\ match r with
       | Ok _ => (1 <= attempts tr')%nat
       | Err e =>
           Z.of_nat (attempts tr') = maxRetries
           /\ exists last, e = ErrAfterRetries maxRetries last
                           /\ ((0 < maxRetries)%Z -> last <> None)
       end.
Proof.
  revert attempt lastErr w tr.
  induction fuel as [|fuel IH]; intros attempt lastErr w tr Ha Hm Hf Hatt Hsl Hlast;
    cbn [retry_loop].
  - destruct (Z.ltb_spec attempt maxRetries); [lia |].
    assert (E : attempt = maxRetries) by lia.
    exists (Err (ErrAfterRetries maxRetries lastErr)), w, tr.
    split; [reflexivity |]. split; [lia |]. split.
    { rewrite Hsl, Hatt. f_equal. f_equal. lia. }
    split; [lia |]. exists lastErr. split; [done |]. intros; apply Hlast; lia.
  - destruct (Z.ltb_spec attempt maxRetries) as [Hlt|Hge].
    2:{ assert (E : attempt = maxRetries) by lia.
        exists (Err (ErrAfterRetries maxRetries lastErr)), w, tr.
        split; [reflexivity |]. split; [lia |]. split.
        { rewrite Hsl, Hatt. f_equal. f_equal. lia. }
        split; [lia |]. exists lastErr. split; [done |]. intros; apply Hlast; lia. }
    destruct (fetch w) as [[candles|err] w'].
    + exists (Ok candles), w', (tr ++ [Attempted]).
      split; [reflexivity |]. rewrite attempts_app, sleeps_app. cbn.
      rewrite app_nil_r, Hsl. split; [lia |]. split; [| lia].
      f_equal. f_equal. lia.
    + rewrite sub_in_range by (unfold Int64.min_int, Int64.max_int in *; lia).
      rewrite add_in_range by (unfold Int64.min_int, Int64.max_int in *; lia).
      apply IH; try lia.
      * destruct (attempt <? maxRetries - 1)%Z;
          rewrite ?attempts_app; cbn; rewrite ?attempts_app; cbn; lia.
      * destruct (Z.ltb_spec attempt (maxRetries - 1)) as [Hs|Hs].
        -- rewrite !sleeps_app. cbn. rewrite app_nil_r, Hsl.
           replace (Z.min attempt (maxRetries - 1)) with attempt by lia.
           replace (Z.min (attempt + 1) (maxRetries - 1)) with (attempt + 1)%Z by lia.
           rewrite seqZ_app by lia. rewrite fmap_app. reflexivity.
        -- rewrite sleeps_app. cbn. rewrite app_nil_r, Hsl. f_equal. f_equal. lia.
      * intros _. done.
Qed.

Lemma retry_loop_run fuel maxRetries attempt lastErr w tr k last w1 :
  (0 <= attempt)%Z -> (attempt + Z.of_nat k <= maxRetries)%Z ->
  (maxRetries <= Int64.max_int)%Z ->
  (maxRetries - attempt <= Z.of_nat fuel)%Z ->
  after_failures fetch k lastErr w = Some (last, w1) ->
  (forall candles w2,
      (attempt + Z.of_nat k < maxRetries)%Z -> fetch w1 = (Ok candles, w2) ->
      retry_loop fetch fuel maxRetries attempt lastErr w tr
      = Done (Ok candles, w2,
              tr ++ failed_attempts maxRetries attempt k ++ [Attempted]))
  /\ ((attempt + Z.of_nat k = maxRetries)%Z ->
      retry_loop fetch fuel maxRetries attempt lastErr w tr
      = Done (Err (ErrAfterRetries maxRetries last), w1,
              tr ++ failed_attempts maxRetries attempt k)).
Proof.
  revert fuel attempt lastErr w tr.
  induction k as [|k IH]; intros fuel attempt lastErr w tr Ha Hk Hm Hf Hrun.
  - cbn in Hrun. injection Hrun as -> ->.
    unfold failed_attempts. cbn. split.
    + intros candles w2 Hlt Hfetch.
      destruct fuel as [|fuel]; [lia |]. cbn [retry_loop].
      destruct (Z.ltb_spec attempt maxRetries); [| lia].
      rewrite Hfetch. reflexivity.
    + intros Heq. rewrite app_nil_r.
      destruct fuel; cbn [retry_loop];
        destruct (Z.ltb_spec attempt maxRetries); (lia || reflexivity).
  - cbn [after_failures] in Hrun.
    destruct (fetch w) as [[candles|err] w'] eqn:Hfetch; [discriminate |].
    destruct fuel as [|fuel]; [lia |].
    assert (Hstep : failed_attempts maxRetries attempt (S k)
                    = (Attempted :: (if (attempt <? maxRetries - 1)%Z
                                     then [Slept (backoff attempt)] else []))
                      ++ failed_attempts maxRetries (attempt + 1) k).
    { unfold failed_attempts. rewrite seqZ_cons by lia. cbn [flat_map].
      do 3 f_equal; lia. }
    destruct (IH fuel (attempt + 1)%Z (Some err) w'
                (if (attempt <? maxRetries - 1)%Z
                 then (tr ++ [Attempted]) ++ [Slept (backoff attempt)]
                 else tr ++ [Attempted]))
      as [IH1 IH2]; try lia; [exact Hrun |].
    split.
    + intros candles w2 Hlt Hok. cbn [retry_loop].
      destruct (Z.ltb_spec attempt maxRetries); [| lia]. rewrite Hfetch.
      rewrite sub_in_range by (unfold Int64.min_int, Int64.max_int in *; lia).
      rewrite add_in_range by (unfold Int64.min_int, Int64.max_int in *; lia).
      rewrite (IH1 candles w2) by (lia || done). rewrite Hstep.
      destruct (attempt <? maxRetries - 1)%Z; cbn; rewrite <- !app_assoc; reflexivity.
    + intros Heq. cbn [retry_loop].
      destruct (Z.ltb_spec attempt maxRetries); [| lia]. rewrite Hfetch.
      rewrite sub_in_range by (unfold Int64.min_int, Int64.max_int in *; lia).
      rewrite add_in_range by (unfold Int64.min_int, Int64.max_int in *; lia).
      rewrite IH2 by lia. rewrite Hstep.
      destruct (attempt <? maxRetries - 1)%Z; cbn; rewrite <- !app_assoc; reflexivity.
Qed.

End RetrySchedule.

Lemma attempts_failed maxRetries attempt k :
  attempts (failed_attempts maxRetries attempt k) = k.
Proof.
  unfold failed_attempts. revert attempt.
  induction k as [|k IH]; intros attempt; [reflexivity |].
  rewrite seqZ_cons by lia. cbn [flat_map].
  change (Attempted :: ?l ++ ?r) with ([Attempted] ++ l ++ r).
  rewrite !attempts_app.
  replace (Z.pred (Z.of_nat (S k))) with (Z.of_nat k) by lia.
  rewrite IH. destruct (attempt <? maxRetries - 1)%Z; reflexivity.
Qed.

Lemma sleeps_failed maxRetries attempt k :
  (0 <= attempt)%Z ->
  sleeps (failed_attempts maxRetries attempt k)
  = backoff <$> seqZ attempt (Z.min (Z.of_nat k) (maxRetries - 1 - attempt)).
Proof.
  unfold failed_attempts. revert attempt.
  induction k as [|k IH]; intros attempt Ha.
  - rewrite (seqZ_nil attempt (Z.min _ _)) by lia. reflexivity.
  - rewrite seqZ_cons by lia. cbn [flat_map].
    change (Attempted :: ?l ++ ?r) with ([Attempted] ++ l ++ r).
    rewrite !sleeps_app.
    replace (Z.pred (Z.of_nat (S k))) with (Z.of_nat k) by lia.
    rewrite IH by lia. change (sleeps [Attempted]) with (@nil Z). cbn [app].
    destruct (Z.ltb_spec attempt (maxRetries - 1)) as [Hlt|Hge].
    + change (sleeps [Slept (backoff attempt)]) with [backoff attempt]. cbn [app].
      rewrite (seqZ_cons attempt) by lia. cbn [fmap list_fmap]. f_equal.
      f_equal. f_equal; lia.
    + change (sleeps []) with (@nil Z). cbn [app].
      rewrite !seqZ_nil by lia. reflexivity.
Qed.

Lemma after_failures_first_success {W : Type} (fetch : W -> result (list Candle) * W)
    (n : nat) (lastErr : option error) (w : W) :
  (exists k last w1 candles w2,
      (k < n)%nat /\ after_failures fetch k lastErr w = Some (last, w1)
      /\ fetch w1 = (Ok candles, w2))
  \/ (exists last w1, after_failures fetch n lastErr w = Some (last, w1)).
Proof.
  revert lastErr w. induction n as [|n IH]; intros lastErr w.
  - right. exists lastErr, w. reflexivity.
  - destruct (fetch w) as [[candles|err] w'] eqn:Hf.
    + left. exists 0%nat, lastErr, w, candles, w'. split; [lia |]. split; [reflexivity | exact Hf].
    + destruct (IH (Some err) w') as [(k & last & w1 & candles & w2 & Hk & Hrun & Hok)
                                     |(last & w1 & Hrun)].
      * left. exists (S k), last, w1, candles, w2. split; [lia |].
        split; [cbn [after_failures]; rewrite Hf; exact Hrun | exact Hok].
      * right. exists last, w1. cbn [after_failures]. rewrite Hf. exact Hrun.
Qed.

Lemma after_failures_last {W : Type} (fetch : W -> result (list Candle) * W)
    (k : nat) (lastErr last : option error) (w w1 : W) :
  after_failures fetch k lastErr w = Some (last, w1) ->
  (lastErr <> None \/ (0 < k)%nat) -> last <> None.
Proof.
  revert lastErr w. induction k as [|k IH]; intros lastErr w Hrun Hpos.
  - cbn in Hrun. injection Hrun as <- <-. destruct Hpos as [H|H]; [exact H | lia].
  - cbn [after_failures] in Hrun. destruct (fetch w) as [[candles|err] w']; [discriminate |].
    apply (IH _ _ Hrun). by left.
Qed.

(** X3: for every maxRetries from 0 up and whatever the upstream answers,
    FetchCandlesWithRetry returns, after some number k of failed attempts
    that is at most maxRetries: either k < maxRetries and the attempt
    after them succeeds, and it returns the candles of that attempt and
    leaves the upstream as that attempt left it; or k = maxRetries and it
    returns the error that wraps the error of the last of these attempts.
    What it does is, in this order and nothing else: the k failed
    attempts, each followed by a sleep of backoff(i) after attempt i
    except after attempt maxRetries - 1, then the successful attempt when
    there is one. So it makes at most maxRetries attempts, sleeps only
    between two attempts, and returns an error only after exactly
    maxRetries attempts. *)
Theorem retry_attempts_and_sleeps {W : Type} (fetch : W -> result (list Candle) * W)
    (maxRetries : Z) (w : W) :
  (0 <= maxRetries <= Int64.max_int)%Z ->
  exists r w' tr k last w1,
    FetchCandlesWithRetry fetch maxRetries w = Done (r, w', tr)
    /\ (Z.of_nat k <= maxRetries)%Z
    /\ after_failures fetch k None w = Some (last, w1)
    /\ tr = failed_attempts maxRetries 0 k ++ (if is_ok r then [Attempted] else [])
    /\ match r with
       | Ok candles =>
           (Z.of_nat k < maxRetries)%Z /\ fetch w1 = (Ok candles, w')
           /\ (1 <= attempts tr)%nat
       | Err e =>
           Z.of_nat k = maxRetries /\ w' = w1
           /\ e = ErrAfterRetries maxRetries last
           /\ ((0 < maxRetries)%Z -> last <> None)
           /\ Z.of_nat (attempts tr) = maxRetries
       end
    /\ (Z.of_nat (attempts tr) <= maxRetries)%Z
    /\ sleeps tr = backoff <$> seqZ 0 (Z.of_nat (attempts tr) - 1).
Proof.
  intros Hm. unfold FetchCandlesWithRetry.
  destruct (after_failures_first_success fetch (Z.to_nat maxRetries) None w)
    as [(k & last & w1 & candles & w2 & Hk & Hrun & Hok)|(last & w1 & Hrun)].
  - destruct (retry_loop_run fetch (Z.to_nat maxRetries) maxRetries 0 None w [] k last w1)
      as [H1 _]; try lia; [exact Hrun |].
    exists (Ok candles), w2, (failed_attempts maxRetries 0 k ++ [Attempted]), k, last, w1.
    split; [apply H1; [lia | exact Hok] |].
    rewrite attempts_app, sleeps_app, attempts_failed, sleeps_failed by lia.
    split; [lia |]. split; [exact Hrun |]. split; [reflexivity |].
    split; [split; [lia | split; [exact Hok | cbn; lia]] |].
    split; [cbn; lia |]. cbn. rewrite app_nil_r. f_equal. f_equal. lia.
  - destruct (retry_loop_run fetch (Z.to_nat maxRetries) maxRetries 0 None w []
                (Z.to_nat maxRetries) last w1) as [_ H2]; try lia; [exact Hrun |].
    exists (Err (ErrAfterRetries maxRetries last)), w1,
      (failed_attempts maxRetries 0 (Z.to_nat maxRetries)), (Z.to_nat maxRetries), last, w1.
    split; [rewrite H2 by lia; reflexivity |].
    rewrite attempts_failed, sleeps_failed by lia.
    split; [lia |]. split; [exact Hrun |]. split; [cbn; by rewrite app_nil_r |].
    split.
    { split; [lia |]. split; [reflexivity |]. split; [reflexivity |]. split; [| lia].
      intros Hpos. apply (after_failures_last fetch _ _ _ _ _ Hrun). right. lia. }
    split; [lia |]. f_equal. f_equal. lia.
Qed.

(** X4: when the first k attempts fail and the next one succeeds, with
    k < maxRetries, FetchCandlesWithRetry returns that success, after
    k + 1 attempts and k sleeps, backoff(0) to backoff(k-1), and leaves
    the upstream as that attempt left it; when the first maxRetries
    attempts all fail, it returns the error that wraps the error of the
    last of them, after maxRetries attempts and maxRetries - 1 sleeps. *)
Theorem retry_returns_first_success {W : Type} (fetch : W -> result (list Candle) * W)
    (maxRetries : Z) (k : nat) (w w1 : W) (last : option error) :
  (Z.of_nat k <= maxRetries <= Int64.max_int)%Z ->
  after_failures fetch k None w = Some (last, w1) ->
  (forall candles w2,
      (Z.of_nat k < maxRetries)%Z -> fetch w1 = (Ok candles, w2) ->
      exists tr,
        FetchCandlesWithRetry fetch maxRetries w = Done (Ok candles, w2, tr)
        /\ attempts tr = S k
        /\ sleeps tr = backoff <$> seqZ 0 (Z.of_nat k))
  /\ (Z.of_nat k = maxRetries ->
      exists tr,
        FetchCandlesWithRetry fetch maxRetries w
        = Done (Err (ErrAfterRetries maxRetries last), w1, tr)
        /\ attempts tr = k
        /\ sleeps tr = backoff <$> seqZ 0 (maxRetries - 1)).
Proof.
  intros Hm Hrun. unfold FetchCandlesWithRetry.
  destruct (retry_loop_run fetch (Z.to_nat maxRetries) maxRetries 0 None w [] k last w1)
    as [H1 H2]; try lia; [exact Hrun |].
  split.
  - intros candles w2 Hlt Hok. eexists. split; [apply H1; [lia | exact Hok] |].
    cbn [app]. rewrite attempts_app, sleeps_app, attempts_failed, sleeps_failed by lia.
    split; [cbn; lia |]. cbn. rewrite app_nil_r. f_equal. f_equal. lia.
  - intros Heq. eexists. split; [apply H2; lia |].
    cbn [app]. rewrite attempts_failed, sleeps_failed by lia.
    split; [reflexivity |]. f_equal. f_equal. lia.
Qed.

(** X5: the wait after the failed attempt n is 2^n seconds for every n
    from 0 to 33: up to there the shift and the product fit a 64-bit
    duration. *)
Theorem backoff_doubles (n : Z) :
  (0 <= n <= 33)%Z -> backoff n = (2 ^ n * Second)%Z.
Proof.
  intros Hn. unfold backoff, Int64.to_uint, Int64.shl, Int64.mul.
  rewrite (Z.mod_small n) by lia.
  destruct (Z.leb_spec 64 n); [lia |].
  rewrite Z.shiftl_mul_pow2 by lia. rewrite Z.mul_1_l.
  assert (Hp : (0 < 2 ^ n <= 2 ^ 33)%Z).
  { split; [apply Z.pow_pos_nonneg; lia | apply Z.pow_le_mono_r; lia]. }
  change (2 ^ 33)%Z with 8589934592%Z in Hp.
  rewrite (wrap64_in_range (2 ^ n))
    by (unfold Int64.in_range, Int64.min_int, Int64.max_int; lia).
  apply wrap64_in_range.
  unfold Int64.in_range, Int64.min_int, Int64.max_int, Second. lia.
Qed.

(** ** Decoding a window *)

Section Decoding.

Variable ParseFloat : string -> option float64.

Lemma store_members_app rc ms1 ms2 :
  store_members ParseFloat rc (ms1 ++ ms2)
  = match store_members ParseFloat rc ms1 with
    | Ok rc' => store_members ParseFloat rc' ms2
    | Err e => Err e
    end.
Proof.
  revert rc. induction ms1 as [|m ms1 IH]; intros rc; [reflexivity |].
  cbn [app store_members]. destruct (store_member ParseFloat rc m); [apply IH | reflexivity].
Qed.

Lemma store_member_keeps_T rc key v rc' :
  Json.selects key "t" = false ->
  store_member ParseFloat rc (key, v) = Ok rc' -> Raw.T rc' = Raw.T rc.
Proof.
  intros Hk. unfold store_member. destruct rc as [t o h l c vol n]. rewrite Hk.
  repeat match goal with
  | |- context [if ?b then _ else _] => destruct b
  | |- context [match ?r with Ok _ => _ | Err _ => _ end] => destruct r
  end; intros H; inversion H; reflexivity.
Qed.

Lemma store_members_keep_T rc ms rc' :
  Forall (fun m => Json.selects (fst m) "t" = false) ms ->
  store_members ParseFloat rc ms = Ok rc' -> Raw.T rc' = Raw.T rc.
Proof.
  intros Hall. revert rc. induction Hall as [|[key v] ms Hk _ IH]; intros rc; cbn [store_members].
  - intros H. inversion H. reflexivity.
  - destruct (store_member ParseFloat rc (key, v)) as [rc1|] eqn:E; [| discriminate].
    intros H. rewrite (IH _ H). eapply store_member_keeps_T; eauto.
Qed.

Lemma store_member_T rc key v rc' :
  Json.selects key "t" = true ->
  store_member ParseFloat rc (key, v) = Ok rc' ->
  Json.store_int v (Raw.T rc) = Ok (Raw.T rc').
Proof.
  intros Hk. unfold store_member. destruct rc as [t o h l c vol n]. rewrite Hk.
  cbn [Raw.T]. destruct (Json.store_int v t); intros H; inversion H. reflexivity.
Qed.

Lemma unmarshal_elements_lookup items rcs :
  unmarshal_elements ParseFloat items = Ok rcs ->
  length rcs = length items
  /\ forall i v, items !! i = Some v ->
       exists rc, unmarshal_candle ParseFloat v = Ok rc /\ rcs !! i = Some rc.
Proof.
  revert rcs. induction items as [|v items IH]; intros rcs; cbn [unmarshal_elements].
  - intros H. inversion H. split; [reflexivity |]. intros i v Hi. by destruct i.
  - destruct (unmarshal_candle ParseFloat v) as [rc|] eqn:Ev; [| discriminate].
    destruct (unmarshal_elements ParseFloat items) as [rcs'|]; [| discriminate].
    intros H. inversion H. subst rcs. destruct (IH rcs' eq_refl) as [Hl Hi].
    split; [cbn; lia |]. intros [|i] v' Hv'.
    + cbn in Hv'. inversion Hv'. subst v'. eauto.
    + cbn in Hv'. apply Hi in Hv'. exact Hv'.
Qed.

Lemma unmarshal_elements_bad items i v e :
  items !! i = Some v -> unmarshal_candle ParseFloat v = Err e ->
  exists e', unmarshal_elements ParseFloat items = Err e'.
Proof.
  revert i. induction items as [|v0 items IH]; intros i Hi Hv; [by destruct i |].
  cbn [unmarshal_elements]. destruct i as [|i].
  - cbn in Hi. inversion Hi. subst v0. rewrite Hv. eauto.
  - cbn in Hi. destruct (unmarshal_candle ParseFloat v0); [| eauto].
    destruct (IH i Hi Hv) as [e' ->]. eauto.
Qed.

(** X6: FetchCandles returns candles only for a reply with status 200
    whose body was read without error and holds null or a JSON array; for
    null it returns no candle, and for an array one candle for each
    element, in the order of the array, each the conversion of what the
    element decodes to. When one element of the array does not decode,
    the whole fetch is an error: no candle of the other elements is
    returned. *)
Theorem FetchCandles_all_or_nothing (reply : http_reply) :
  (forall candles,
      FetchCandles ParseFloat reply = Ok candles ->
      exists body,
        reply = Response StatusOK body
        /\ read_error body = None
        /\ ((document body = Some JNull /\ candles = [])
            \/ exists items,
                 document body = Some (JArray items)
                 /\ length candles = length items
                 /\ forall i v, items !! i = Some v ->
                      exists rc, unmarshal_candle ParseFloat v = Ok rc
                                 /\ candles !! i = Some (to_Candle rc)))
  /\ (forall status body items i v e,
        reply = Response status body ->
        document body = Some (JArray items) ->
        items !! i = Some v ->
        unmarshal_candle ParseFloat v = Err e ->
        exists err, FetchCandles ParseFloat reply = Err err).
Proof.
  split.
  - intros candles. unfold FetchCandles. destruct reply as [err|status body]; [discriminate |].
    destruct (Z.eqb_spec status StatusOK) as [->|]; [| discriminate]. cbn [negb].
    destruct (read_error body) eqn:Er; [discriminate |].
    destruct (Unmarshal_candles ParseFloat (document body)) as [rcs|] eqn:Eu; [| discriminate].
    intros H. inversion H. subst candles. exists body. split; [reflexivity |].
    split; [exact Er |].
    unfold Unmarshal_candles in Eu.
    destruct (document body) as [[]|]; try discriminate.
    + left. inversion Eu. done.
    + right. eexists. split; [reflexivity |].
      apply unmarshal_elements_lookup in Eu as [Hl Hi].
      split; [by rewrite length_map |].
      intros i v Hv. destruct (Hi i v Hv) as (rc & Hrc & Hlook).
      exists rc. split; [done |]. rewrite list_lookup_fmap, Hlook. reflexivity.
  - intros status body items i v e -> Hdoc Hi Hv. unfold FetchCandles.
    destruct (negb _); [eauto |]. destruct (read_error body); [eauto |].
    rewrite Hdoc. cbn [Unmarshal_candles].
    destruct (unmarshal_elements_bad items i v e Hi Hv) as [e' ->]. eauto.
Qed.

(** X7: the field tagged [t] is selected by a key of any case, so by [T]
    as well as by [t]; when an element has several such members, the
    Timestamp of its candle is the number of the last of them. *)
Theorem timestamp_last_member (ms1 ms2 : list (string * json)) (key lit : string)
    (z : Z) (rc : HyperliquidCandle) :
  unmarshal_candle ParseFloat (JObject (ms1 ++ (key, JNumber lit) :: ms2)) = Ok rc ->
  Json.selects key "t" = true ->
  Forall (fun m => Json.selects (fst m) "t" = false) ms2 ->
  Json.ParseInt lit = Some z ->
  Timestamp (to_Candle rc) = z.
Proof.
  cbn [unmarshal_candle]. rewrite store_members_app.
  destruct (store_members ParseFloat Raw.zero ms1) as [rc1|]; [| discriminate].
  cbn [store_members].
  destruct (store_member ParseFloat rc1 (key, JNumber lit)) as [rc2|] eqn:E2;
    [| discriminate].
  intros Hrest Hk Hall Hlit. cbn [to_Candle Timestamp].
  rewrite (store_members_keep_T _ _ _ Hall Hrest).
  apply (store_member_T _ _ _ _ Hk) in E2. cbn [Json.store_int] in E2.
  rewrite Hlit in E2. by inversion E2.
Qed.

End Decoding.

(** ** Fetching a window *)

Lemma foldName_eq_selects key name :
  Json.selects key name = true -> Json.foldName key = Json.foldName name.
Proof.
  unfold Json.selects. intros H. apply orb_true_iff in H as [H|H].
  - apply String.eqb_eq in H. by subst.
  - by apply String.eqb_eq in H.
Qed.

Lemma selects_exclusive key n1 n2 :
  Json.selects key n1 = true -> Json.foldName n1 <> Json.foldName n2 ->
  Json.selects key n2 = false.
Proof.
  intros H1 Hne. apply foldName_eq_selects in H1.
  destruct (Json.selects key n2) eqn:H2; [| reflexivity].
  apply foldName_eq_selects in H2. congruence.
Qed.

Ltac only_field H :=
  match type of H with
  | Json.selects ?key ?n1 = true =>
      rewrite ?H;
      repeat match goal with
      | |- context [Json.selects key ?n2] =>
          rewrite (selects_exclusive key n1 n2 H) by (vm_compute; discriminate)
      end
  end.

Lemma price_field_cases name :
  name ∈ price_fields ->
  name = "o" \/ name = "h" \/ name = "l" \/ name = "c" \/ name = "v".
Proof.
  unfold price_fields. intros H.
  repeat (apply elem_of_cons in H as [H|H]; [tauto |]).
  by apply elem_of_nil in H.
Qed.

Lemma is_price_inv key v :
  is_price (key, v) = true ->
  Json.selects key "o" = true \/ Json.selects key "h" = true
  \/ Json.selects key "l" = true \/ Json.selects key "c" = true
  \/ Json.selects key "v" = true.
Proof.
  unfold is_price. intros H. apply existsb_exists in H as (name & Hn & Hc).
  apply list_elem_of_In, price_field_cases in Hn. unfold carries in Hc. cbn [fst] in Hc.
  destruct Hn as [->|[->|[->|[->| ->]]]]; tauto.
Qed.

Lemma is_price_carries name m :
  name ∈ price_fields -> carries name m = true -> is_price m = true.
Proof.
  intros Hn Hc. unfold is_price. apply existsb_exists. exists name.
  split; [by apply list_elem_of_In | exact Hc].
Qed.

Lemma is_price_not_integer m : is_price m = true -> is_integer m = false.
Proof.
  destruct m as [key v]. intros H.
  cbv [is_integer carries fst].
  apply is_price_inv in H as [H|[H|[H|[H|H]]]]; only_field H; reflexivity.
Qed.

Section EncodingFacts.

Variable ParseFloat : string -> option float64.

(** A price or volume encoded as a number is refused, whatever the
    struct holds. *)
Lemma store_member_number_encoded rc m :
  number_encoded m = true ->
  store_member ParseFloat rc m = Err Json.invalid_string_tag.
Proof.
  destruct m as [key v]. unfold number_encoded. intros H.
  apply andb_true_iff in H as [Hp Hv]. cbn [snd] in Hv.
  destruct v; try discriminate.
  unfold store_member. destruct rc as [t o h l c vol n].
  apply is_price_inv in Hp as [Hp|[Hp|[Hp|[Hp|Hp]]]]; only_field Hp; reflexivity.
Qed.

Lemma store_members_number_encoded rc ms :
  existsb number_encoded ms = true ->
  exists e, store_members ParseFloat rc ms = Err e.
Proof.
  revert rc. induction ms as [|m ms IH]; intros rc H; [discriminate |].
  cbn [existsb] in H. cbn [store_members].
  destruct (store_member ParseFloat rc m) as [rc'|e] eqn:E; [| eauto].
  apply orb_true_iff in H as [H|H].
  - rewrite (store_member_number_encoded rc m H) in E. discriminate.
  - by apply IH.
Qed.

(** A member that is encoded as [string_encoded] says is stored. *)
Lemma store_member_string_encoded rc m :
  string_encoded ParseFloat m = true ->
  exists rc', store_member ParseFloat rc m = Ok rc'.
Proof.
  destruct m as [key v]. unfold string_encoded.
  destruct (is_price (key, v)) eqn:Hp.
  - destruct v as [| | |lit| |]; try discriminate. cbn [snd].
    intros H. apply andb_true_iff in H as [Hs Hf].
    destruct (ParseFloat lit) as [f|] eqn:Ef; [| discriminate].
    assert (Hst : forall old, Json.store_float_string ParseFloat (JString lit) old = Ok f).
    { intros old. apply store_float_string_string. by split. }
    unfold store_member. destruct rc as [t o h l c vol n].
    apply is_price_inv in Hp as [Hp|[Hp|[Hp|[Hp|Hp]]]]; only_field Hp; rewrite Hst; eauto.
  - destruct (is_integer (key, v)) eqn:Hi.
    + destruct v as [| |lit| | |]; try discriminate. cbn [snd].
      destruct (Json.ParseInt lit) as [z|] eqn:Ez; [| discriminate]. intros _.
      cbv [is_integer carries fst] in Hi.
      unfold store_member. destruct rc as [t o h l c vol n].
      destruct (Json.selects key "t") eqn:Ht.
      * unfold Json.store_int. rewrite Ez. eauto.
      * cbn [orb] in Hi. only_field Hi. unfold Json.store_int. rewrite Ez. eauto.
    + intros _.
      cbv [is_price is_integer carries price_fields existsb fst] in Hp, Hi.
      destruct (Json.selects key "t") eqn:Ht; [discriminate |].
      destruct (Json.selects key "n") eqn:Hn; [discriminate |].
      destruct (Json.selects key "o") eqn:Ho; [discriminate |].
      destruct (Json.selects key "h") eqn:Hh; [discriminate |].
      destruct (Json.selects key "l") eqn:Hl; [discriminate |].
      destruct (Json.selects key "c") eqn:Hc; [discriminate |].
      destruct (Json.selects key "v") eqn:Hv; [discriminate |].
      unfold store_member. destruct rc as [t o h l c vol n].
      rewrite Ht, Hn, Ho, Hh, Hl, Hc, Hv. eauto.
Qed.

Lemma store_members_string_encoded rc ms :
  forallb (string_encoded ParseFloat) ms = true ->
  exists rc', store_members ParseFloat rc ms = Ok rc'.
Proof.
  revert rc. induction ms as [|m ms IH]; intros rc H; cbn [store_members]; [eauto |].
  cbn [forallb] in H. apply andb_true_iff in H as [Hm H].
  destruct (store_member_string_encoded rc m Hm) as [rc' ->]. by apply IH.
Qed.

(** A member that does not carry a price or volume leaves it as it is. *)
Lemma store_member_keeps_price name rc m rc' :
  name ∈ price_fields -> carries name m = false ->
  store_member ParseFloat rc m = Ok rc' ->
  price name (to_Candle rc') = price name (to_Candle rc).
Proof.
  intros Hn. destruct m as [key v]. unfold carries. cbn [fst]. intros Hk.
  unfold store_member. destruct rc as [t o h l c vol n].
  apply price_field_cases in Hn as [->|[->|[->|[->| ->]]]]; rewrite Hk;
    repeat match goal with
    | |- context [if ?b then _ else _] => destruct b
    | |- context [match ?r with Ok _ => _ | Err _ => _ end] => destruct r
    end; intros H; inversion H; reflexivity.
Qed.

Lemma store_members_keep_price name rc ms rc' :
  name ∈ price_fields ->
  forallb (fun m => negb (carries name m)) ms = true ->
  store_members ParseFloat rc ms = Ok rc' ->
  price name (to_Candle rc') = price name (to_Candle rc).
Proof.
  intros Hn. revert rc. induction ms as [|m ms IH]; intros rc Hall; cbn [store_members].
  - intros H. inversion H. reflexivity.
  - cbn [forallb] in Hall. apply andb_true_iff in Hall as [Hm Hall].
    apply negb_true_iff in Hm.
    destruct (store_member ParseFloat rc m) as [rc1|] eqn:E; [| discriminate].
    intros H. rewrite (IH _ Hall H). by eapply store_member_keeps_price.
Qed.

(** A price or volume held in a string as a number literal is stored as
    the float ParseFloat reads in it. *)
Lemma store_member_price name rc key lit rc' :
  name ∈ price_fields -> Json.selects key name = true ->
  starts_number lit = true ->
  store_member ParseFloat rc (key, JString lit) = Ok rc' ->
  ParseFloat lit = Some (price name (to_Candle rc')).
Proof.
  intros Hn Hk Hs.
  assert (Hst : forall old,
    Json.store_float_string ParseFloat (JString lit) old
    = match ParseFloat lit with Some f => Ok f | None => Err Json.unmarshal_type_error end).
  { intros old. cbn [Json.store_float_string]. unfold Json.store_quoted_float.
    destruct lit as [|ch lit']; [discriminate |]. cbn [starts_number] in Hs.
    destruct (Ascii.eqb ch "n") eqn:En.
    - apply Ascii.eqb_eq in En. subst ch. discriminate.
    - rewrite Hs. reflexivity. }
  unfold store_member. destruct rc as [t o h l c vol n].
  apply price_field_cases in Hn as [->|[->|[->|[->| ->]]]]; only_field Hk;
    rewrite Hst; destruct (ParseFloat lit); intros H; inversion H; reflexivity.
Qed.

Lemma string_encoded_price name key lit :
  name ∈ price_fields -> Json.selects key name = true ->
  string_encoded ParseFloat (key, JString lit) = true ->
  starts_number lit = true.
Proof.
  intros Hn Hk. unfold string_encoded.
  rewrite (is_price_carries name (key, JString lit) Hn Hk). cbn [snd].
  intros H. by apply andb_true_iff in H as [Hs _].
Qed.

End EncodingFacts.

Lemma unmarshal_elements_string_encoded (ParseFloat : string -> option float64) items :
  forallb (string_encoded_element ParseFloat) items = true ->
  exists rcs, unmarshal_elements ParseFloat items = Ok rcs.
Proof.
  induction items as [|v items IH]; intros H; cbn [unmarshal_elements]; [eauto |].
  cbn [forallb] in H. apply andb_true_iff in H as [Hv H].
  destruct v as [| | | | |ms]; try discriminate. cbn [string_encoded_element] in Hv.
  cbn [unmarshal_candle].
  destruct (store_members_string_encoded ParseFloat Raw.zero ms Hv) as [rc ->].
  destruct (IH H) as [rcs ->]. eauto.
Qed.

(** C5, amended: take a payload that is an array of objects, the members
    of an object in any order and any number. When in every element every
    member that carries a price or a volume (a key that selects o, h, l, c
    or v) is a JSON string holding a number literal that ParseFloat reads,
    and every member that carries the timestamp or the trade count (t, n)
    is a JSON number whose literal is an integer of 64 bits, the payload
    is parsed: one candle for each element, and each price and volume of a
    candle is the float that ParseFloat reads in the literal of the last
    member of its element that carries it (zero when no member does). A
    payload in which some element carries a price or a volume as a JSON
    number is rejected with a parse error, whatever its other members
    are. *)
Theorem C5_string_encoded_fields (ParseFloat : string -> option float64)
    (items : list json) (body : http_body) :
  read_error body = None ->
  text body = Json (JArray items) ->
  (forallb (string_encoded_element ParseFloat) items = true ->
   exists candles,
     FetchCandles ParseFloat (Response StatusOK body) = Ok candles
     /\ length candles = length items
     /\ forall i ms c name,
          items !! i = Some (JObject ms) -> candles !! i = Some c ->
          name ∈ price_fields ->
          (forall ms1 key lit ms2,
              ms = ms1 ++ (key, JString lit) :: ms2 ->
              Json.selects key name = true ->
              forallb (fun m => negb (carries name m)) ms2 = true ->
              ParseFloat lit = Some (price name c))
          /\ (forallb (fun m => negb (carries name m)) ms = true ->
              price name c = 0%float))
  /\ (existsb has_number_encoded items = true ->
      exists e, FetchCandles ParseFloat (Response StatusOK body) = Err (ErrParseResponse e)).
Proof.
  intros Hread Htext.
  assert (Hrun : FetchCandles ParseFloat (Response StatusOK body)
                 = match unmarshal_elements ParseFloat items with
                   | Ok rcs => Ok (map to_Candle rcs)
                   | Err e => Err (ErrParseResponse e)
                   end).
  { unfold FetchCandles, document. cbn. rewrite Hread, Htext. reflexivity. }
  rewrite Hrun. split.
  - intros Hall.
    destruct (unmarshal_elements_string_encoded ParseFloat items Hall) as [rcs Hrcs].
    rewrite Hrcs. exists (map to_Candle rcs). split; [reflexivity |].
    destruct (unmarshal_elements_lookup ParseFloat items rcs Hrcs) as [Hlen Hlook].
    split; [by rewrite length_map |].
    intros i ms c name Hi Hc Hn.
    destruct (Hlook i (JObject ms) Hi) as (rc & Hrc & Hrci).
    rewrite list_lookup_fmap, Hrci in Hc. injection Hc as <-.
    cbn [unmarshal_candle] in Hrc.
    assert (Hms : forallb (string_encoded ParseFloat) ms = true).
    { rewrite forallb_forall in Hall.
      apply (Hall (JObject ms)). apply list_elem_of_In.
      eapply list_elem_of_lookup_2; eauto. }
    split.
    + intros ms1 key lit ms2 -> Hk Hlast.
      rewrite store_members_app in Hrc.
      destruct (store_members ParseFloat Raw.zero ms1) as [rc1|]; [| discriminate].
      cbn [store_members] in Hrc.
      destruct (store_member ParseFloat rc1 (key, JString lit)) as [rc2|] eqn:E2;
        [| discriminate].
      rewrite (store_members_keep_price ParseFloat name rc2 ms2 rc Hn Hlast Hrc).
      apply (store_member_price ParseFloat name rc1 key lit rc2 Hn Hk); [| exact E2].
      apply (string_encoded_price ParseFloat name key lit Hn Hk).
      rewrite forallb_app in Hms. apply andb_true_iff in Hms as [_ Hms].
      cbn [forallb] in Hms. by apply andb_true_iff in Hms as [Hms _].
    + intros Hnone.
      rewrite (store_members_keep_price ParseFloat name Raw.zero ms rc Hn Hnone Hrc).
      apply price_field_cases in Hn as [->|[->|[->|[->| ->]]]]. all: reflexivity.
  - intros Hnum. apply existsb_exists in Hnum as (v & Hv & Hnum).
    apply list_elem_of_In, list_elem_of_lookup in Hv as [i Hi].
    destruct v as [| | | | |ms]; try discriminate. cbn [has_number_encoded] in Hnum.
    destruct (store_members_number_encoded ParseFloat Raw.zero ms Hnum) as [e He].
    destruct (unmarshal_elements_bad ParseFloat items i (JObject ms) e Hi He) as [e' ->].
    eauto.
Qed.

Lemma C5_witness :
  exists c,
    FetchCandles ParseFloat_ex (Response StatusOK (body_ex (JArray [upstream_element_ex])))
    = Ok [c]
    /\ Open c = 1.5%float /\ Low c = (-3)%float.
Proof.
  destruct (proj1 (C5_string_encoded_fields ParseFloat_ex [upstream_element_ex]
                     (body_ex (JArray [upstream_element_ex])) eq_refl eq_refl) eq_refl)
    as (candles & Hrun & Hlen & Hval).
  destruct candles as [|c [|c' candles]]; try discriminate Hlen.
  exists c. split; [exact Hrun |].
  split.
  - assert (Hin : "o" ∈ price_fields) by (apply list_elem_of_In; cbn; tauto).
    destruct (Hval 0%nat _ c "o" eq_refl eq_refl Hin) as [Ho _].
    specialize (Ho [("t", JNumber "1700000000000"); ("T", JNumber "1700003599999");
                    ("s", JString "BTC"); ("i", JString "1h")]
                   "o" "1.5"
                   [("c", JString "2.5"); ("h", JString "2.5");
                    ("l", JString "-3"); ("v", JString "1.5"); ("n", JNumber "42")]
                   eq_refl eq_refl eq_refl).
    injection Ho as Ho. symmetry. exact Ho.
  - assert (Hin : "l" ∈ price_fields) by (apply list_elem_of_In; cbn; tauto).
    destruct (Hval 0%nat _ c "l" eq_refl eq_refl Hin) as [Hl _].
    specialize (Hl [("t", JNumber "1700000000000"); ("T", JNumber "1700003599999");
                    ("s", JString "BTC"); ("i", JString "1h");
                    ("o", JString "1.5"); ("c", JString "2.5"); ("h", JString "2.5")]
                   "l" "-3"
                   [("v", JString "1.5"); ("n", JNumber "42")]
                   eq_refl eq_refl eq_refl).
    injection Hl as Hl. symmetry. exact Hl.
Defined.

Lemma denotes_wire_ex : denotes ParseFloat_ex wire_ex raw_ex.
Proof. repeat split. Defined.

(** The claim as stated fails on a number-encoded field: the literal 1.5
    is one ParseFloat reads, and the payload is rejected. *)
Lemma C5_counterexample :
  denotes ParseFloat_ex wire_number_ex raw_ex
  /\ fst (wire_o wire_number_ex) = AsNumber
  /\ FetchCandles ParseFloat_ex
       (Response StatusOK (body_ex (JArray [wire_json wire_number_ex])))
     = Err (ErrParseResponse Json.invalid_string_tag).
Proof. repeat split. Qed.

(** ** Steps of a cycle *)

Lemma run_steps_app env s1 s2 w :
  run_steps env (s1 ++ s2) w = run_steps env s2 (run_steps env s1 w).
Proof. unfold run_steps. apply fold_left_app. Qed.

Section CycleSteps.

Variable env : Env.
Variable a : CandleFetcherActor.

Lemma series_only_app s1 s2 :
  series_only s1 -> series_only s2 -> series_only (s1 ++ s2).
Proof. unfold series_only. rewrite forallb_app. intros -> ->. reflexivity. Qed.

Lemma store_result_steps res sc w :
  exists steps,
    snd (store_result env res sc w) = run_steps env steps w /\ series_only steps.
Proof.
  unfold store_result. destruct (res_err res) as [err|].
  - exists [StepEmit (Logged (LogFetchFailed (res_symbol res) err)); StepSet (res_symbol res) []].
    split; reflexivity.
  - exists [StepSet (res_symbol res) (res_candles res)]. split; reflexivity.
Qed.

Lemma collect_steps n inflight sc w sc' w' :
  collect env n inflight sc w = Some (sc', w') ->
  exists steps, w' = run_steps env steps w /\ series_only steps.
Proof.
  revert inflight sc w. induction n as [|n IH]; intros inflight sc w Hrun; cbn [collect] in Hrun.
  - injection Hrun as <- <-. exists []. split; reflexivity.
  - unfold receive in Hrun. destruct inflight as [|r0 rest]; [discriminate |].
    destruct ((r0 :: rest) !! (arrival env (recvs w) mod length (r0 :: rest))%nat)
      as [res|]; [| discriminate].
    destruct (store_result_steps res sc
                {| cache := cache w; ticks := ticks w; recvs := S (recvs w); trace := trace w |})
      as (s1 & Hs1 & Ho1).
    destruct (store_result env res sc _) as [sc1 w1] eqn:Hst. cbn [snd] in Hs1.
    destruct (IH _ _ _ Hrun) as (s2 & Hs2 & Ho2).
    exists (StepRecv :: s1 ++ s2). split.
    + rewrite Hs2, Hs1. change (StepRecv :: s1 ++ s2) with ([StepRecv] ++ s1 ++ s2).
      rewrite !run_steps_app. reflexivity.
    + apply (series_only_app [StepRecv]); [reflexivity |]. by apply series_only_app.
Qed.

Lemma process_batch_steps st et total cur i batch sc w sc' w' :
  process_batch env a st et total cur i batch sc w = Done (sc', w') ->
  exists steps, w' = run_steps env steps w /\ series_only steps.
Proof.
  unfold process_batch. rewrite launch_done. cbn [and_then].
  destruct (collect env _ _ _ _) as [[sc1 w1]|] eqn:Hc; [| discriminate].
  apply collect_steps in Hc as (s1 & -> & Ho1).
  destruct (cur <? total)%Z; intros [= <- <-].
  - exists ([StepEmit (Logged (LogFetchingBatch cur total (len batch)));
             StepEmit (FanOut batch)] ++ s1 ++ [StepEmit (Paused (batchDelay a))]).
    split; [by rewrite !run_steps_app |].
    apply series_only_app; [reflexivity |]. by apply series_only_app.
  - exists ([StepEmit (Logged (LogFetchingBatch cur total (len batch)));
             StepEmit (FanOut batch)] ++ s1).
    split; [by rewrite !run_steps_app |].
    by apply series_only_app.
Qed.

Lemma batch_loop_steps fuel syms st et total batchIdx sc w sc' w' :
  batch_loop env a fuel syms st et total batchIdx sc w = Done (sc', w') ->
  exists steps, w' = run_steps env steps w /\ series_only steps.
Proof.
  revert batchIdx sc w. induction fuel as [|fuel IH]; intros batchIdx sc w; cbn [batch_loop].
  - destruct (batchIdx <? len syms)%Z; [discriminate |].
    intros [= <- <-]. exists []. split; reflexivity.
  - destruct (batchIdx <? len syms)%Z.
    2:{ intros [= <- <-]. exists []. split; reflexivity. }
    destruct (slice syms batchIdx _) as [batch|]; [| discriminate].
    destruct (batchSize a =? 0)%Z; [discriminate |].
    destruct (process_batch env a st et total _ _ batch sc w) as [[sc1 w1]| | |] eqn:Hp;
      cbn [and_then]; try discriminate.
    apply process_batch_steps in Hp as (s1 & -> & Ho1).
    cbn [fst snd]. intros Hrun. apply IH in Hrun as (s2 & -> & Ho2).
    exists (s1 ++ s2). split; [by rewrite run_steps_app | by apply series_only_app].
Qed.

(** A cycle that returns is a sequence of steps none of which writes the
    identifier list. *)
Lemma fetchAllCandles_steps w w' :
  fetchAllCandles env a w = Done w' ->
  exists steps, w' = run_steps env steps w /\ series_only steps.
Proof.
  unfold fetchAllCandles. destruct (len (GetSymbols (cache w)) =? 0)%Z.
  { intros [= <-]. exists [StepEmit (Logged LogNoSymbols)]. split; reflexivity. }
  unfold time_range, Now. cbn [ticks cache recvs trace log emit fst snd].
  destruct (batchSize a =? 0)%Z; [discriminate |].
  match goal with
  | |- context [batch_loop env a ?f ?syms ?st ?et ?tot 0 0 ?w0] =>
      destruct (batch_loop env a f syms st et tot 0 0 w0) as [[sc1 w1]| | |] eqn:Hl;
        cbn [and_then]; try discriminate
  end.
  apply batch_loop_steps in Hl as (s1 & -> & Ho1). intros [= <-].
  exists ([StepEmit (Logged (LogFoundSymbols (len (GetSymbols (cache w)))));
           StepNow; StepNow] ++ s1
          ++ [StepEmit (Logged (LogBatchesComplete
                (Int64.quot (Int64.sub (Int64.add (len (GetSymbols (cache w))) (batchSize a)) 1)
                   (batchSize a)) sc1));
              StepEmit (Logged (LogCached sc1 (len (GetSymbols (cache w)))))]).
  split; [by rewrite !run_steps_app |].
  apply series_only_app; [reflexivity |]. by apply series_only_app.
Qed.

End CycleSteps.

(** Steps that do not write the identifier list leave it and its
    timestamp as they are, and delete no series. *)
Lemma run_steps_series_only env steps w :
  series_only steps ->
  symbols (cache (run_steps env steps w)) = symbols (cache w)
  /\ symbolUpdate (cache (run_steps env steps w)) = symbolUpdate (cache w)
  /\ forall k, is_Some (data (cache w) !! k) ->
               is_Some (data (cache (run_steps env steps w)) !! k).
Proof.
  revert w. induction steps as [|s steps IH]; intros w Ho; [done |].
  unfold series_only in Ho. cbn [forallb] in Ho. apply andb_true_iff in Ho as [Hs Ho].
  change (run_steps env (s :: steps) w) with (run_steps env steps (run_step env w s)).
  destruct (IH (run_step env w s) Ho) as (-> & -> & Hk).
  destruct s as [k0 v| | | |]; try discriminate; cbn; (split; [done |]); (split; [done |]);
    intros k Hin; apply Hk; cbn; try done.
  destruct (decide (k0 = k)) as [->|Hne].
  - rewrite lookup_insert_eq. eauto.
  - by rewrite lookup_insert_ne.
Qed.

Section CycleCache.

Variable env : Env.
Variable a : CandleFetcherActor.

Lemma fetchAllCandles_ticks w :
  GetSymbols (cache w) <> [] ->
  (0 < batchSize a <= Int64.max_int)%Z ->
  (len (GetSymbols (cache w)) < 2 ^ 62)%Z ->
  exists order w',
    order ≡ₚ jobs env a 0 (GetSymbols (cache w)) (fst (window env a w)) (snd (window env a w))
    /\ fetchAllCandles env a w = Done w'
    /\ cache w' = apply_writes env (S (S (ticks w))) order (cache w)
    /\ ticks w' = (S (S (ticks w)) + 2 * length order)%nat.
Proof.
  intros Hne HB Hn. unfold fetchAllCandles, window.
  set (syms := GetSymbols (cache w)) in *.
  destruct (Z.eqb_spec (len syms) 0) as [H0|_].
  { destruct syms; [done | unfold len in H0; cbn in H0; lia]. }
  destruct (Z.eqb_spec (batchSize a) 0) as [|_]; [lia |].
  unfold time_range, Now. cbn [ticks cache recvs trace log emit fst snd].
  match goal with
  | |- context [batch_loop env a ?f syms ?st ?et ?tot 0 0 ?w0] =>
      destruct (batch_loop_spec env a syms st et tot HB Hn f 0%Z 0%Z w0)
        as (order & w' & Hp & Hrun & Hc & Ht & _)
  end.
  - unfold Int64.max_int. lia.
  - intros _. lia.
  - unfold len. lia.
  - lia.
  - change (Z.to_nat 0) with 0%nat. rewrite drop_0.
    unfold len, Int64.max_int in *. lia.
  - change (Z.to_nat 0) with 0%nat in *. cbn [drop] in *.
    rewrite Hrun. cbn [and_then]. exists order. eexists.
    split; [exact Hp |]. split; [reflexivity |].
    cbn [cache ticks trace log emit] in *. split; [exact Hc | exact Ht].
Qed.

Lemma apply_writes_lastUpdate t order c :
  order <> [] ->
  lastUpdate (apply_writes env t order c) = clock env (t + 2 * length order - 1)%nat.
Proof.
  revert t c. induction order as [|r order IH]; intros t c Hne; [done |].
  cbn [apply_writes]. destruct order as [|r' order].
  - cbn. f_equal. lia.
  - rewrite IH by done. f_equal. cbn [length]. lia.
Qed.

Lemma apply_writes_entry X t order c :
  (exists r, r ∈ order /\ res_symbol r = X) ->
  exists entry k,
    data (apply_writes env t order c) !! X = Some entry
    /\ Symbol entry = X
    /\ (k < length order)%nat
    /\ LastUpdate entry = clock env (t + 2 * k)%nat.
Proof.
  revert t c. induction order as [|r order IH]; intros t c (r0 & Hin & Hsym).
  { by apply elem_of_nil in Hin. }
  cbn [apply_writes].
  destruct (decide (Exists (fun r' => res_symbol r' = X) order)) as [Hlater|Hnot];
    rewrite Exists_exists in *.
  - destruct (IH (S (S t)) (Set_ c (res_symbol r) (stored r) (clock env t) (clock env (S t)))
                Hlater) as (entry & k & Hl & Hs & Hk & Ht).
    exists entry, (S k). split; [exact Hl |]. split; [exact Hs |].
    split; [cbn; lia |]. rewrite Ht. f_equal. lia.
  - rewrite apply_writes_frame.
    2:{ intros r' Hr' Heq. apply Hnot. eauto. }
    apply elem_of_cons in Hin as [->|Hin]; [| exfalso; apply Hnot; eauto].
    unfold Set_. cbn [data]. rewrite Hsym, lookup_insert_eq.
    eexists _, 0%nat. split; [reflexivity |]. cbn. split; [done |].
    split; [lia |]. f_equal. lia.
Qed.

Lemma cycle_writes_listed_keys_aux (w : world) :
  GetSymbols (cache w) <> [] ->
  (0 < batchSize a <= Int64.max_int)%Z ->
  (len (GetSymbols (cache w)) < 2 ^ 62)%Z ->
  exists w',
    fetchAllCandles env a w = Done w'
    /\ GetSymbols (cache w') = GetSymbols (cache w)
    /\ (forall X, X ∉ GetSymbols (cache w) -> Get (cache w') X = Get (cache w) X)
    /\ (forall X, X ∈ GetSymbols (cache w) ->
          exists entry, Get (cache w') X = (entry, true) /\ Symbol entry = X).
Proof.
  intros Hne HB Hn.
  destruct (fetchAllCandles_ticks w Hne HB Hn) as (order & w' & Hp & Hrun & Hc & Ht).
  assert (Hin : forall X, (exists r, r ∈ order /\ res_symbol r = X)
                          <-> X ∈ GetSymbols (cache w)).
  { intros X. split.
    - intros (r & Hr & <-). rewrite Hp in Hr.
      apply elem_of_jobs in Hr as (k & sym & Hk & ->). rewrite job_symbol.
      eapply list_elem_of_lookup_2; eauto.
    - intros HX. apply list_elem_of_lookup in HX as [k Hk].
      exists (job env a (0 + k) X (fst (window env a w)) (snd (window env a w))).
      split; [| apply job_symbol]. rewrite Hp. apply elem_of_jobs. eauto. }
  exists w'. split; [exact Hrun |]. split; [| split].
  - unfold GetSymbols. rewrite Hc. apply apply_writes_symbols.
  - intros X HX. unfold Get. rewrite Hc, apply_writes_frame; [reflexivity |].
    intros r Hr Heq. apply HX, Hin. eauto.
  - intros X HX. apply Hin in HX.
    destruct (apply_writes_entry X (S (S (ticks w))) order (cache w) HX)
      as (entry & k & Hl & Hs & _).
    exists entry. unfold Get. rewrite Hc, Hl. done.
Qed.

(** X9: a cycle over a non-empty list of N identifiers returns; the
    entry of every key outside the list is as it was; every key of the
    list has an entry, which names the key and carries the time that one
    of the N calls of Set read first; and the data timestamp is the time
    that the last of these calls read second. (Of the calls of time.Now()
    that the cycle makes, the two of the window come first and two follow
    for each result stored.) *)
Theorem cycle_writes_listed_keys (w : world) :
  GetSymbols (cache w) <> [] ->
  (0 < batchSize a <= Int64.max_int)%Z ->
  (len (GetSymbols (cache w)) < 2 ^ 62)%Z ->
  exists w',
    fetchAllCandles env a w = Done w'
    /\ GetLastUpdate (cache w')
       = clock env (ticks w + 2 * length (GetSymbols (cache w)) + 1)%nat
    /\ (forall X, X ∉ GetSymbols (cache w) -> Get (cache w') X = Get (cache w) X)
    /\ (forall X, X ∈ GetSymbols (cache w) ->
          exists entry k,
            Get (cache w') X = (entry, true)
            /\ Symbol entry = X
            /\ (k < length (GetSymbols (cache w)))%nat
            /\ LastUpdate entry = clock env (ticks w + 2 + 2 * k)%nat).
Proof.
  intros Hne HB Hn.
  destruct (fetchAllCandles_ticks w Hne HB Hn) as (order & w' & Hp & Hrun & Hc & Ht).
  assert (Hlen : length order = length (GetSymbols (cache w)))
    by (rewrite Hp; apply length_jobs).
  assert (Hin : forall X, (exists r, r ∈ order /\ res_symbol r = X)
                          <-> X ∈ GetSymbols (cache w)).
  { intros X. split.
    - intros (r & Hr & <-). rewrite Hp in Hr.
      apply elem_of_jobs in Hr as (k & sym & Hk & ->). rewrite job_symbol.
      eapply list_elem_of_lookup_2; eauto.
    - intros HX. apply list_elem_of_lookup in HX as [k Hk].
      exists (job env a (0 + k) X (fst (window env a w)) (snd (window env a w))).
      split; [| apply job_symbol]. rewrite Hp. apply elem_of_jobs. eauto. }
  exists w'. split; [exact Hrun |]. split; [| split].
  - unfold GetLastUpdate. rewrite Hc, apply_writes_lastUpdate.
    + f_equal. lia.
    + intros ->. destruct (GetSymbols (cache w)); [done | discriminate Hlen].
  - intros X HX. unfold Get. rewrite Hc, apply_writes_frame; [reflexivity |].
    intros r Hr Heq. apply HX, Hin. eauto.
  - intros X HX. apply Hin in HX.
    destruct (apply_writes_entry X (S (S (ticks w))) order (cache w) HX)
      as (entry & k & Hl & Hs & Hk & Hlu).
    exists entry, k. unfold Get. rewrite Hc, Hl.
    split; [reflexivity |]. split; [exact Hs |]. split; [lia |].
    rewrite Hlu. f_equal. lia.
Qed.

(** X8: a cycle returns, over an empty list as well, and leaves the
    identifier list and its timestamp as they were; it removes no entry:
    a key that Get found before the cycle is found after it. *)
Theorem cycle_keeps_identifiers (w : world) :
  (0 < batchSize a <= Int64.max_int)%Z ->
  (len (GetSymbols (cache w)) < 2 ^ 62)%Z ->
  exists w',
    fetchAllCandles env a w = Done w'
    /\ GetSymbols (cache w') = GetSymbols (cache w)
    /\ GetSymbolUpdate (cache w') = GetSymbolUpdate (cache w)
    /\ forall symbol,
         snd (Get (cache w) symbol) = true -> snd (Get (cache w') symbol) = true.
Proof.
  intros HB Hn.
  assert (Hret : exists w', fetchAllCandles env a w = Done w').
  { destruct (decide (GetSymbols (cache w) = [])) as [Hs|Hs].
    - unfold fetchAllCandles. rewrite Hs. cbn. eauto.
    - destruct (fetchAllCandles_ticks w Hs HB Hn) as (order & w' & _ & Hrun & _).
      eauto. }
  destruct Hret as [w' Hrun]. exists w'. split; [exact Hrun |].
  apply fetchAllCandles_steps in Hrun as (steps & -> & Ho).
  destruct (run_steps_series_only env steps w Ho) as (Hs & Hu & Hk).
  split; [exact Hs |]. split; [exact Hu |].
  intros symbol. unfold Get.
  destruct (data (cache w) !! symbol) as [e|] eqn:He; [| discriminate]. intros _.
  destruct (Hk symbol) as [e' ->]; eauto.
Qed.

End CycleCache.

(** ** The trace of a cycle *)

Section Trace.

Variable env : Env.
Variable a : CandleFetcherActor.

Lemma process_batch_trace st et total cur i batch sc w :
  (0 <= sc)%Z -> (sc + len batch <= Int64.max_int)%Z ->
  exists order w',
    order ≡ₚ jobs env a i batch st et
    /\ process_batch env a st et total cur i batch sc w
       = Done ((sc + Z.of_nat (count_ok order))%Z, w')
    /\ trace w' = trace w ++ segment total (batchDelay a) cur batch order.
Proof.
  intros H0 H1. unfold process_batch. rewrite launch_done. cbn [and_then].
  set (w1 := emit (FanOut batch) (log (LogFetchingBatch cur total (len batch)) w)).
  assert (Hlen : length (jobs env a i batch st et) = length batch) by apply length_jobs.
  destruct (collect_spec env (length batch) (jobs env a i batch st et) sc w1 Hlen H0 H1)
    as (order & Hperm & ->).
  exists order. unfold segment.
  destruct (cur <? total)%Z; eexists; (split; [exact Hperm |]); (split; [reflexivity |]);
    subst w1; cbn; rewrite <- !app_assoc; cbn; try rewrite app_nil_r; reflexivity.
Qed.

Section Loop.

Variable syms : list string.
Variables st et total : Z.

Hypothesis HB : (0 < batchSize a <= Int64.max_int)%Z.
Hypothesis Hn : (len syms < 2 ^ 62)%Z.

Lemma batch_loop_trace fuel batchIdx sc w :
  (0 <= batchIdx <= Int64.max_int)%Z ->
  ((batchIdx < len syms)%Z -> (batchIdx + batchSize a <= Int64.max_int)%Z) ->
  (len syms - batchIdx <= Z.of_nat fuel)%Z ->
  (0 <= sc)%Z ->
  (sc + len (drop (Z.to_nat batchIdx) syms) <= Int64.max_int)%Z ->
  exists orders w',
    arrivals env a (Z.to_nat (batchSize a)) (Z.to_nat batchIdx) st et
      (chunk_fuel fuel (Z.to_nat (batchSize a)) (drop (Z.to_nat batchIdx) syms)) orders
    /\ batch_loop env a fuel syms st et total batchIdx sc w
       = Done ((sc + Z.of_nat (count_ok (concat orders)))%Z, w')
    /\ trace w'
       = trace w
         ++ segments total (batchDelay a) (batchIdx / batchSize a + 1)
              (chunk_fuel fuel (Z.to_nat (batchSize a)) (drop (Z.to_nat batchIdx) syms))
              orders.
Proof.
  revert batchIdx sc w.
  induction fuel as [|fuel IH]; intros batchIdx sc w Hidx Hov Hfuel Hsc0 Hsc1;
    cbn [batch_loop].
  - destruct (Z.ltb_spec batchIdx (len syms)); [lia |].
    rewrite drop_ge by (unfold len in *; lia).
    exists [], w. cbn. rewrite Z.add_0_r, app_nil_r. done.
  - destruct (Z.ltb_spec batchIdx (len syms)) as [Hlt|Hge].
    2:{ rewrite drop_ge by (unfold len in *; lia).
        exists [], w. cbn. rewrite Z.add_0_r, app_nil_r. done. }
    specialize (Hov Hlt).
    rewrite add_in_range by (unfold Int64.min_int; lia).
    rewrite slice_batch by lia.
    destruct (Z.eqb_spec (batchSize a) 0) as [|_]; [lia |].
    set (rest := drop (Z.to_nat batchIdx) syms) in *.
    set (Bn := Z.to_nat (batchSize a)).
    assert (Hrest : length rest = (length syms - Z.to_nat batchIdx)%nat)
      by (subst rest; apply length_drop).
    assert (Hlt' : (length (take Bn rest) <= length rest)%nat)
      by (rewrite length_take; lia).
    assert (Hcur : Int64.add (Int64.quot batchIdx (batchSize a)) 1
                   = (batchIdx / batchSize a + 1)%Z).
    { rewrite quot_in_range by lia. apply add_in_range.
      assert (batchIdx / batchSize a <= batchIdx)%Z by (apply Z.div_le_upper_bound; nia).
      pose proof (Z.div_pos batchIdx (batchSize a)).
      unfold Int64.min_int, Int64.max_int in *. lia. }
    rewrite Hcur.
    destruct (process_batch_trace st et total (batchIdx / batchSize a + 1)%Z
                (Z.to_nat batchIdx) (take Bn rest) sc w)
      as (o1 & w1 & Hp1 & -> & Ht1); [lia | |].
    { unfold len in *. lia. }
    cbn [and_then fst snd].
    assert (Ho1 : length o1 = length (take Bn rest))
      by (rewrite Hp1; apply length_jobs).
    pose proof (count_ok_le o1) as Hcnt.
    assert (Hdrop : drop (Z.to_nat (batchIdx + batchSize a)) syms = drop Bn rest).
    { subst rest Bn. rewrite drop_drop. f_equal. lia. }
    destruct (IH (batchIdx + batchSize a)%Z (sc + Z.of_nat (count_ok o1))%Z w1)
      as (os & w2 & Harr & -> & Ht2).
    + lia.
    + intros Hlt2. unfold Int64.max_int in *. lia.
    + lia.
    + lia.
    + rewrite Hdrop. unfold len in *. rewrite length_drop.
      rewrite length_take in *. lia.
    + rewrite Hdrop in *.
      assert (Hcf : chunk_fuel (S fuel) Bn rest
                    = take Bn rest :: chunk_fuel fuel Bn (drop Bn rest)).
      { destruct rest; [cbn in Hrest; unfold len in *; lia | reflexivity]. }
      rewrite Hcf.
      exists (o1 :: os), w2.
      split; [| split].
      * cbn [arrivals]. split; [exact Hp1 |].
        replace (Z.to_nat batchIdx + Bn)%nat
          with (Z.to_nat (batchIdx + batchSize a)) by (subst Bn; lia).
        exact Harr.
      * cbn [concat]. rewrite count_ok_app'. do 2 f_equal. lia.
      * rewrite Ht2, Ht1, <- app_assoc. f_equal. cbn [segments]. f_equal.
        replace (batchIdx + batchSize a)%Z with (1 * batchSize a + batchIdx)%Z by lia.
        rewrite Z.div_add_l by lia. f_equal. lia.
Qed.

End Loop.

Lemma fetchAllCandles_trace w :
  GetSymbols (cache w) <> [] ->
  (0 < batchSize a <= Int64.max_int)%Z ->
  (len (GetSymbols (cache w)) < 2 ^ 62)%Z ->
  exists orders w',
    arrivals env a (Z.to_nat (batchSize a)) 0 (fst (window env a w)) (snd (window env a w))
      (chunks (Z.to_nat (batchSize a)) (GetSymbols (cache w))) orders
    /\ fetchAllCandles env a w = Done w'
    /\ trace w'
       = trace w
         ++ [Logged (LogFoundSymbols (len (GetSymbols (cache w))))]
         ++ segments
              (Int64.quot (Int64.sub (Int64.add (len (GetSymbols (cache w)))
                                        (batchSize a)) 1) (batchSize a))
              (batchDelay a) 1
              (chunks (Z.to_nat (batchSize a)) (GetSymbols (cache w))) orders
         ++ [Logged (LogBatchesComplete
                       (Int64.quot (Int64.sub (Int64.add (len (GetSymbols (cache w)))
                                                 (batchSize a)) 1) (batchSize a))
                       (Z.of_nat (count_ok (concat orders))));
             Logged (LogCached (Z.of_nat (count_ok (concat orders)))
                       (len (GetSymbols (cache w))))].
Proof.
  intros Hne HB Hn. unfold fetchAllCandles, window.
  set (syms := GetSymbols (cache w)) in *.
  destruct (Z.eqb_spec (len syms) 0) as [H0|_].
  { destruct syms; [done | unfold len in H0; cbn in H0; lia]. }
  destruct (Z.eqb_spec (batchSize a) 0) as [|_]; [lia |].
  unfold time_range, Now. cbn [ticks cache recvs trace log emit fst snd].
  match goal with
  | |- context [batch_loop env a ?f syms ?st ?et ?tot 0 0 ?w0] =>
      destruct (batch_loop_trace syms st et tot HB Hn f 0%Z 0%Z w0)
        as (orders & w' & Harr & Hrun & Ht)
  end.
  - unfold Int64.max_int. lia.
  - intros _. lia.
  - unfold len. lia.
  - lia.
  - change (Z.to_nat 0) with 0%nat. rewrite drop_0.
    unfold len, Int64.max_int in *. lia.
  - change (Z.to_nat 0) with 0%nat in *. cbn [drop] in *.
    rewrite Z.div_0_l in Ht by lia.
    rewrite Hrun. cbn [and_then]. exists orders. eexists.
    split; [exact Harr |]. split; [reflexivity |].
    cbn [cache ticks trace log emit] in *. rewrite Ht.
    rewrite <- !app_assoc. reflexivity.
Qed.

End Trace.

Lemma pauses_of_app tr1 tr2 : pauses_of (tr1 ++ tr2) = pauses_of tr1 ++ pauses_of tr2.
Proof. apply omap_app. Qed.

Lemma pauses_of_events order : pauses_of (flat_map events_of order) = [].
Proof.
  induction order as [|r order IH]; [reflexivity |].
  cbn [flat_map]. rewrite pauses_of_app, IH, app_nil_r.
  unfold events_of. destruct (res_err r); reflexivity.
Qed.

Lemma pauses_of_segments total delay cur bs orders :
  length bs = length orders ->
  pauses_of (segments total delay cur bs orders)
  = replicate (Z.to_nat (Z.min (len bs) (total - cur))) delay.
Proof.
  revert cur orders. induction bs as [|b bs IH]; intros cur [|o orders] Hlen;
    try discriminate Hlen.
  - unfold len. cbn [length segments].
    replace (Z.to_nat (Z.min (Z.of_nat 0) (total - cur))) with 0%nat by lia. reflexivity.
  - cbn [segments]. rewrite pauses_of_app. unfold segment.
    rewrite !pauses_of_app, pauses_of_events. cbn [app].
    rewrite IH by (cbn in Hlen; lia).
    change (pauses_of [Logged (LogFetchingBatch cur total (len b)); FanOut b]) with (@nil Z).
    cbn [app]. unfold len. cbn [length].
    destruct (Z.ltb_spec cur total) as [Hlt|Hge].
    + change (pauses_of [Paused delay]) with [delay]. cbn [app].
      replace (Z.to_nat (Z.min (Z.of_nat (S (length bs))) (total - cur)))
        with (S (Z.to_nat (Z.min (Z.of_nat (length bs)) (total - (cur + 1))))) by lia.
      reflexivity.
    + change (pauses_of []) with (@nil Z). cbn [app].
      replace (Z.to_nat (Z.min (Z.of_nat (length bs)) (total - (cur + 1)))) with 0%nat by lia.
      replace (Z.to_nat (Z.min (Z.of_nat (S (length bs))) (total - cur))) with 0%nat by lia.
      reflexivity.
Qed.

Lemma arrivals_length env a B i st et bs orders :
  arrivals env a B i st et bs orders -> length bs = length orders.
Proof.
  revert i orders. induction bs as [|b bs IH]; intros i [|o orders] H;
    cbn in H; try done.
  destruct H as [_ H]. cbn. f_equal. eauto.
Qed.

Lemma arrivals_concat env a B i st et l fuel orders :
  (0 < B)%nat -> (length l <= fuel)%nat ->
  arrivals env a B i st et (chunk_fuel fuel B l) orders ->
  concat orders ≡ₚ jobs env a i l st et.
Proof.
  intros HB. revert i l orders.
  induction fuel as [|fuel IH]; intros i l orders Hl Harr.
  - destruct l; [| cbn in Hl; lia]. destruct orders; [reflexivity | done].
  - destruct l as [|x l].
    { destruct orders; [reflexivity | done]. }
    cbn [chunk_fuel] in Harr. destruct orders as [|o orders]; [done |].
    destruct Harr as [Ho Harr]. cbn [concat].
    apply IH in Harr; [| rewrite length_drop; cbn [length] in *; lia].
    transitivity (jobs env a i (take B (x :: l) ++ drop B (x :: l)) st et);
      [| by rewrite take_drop].
    rewrite jobs_app, Ho.
    destruct (decide (B <= length (x :: l))%nat) as [Hfull|Hshort].
    + rewrite length_take, Nat.min_l by done. rewrite Harr. reflexivity.
    + rewrite (drop_ge (x :: l) B) in * by lia.
      rewrite Harr. reflexivity.
Qed.

(** The number of batches the code computes, on Go's int. *)
Lemma totalBatches_spec (syms : list string) (B : Z) :
  syms <> [] -> (0 < B <= Int64.max_int)%Z -> (len syms < 2 ^ 62)%Z ->
  ((len syms + B - 1 <= Int64.max_int)%Z ->
   Int64.quot (Int64.sub (Int64.add (len syms) B) 1) B = len (chunks (Z.to_nat B) syms))
  /\ ((Int64.max_int < len syms + B - 1)%Z ->
      (Int64.quot (Int64.sub (Int64.add (len syms) B) 1) B <= 0)%Z
      /\ length (chunks (Z.to_nat B) syms) = 1%nat).
Proof.
  intros Hne HB Hn. set (Bn := Z.to_nat B).
  assert (HBn : (0 < Bn)%nat) by (subst Bn; lia).
  assert (Hpos : (0 < length syms)%nat) by (destruct syms; [done | cbn; lia]).
  pose proof (chunk_fuel_count (length syms) Bn syms HBn (le_n _)) as [Hc1 Hc2].
  fold (chunks Bn syms) in Hc1, Hc2.
  unfold Int64.quot, Int64.sub, Int64.add. rewrite wrap64_sub_wrap.
  split.
  - intros Hfit.
    assert (Hnn : (0 <= len syms + B - 1)%Z) by (unfold len; lia).
    rewrite (wrap64_in_range (len syms + B - 1))
      by (unfold Int64.in_range, Int64.min_int in *; lia).
    rewrite Z.quot_div_nonneg by lia.
    assert (Hq : (len (chunks Bn syms) = (len syms + B - 1) / B)%Z).
    { apply (Z.div_unique _ _ _ (len syms + B - 1 - B * len (chunks Bn syms))%Z); [| lia].
      left. unfold len. replace B with (Z.of_nat Bn) by (subst Bn; lia). nia. }
    rewrite <- Hq. apply wrap64_in_range.
    unfold Int64.in_range, Int64.min_int, Int64.max_int, len in *.
    replace B with (Z.of_nat Bn) in * by (subst Bn; lia). nia.
  - intros Hover. split.
    + assert (Hw : Int64.wrap64 (len syms + B - 1) = (len syms + B - 1 - 2 ^ 64)%Z).
      { unfold Int64.wrap64, Int64.max_int, len in *.
        replace (Z.of_nat (length syms) + B - 1 + 2 ^ 63)%Z
          with ((Z.of_nat (length syms) + B - 1 - 2 ^ 63) + 1 * 2 ^ 64)%Z by lia.
        rewrite Z.mod_add by lia. rewrite Z.mod_small; lia. }
      rewrite Hw.
      set (y := (2 ^ 64 - (len syms + B - 1))%Z).
      replace (len syms + B - 1 - 2 ^ 64)%Z with (- y)%Z by (subst y; lia).
      assert (Hy : (0 < y <= 2 ^ 63)%Z) by (subst y; unfold Int64.max_int, len in *; lia).
      rewrite Z.quot_opp_l by lia. rewrite Z.quot_div_nonneg by lia.
      pose proof (Z.div_pos y B ltac:(lia) ltac:(lia)).
      assert (y / B <= y)%Z by (apply Z.div_le_upper_bound; nia).
      rewrite wrap64_in_range; [lia |].
      unfold Int64.in_range, Int64.min_int, Int64.max_int. lia.
    + unfold len, Int64.max_int in *.
      assert (length syms <= Bn)%nat by (subst Bn; lia). nia.
Qed.

(** X10: the events of a cycle over a non-empty list come in this order:
    the line with the number of identifiers; then, batch after batch, the
    progress line of the batch, the launch of the goroutines of this batch,
    the handling of the results of exactly these goroutines, each once, in
    their order of arrival, and the pause when the batch is not the last;
    then the two summary lines, with the number of results that were
    successes. So no result of a batch is handled after the next batch is
    launched, and no goroutine of a batch is launched before the results
    of the batch before it are all stored. *)
Theorem cycle_events_in_order (env : Env) (a : CandleFetcherActor) (w : world) :
  GetSymbols (cache w) <> [] ->
  (0 < batchSize a <= Int64.max_int)%Z ->
  (len (GetSymbols (cache w)) < 2 ^ 62)%Z ->
  exists orders w',
    fetchAllCandles env a w = Done w'
    /\ arrivals env a (Z.to_nat (batchSize a)) 0
         (fst (window env a w)) (snd (window env a w))
         (chunks (Z.to_nat (batchSize a)) (GetSymbols (cache w))) orders
    /\ trace w'
       = trace w
         ++ [Logged (LogFoundSymbols (len (GetSymbols (cache w))))]
         ++ segments
              (Int64.quot (Int64.sub (Int64.add (len (GetSymbols (cache w)))
                                        (batchSize a)) 1) (batchSize a))
              (batchDelay a) 1
              (chunks (Z.to_nat (batchSize a)) (GetSymbols (cache w))) orders
         ++ [Logged (LogBatchesComplete
                       (Int64.quot (Int64.sub (Int64.add (len (GetSymbols (cache w)))
                                                 (batchSize a)) 1) (batchSize a))
                       (Z.of_nat (count_ok (concat orders))));
             Logged (LogCached (Z.of_nat (count_ok (concat orders)))
                       (len (GetSymbols (cache w))))]
    /\ concat orders
       ≡ₚ jobs env a 0 (GetSymbols (cache w))
            (fst (window env a w)) (snd (window env a w)).
Proof.
  intros Hne HB Hn.
  destruct (fetchAllCandles_trace env a w Hne HB Hn) as (orders & w' & Harr & Hrun & Ht).
  exists orders, w'. split; [exact Hrun |]. split; [exact Harr |]. split; [exact Ht |].
  eapply arrivals_concat; [| | exact Harr]; lia.
Qed.

(** X11: a cycle over a non-empty list pauses once after every batch but
    the last, each time for batchDelay: with k batches it pauses k - 1
    times, and not at all when one batch holds the whole list. *)
Theorem cycle_pauses (env : Env) (a : CandleFetcherActor) (w : world) :
  GetSymbols (cache w) <> [] ->
  (0 < batchSize a <= Int64.max_int)%Z ->
  (len (GetSymbols (cache w)) < 2 ^ 62)%Z ->
  exists w',
    fetchAllCandles env a w = Done w'
    /\ pauses_of (trace w')
       = pauses_of (trace w)
         ++ replicate (length (chunks (Z.to_nat (batchSize a)) (GetSymbols (cache w))) - 1)
              (batchDelay a).
Proof.
  intros Hne HB Hn.
  destruct (fetchAllCandles_trace env a w Hne HB Hn) as (orders & w' & Harr & Hrun & Ht).
  exists w'. split; [exact Hrun |].
  apply arrivals_length in Harr.
  rewrite Ht, !pauses_of_app, pauses_of_segments by exact Harr.
  change (pauses_of [Logged _]) with (@nil Z).
  change (pauses_of [Logged _; Logged _]) with (@nil Z).
  cbn [app]. rewrite app_nil_r. f_equal.
  set (bs := chunks (Z.to_nat (batchSize a)) (GetSymbols (cache w))) in *.
  destruct (totalBatches_spec (GetSymbols (cache w)) (batchSize a) Hne HB Hn) as [Hfit Hover].
  destruct (Z_le_gt_dec (len (GetSymbols (cache w)) + batchSize a - 1) Int64.max_int)
    as [Hle|Hgt].
  - rewrite (Hfit Hle). fold bs. f_equal. unfold len. lia.
  - destruct (Hover ltac:(lia)) as [Hneg Hone]. fold bs in Hone. f_equal.
    assert (Hone' : len bs = 1%Z) by (unfold len; rewrite Hone; reflexivity).
    rewrite Hone, Hone'. lia.
Qed.

(** ** The running program *)

Section Running.

Variable env : Env.
Variable Unmarshal_meta : option json -> result MetaResponse.

Lemma fetchSymbols_steps reply a w :
  exists steps,
    snd (SymbolFetcher.fetchSymbols env Unmarshal_meta reply a w) = run_steps env steps w
    /\ forallb (fun s => negb (writes_series s)) steps = true.
Proof.
  destruct (FetchPerpetualSymbols Unmarshal_meta reply) as [syms|err] eqn:Hf.
  - destruct syms as [|sym syms].
    + rewrite fetchSymbols_empty by done.
      exists [StepEmit (Logged LogFetchingSymbols); StepEmit (Logged LogEmptySymbolList)].
      split; [| reflexivity]. cbn. unfold emit. cbn. by rewrite <- app_assoc.
    + rewrite (fetchSymbols_discovered _ _ _ _ _ _ Hf) by done.
      exists [StepEmit (Logged LogFetchingSymbols);
              StepEmit (Logged (LogDiscovered (len (sym :: syms))));
              StepSetSymbols (sym :: syms)].
      split; [| reflexivity]. cbn. unfold cache_SetSymbols, emit. cbn.
      by rewrite <- !app_assoc.
  - destruct (SymbolFetcher.cachedSymbols a) as [|sym syms] eqn:Hc.
    + rewrite (fetchSymbols_failed_no_fallback _ _ _ _ _ _ Hf Hc).
      exists [StepEmit (Logged LogFetchingSymbols); StepEmit (Logged (LogSymbolsFailed err))].
      split; [| reflexivity]. cbn. unfold emit. cbn. by rewrite <- app_assoc.
    + rewrite (fetchSymbols_failed _ _ _ _ _ _ Hf) by (rewrite Hc; done).
      exists [StepEmit (Logged LogFetchingSymbols); StepEmit (Logged (LogSymbolsFailed err));
              StepEmit (Logged (LogUsingCachedSymbols (len (SymbolFetcher.cachedSymbols a))));
              StepSetSymbols (SymbolFetcher.cachedSymbols a)].
      split; [| reflexivity]. cbn. unfold cache_SetSymbols, emit. cbn.
      by rewrite <- !app_assoc.
Qed.

Lemma running_steps a w :
  running env Unmarshal_meta a w ->
  exists steps, w = run_steps env steps (world_of NewCache).
Proof.
  induction 1 as [r|reply a w Hr (steps & IH)|actor a w w' Hr (steps & IH) Hrun
                  |s a w Hr (steps & IH) Hs].
  - exists []. reflexivity.
  - destruct (fetchSymbols_steps reply a w) as (s1 & -> & _).
    exists (steps ++ s1). by rewrite run_steps_app, <- IH.
  - apply fetchAllCandles_steps in Hrun as (s1 & -> & _).
    exists (steps ++ s1). by rewrite run_steps_app, <- IH.
  - exists (steps ++ [s]). by rewrite run_steps_app, <- IH.
Qed.

Hypothesis Hclock : monotone env.

Lemma run_step_stamps w s : stamps_in_order env w -> stamps_in_order env (run_step env w s).
Proof.
  destruct Hclock as [Hzero Hmono].
  intros (He & Hd & Hs).
  destruct s as [k v|syms| | |e]; cbn; unfold stamps_in_order; cbn.
  - split; [| split].
    + intros k' e'. destruct (decide (k = k')) as [->|Hne].
      * rewrite lookup_insert_eq. intros [= <-]. cbn. apply Hmono. lia.
      * rewrite lookup_insert_ne by done. intros Hk.
        etransitivity; [by eapply He |]. apply Hd. lia.
    + intros n Hn. apply Hmono. lia.
    + intros n Hn. apply Hs. lia.
  - split; [exact He |]. split.
    + intros n Hn. apply Hd. lia.
    + intros n Hn. apply Hmono. lia.
  - split; [exact He |]. split; intros n Hn; [apply Hd | apply Hs]; lia.
  - done.
  - done.
Qed.

Lemma run_steps_stamps steps w :
  stamps_in_order env w -> stamps_in_order env (run_steps env steps w).
Proof.
  revert w. induction steps as [|s steps IH]; intros w Hw; [done |].
  apply (IH (run_step env w s)). by apply run_step_stamps.
Qed.

Lemma run_step_stamps_grow w s :
  stamps_in_order env w ->
  (lastUpdate (cache w) <= lastUpdate (cache (run_step env w s)))%Z
  /\ (symbolUpdate (cache w) <= symbolUpdate (cache (run_step env w s)))%Z.
Proof.
  intros (He & Hd & Hs).
  destruct s as [k v|syms| | |e]; cbn; try lia.
  - split; [apply Hd; lia | lia].
  - split; [lia | apply Hs; lia].
Qed.

Lemma run_steps_stamps_grow steps w :
  stamps_in_order env w ->
  (lastUpdate (cache w) <= lastUpdate (cache (run_steps env steps w)))%Z
  /\ (symbolUpdate (cache w) <= symbolUpdate (cache (run_steps env steps w)))%Z.
Proof.
  revert w. induction steps as [|s steps IH]; intros w Hw; [cbn; lia |].
  change (run_steps env (s :: steps) w) with (run_steps env steps (run_step env w s)).
  destruct (run_step_stamps_grow w s Hw).
  destruct (IH (run_step env w s) (run_step_stamps w s Hw)). lia.
Qed.

Lemma start_stamps : stamps_in_order env (world_of NewCache).
Proof.
  destruct Hclock as [Hzero Hmono]. unfold stamps_in_order. cbn.
  split; [intros k e; by rewrite lookup_empty |]. split; intros n _; apply Hzero.
Qed.

Lemma running_stamps a w : running env Unmarshal_meta a w -> stamps_in_order env w.
Proof.
  intros Hr. apply running_steps in Hr as (steps & ->).
  apply run_steps_stamps, start_stamps.
Qed.

End Running.

(** X12: a run of the identifier refresh, whatever the upstream replies,
    leaves every series and the data timestamp as they were: Get returns
    for every key what it returned before, so the entry of an identifier
    that is no longer listed stays in the cache; and the run makes no
    call of Set. *)
Theorem refresh_keeps_series (env : Env)
    (Unmarshal_meta : option json -> result MetaResponse)
    (reply : http_reply) (a : SymbolFetcher.SymbolFetcherActor) (w : world) :
  GetAll (cache (snd (SymbolFetcher.fetchSymbols env Unmarshal_meta reply a w)))
  = GetAll (cache w)
  /\ (forall symbol,
        Get (cache (snd (SymbolFetcher.fetchSymbols env Unmarshal_meta reply a w))) symbol
        = Get (cache w) symbol)
  /\ GetLastUpdate (cache (snd (SymbolFetcher.fetchSymbols env Unmarshal_meta reply a w)))
     = GetLastUpdate (cache w)
  /\ series_writes_of (trace (snd (SymbolFetcher.fetchSymbols env Unmarshal_meta reply a w)))
     = series_writes_of (trace w).
Proof.
  assert (Hdata :
    data (cache (snd (SymbolFetcher.fetchSymbols env Unmarshal_meta reply a w)))
    = data (cache w)
    /\ lastUpdate (cache (snd (SymbolFetcher.fetchSymbols env Unmarshal_meta reply a w)))
       = lastUpdate (cache w)
    /\ series_writes_of
         (trace (snd (SymbolFetcher.fetchSymbols env Unmarshal_meta reply a w)))
       = series_writes_of (trace w)).
  { destruct (FetchPerpetualSymbols Unmarshal_meta reply) as [syms|err] eqn:Hf.
    - destruct syms as [|sym syms].
      + rewrite fetchSymbols_empty by done. cbn.
        rewrite !series_writes_of_app. cbn. rewrite !app_nil_r. repeat split.
      + rewrite (fetchSymbols_discovered _ _ _ _ _ _ Hf) by done. cbn.
        rewrite !series_writes_of_app. cbn. rewrite !app_nil_r. repeat split.
    - destruct (SymbolFetcher.cachedSymbols a) as [|sym syms] eqn:Hc.
      + rewrite (fetchSymbols_failed_no_fallback _ _ _ _ _ _ Hf Hc). cbn.
        rewrite !series_writes_of_app. cbn. rewrite !app_nil_r. repeat split.
      + rewrite (fetchSymbols_failed _ _ _ _ _ _ Hf) by (rewrite Hc; done). cbn.
        rewrite !series_writes_of_app. cbn. rewrite !app_nil_r. repeat split. }
  destruct Hdata as (Hd & Hl & Hs).
  split; [exact Hd |]. split; [| split; [exact Hl | exact Hs]].
  intros symbol. unfold Get. rewrite Hd. reflexivity.
Qed.

(** X13: when the clock never runs backwards, in every state of the
    running program no entry carries a time later than the data
    timestamp; a cycle that returns leaves a data timestamp that is not
    earlier than the one before, and a run of the identifier refresh
    leaves an identifier timestamp that is not earlier than the one
    before. *)
Theorem timestamps_in_order (env : Env)
    (Unmarshal_meta : option json -> result MetaResponse)
    (a : SymbolFetcher.SymbolFetcherActor) (w : world) :
  monotone env ->
  running env Unmarshal_meta a w ->
  (forall symbol entry,
      Get (cache w) symbol = (entry, true) ->
      (LastUpdate entry <= GetLastUpdate (cache w))%Z)
  /\ (forall actor w',
        fetchAllCandles env actor w = Done w' ->
        (GetLastUpdate (cache w) <= GetLastUpdate (cache w'))%Z)
  /\ (forall reply,
        (GetSymbolUpdate (cache w)
         <= GetSymbolUpdate
              (cache (snd (SymbolFetcher.fetchSymbols env Unmarshal_meta reply a w))))%Z).
Proof.
  intros Hclock Hr. pose proof (running_stamps env Unmarshal_meta Hclock a w Hr) as Hst.
  split; [| split].
  - intros symbol entry. unfold Get.
    destruct (data (cache w) !! symbol) as [e|] eqn:He; [| discriminate].
    intros [= <-]. by apply (proj1 Hst symbol).
  - intros actor w' Hrun. apply fetchAllCandles_steps in Hrun as (steps & -> & _).
    apply (run_steps_stamps_grow env Hclock steps w Hst).
  - intros reply. destruct (fetchSymbols_steps env Unmarshal_meta reply a w) as (steps & -> & _).
    apply (run_steps_stamps_grow env Hclock steps w Hst).
Qed.

(** X14: in every state of the running program, whatever the replies of
    the upstream were and however the steps of the cycles fell between
    the runs of the identifier refresh, the identifier list of the cache
    is the fallback list of the symbol fetcher. *)
Theorem cache_holds_fallback (env : Env)
    (Unmarshal_meta : option json -> result MetaResponse)
    (a : SymbolFetcher.SymbolFetcherActor) (w : world) :
  running env Unmarshal_meta a w ->
  GetSymbols (cache w) = SymbolFetcher.cachedSymbols a.
Proof.
  induction 1 as [r|reply a w Hr IH|actor a w w' Hr IH Hrun|s a w Hr IH Hs].
  - reflexivity.
  - unfold GetSymbols in *.
    destruct (FetchPerpetualSymbols Unmarshal_meta reply) as [syms|err] eqn:Hf.
    + destruct syms as [|sym syms].
      * rewrite fetchSymbols_empty by done. exact IH.
      * rewrite (fetchSymbols_discovered _ _ _ _ _ _ Hf) by done. reflexivity.
    + destruct (SymbolFetcher.cachedSymbols a) as [|sym syms] eqn:Hc.
      * rewrite (fetchSymbols_failed_no_fallback _ _ _ _ _ _ Hf Hc). cbn. by rewrite IH.
      * rewrite (fetchSymbols_failed _ _ _ _ _ _ Hf) by (rewrite Hc; done). cbn. done.
  - apply fetchAllCandles_steps in Hrun as (steps & -> & Ho).
    unfold GetSymbols in *. rewrite <- IH.
    apply (run_steps_series_only env steps w Ho).
  - unfold GetSymbols in *. rewrite <- IH.
    apply (run_steps_series_only env [s] w).
    unfold series_only. cbn. by rewrite Hs.
Qed.

(** ** The read API *)

Lemma strip_app prefix s : Api.strip prefix (prefix ++ s)%string = Some s.
Proof.
  induction prefix as [|c prefix IH]; [reflexivity |].
  simpl. rewrite Ascii.eqb_refl. exact IH.
Qed.

Lemma TrimPrefix_app prefix s : Api.TrimPrefix (prefix ++ s)%string prefix = s.
Proof. unfold Api.TrimPrefix. by rewrite strip_app. Qed.

Lemma to_int_proper z :
  Z.to_int z <> Decimal.Pos Decimal.Nil /\ Z.to_int z <> Decimal.Neg Decimal.Nil.
Proof.
  destruct z as [|p|p]; cbn; split; try discriminate;
    intros [= H]; by apply Unsigned.to_uint_nonnil in H.
Qed.

Lemma FormatInt_inj a b : Api.FormatInt a = Api.FormatInt b -> a = b.
Proof.
  unfold Api.FormatInt. intros H.
  destruct (to_int_proper a) as [Ha1 Ha2]. destruct (to_int_proper b) as [Hb1 Hb2].
  pose proof (NilZero.isi _ Ha1 Ha2) as Ia. pose proof (NilZero.isi _ Hb1 Hb2) as Ib.
  rewrite H in Ia. rewrite Ia in Ib. injection Ib as Hab.
  rewrite <- (DecimalZ.of_to a), <- (DecimalZ.of_to b). by rewrite Hab.
Qed.

Lemma string_length_app (a s : string) :
  String.length (a ++ s)%string = (String.length a + String.length s)%nat.
Proof. induction a as [|c a IH]; [reflexivity |]. simpl. by rewrite IH. Qed.

Lemma append_inj_r (a b s : string) : (a ++ s = b ++ s)%string -> a = b.
Proof.
  intros H.
  assert (Hlen : String.length a = String.length b).
  { apply (f_equal String.length) in H. rewrite !string_length_app in H. lia. }
  revert b H Hlen. induction a as [|c a IH]; intros [|d b] H Hlen;
    try discriminate Hlen; [reflexivity |].
  cbn in H. injection H as -> H. f_equal. apply IH; [exact H |]. cbn in Hlen. lia.
Qed.

Lemma WriteHeader_spec code w :
  Api.header (Api.WriteHeader code w) = Api.header w
  /\ Api.statusCode (Api.WriteHeader code w) = Some (default code (Api.statusCode w))
  /\ Api.written (Api.WriteHeader code w) = Api.written w.
Proof. unfold Api.WriteHeader. destruct (Api.statusCode w) eqn:E; cbn; by rewrite ?E. Qed.

Lemma Write_spec p w :
  Api.header (Api.Write p w) = Api.header w
  /\ Api.statusCode (Api.Write p w) = Some (default StatusOK (Api.statusCode w))
  /\ Api.written (Api.Write p w) = Api.written w ++ [p].
Proof.
  unfold Api.Write. cbn.
  destruct (WriteHeader_spec StatusOK w) as (-> & -> & ->). done.
Qed.

Lemma Error_spec msg code w :
  Api.header (Api.Error msg code w)
  = <["X-Content-Type-Options" := "nosniff"]>
      (<["Content-Type" := "text/plain; charset=utf-8"]> (Api.header w))
  /\ Api.statusCode (Api.Error msg code w) = Some (default code (Api.statusCode w))
  /\ Api.written (Api.Error msg code w) = Api.written w ++ [Api.Text msg].
Proof.
  unfold Api.Error.
  destruct (Write_spec (Api.Text msg)
              (Api.WriteHeader code
                 (Api.Header_Set "X-Content-Type-Options" "nosniff"
                    (Api.Header_Set "Content-Type" "text/plain; charset=utf-8" w))))
    as (-> & -> & ->).
  destruct (WriteHeader_spec code
              (Api.Header_Set "X-Content-Type-Options" "nosniff"
                 (Api.Header_Set "Content-Type" "text/plain; charset=utf-8" w)))
    as (-> & -> & ->).
  cbn. destruct (Api.statusCode w); done.
Qed.

Section ApiFacts.

Variable ToUpper : string -> string.
Variable Unix : Time -> Z.
Variable marshal_error : Api.payload -> option error.

Lemma generateETag_inj t1 t2 :
  Api.generateETag Unix t1 = Api.generateETag Unix t2 <-> Unix t1 = Unix t2.
Proof.
  unfold Api.generateETag. split; [| by intros ->].
  unfold Api.quote. intros H.
  change (String (ascii_of_nat 34) (Api.FormatInt (Unix t1) +:+ String (ascii_of_nat 34) "")
          = String (ascii_of_nat 34) (Api.FormatInt (Unix t2) +:+ String (ascii_of_nat 34) ""))
    in H.
  injection H as H. apply append_inj_r in H. by apply FormatInt_inj.
Qed.

(** X15: the ETag that handleGetAllCandles sets on its answer to a GET is
    the quoted Unix second of the data timestamp it reads, also when the
    encoding fails; so two answers carry the same ETag exactly when their
    data timestamps fall in the same second, whatever the entries they
    hold. *)
Theorem etag_same_second (r : Api.Request) (c1 c1' c2 c2' : Cache) :
  Api.Method r = "GET" ->
  Api.header (Api.handleGetAllCandles Unix marshal_error r c1 c1' Api.newWriter) !! "ETag"
  = Some (Api.generateETag Unix (GetLastUpdate c1'))
  /\ (Api.header (Api.handleGetAllCandles Unix marshal_error r c1 c1' Api.newWriter) !! "ETag"
      = Api.header (Api.handleGetAllCandles Unix marshal_error r c2 c2' Api.newWriter) !! "ETag"
      <-> Unix (GetLastUpdate c1') = Unix (GetLastUpdate c2')).
Proof.
  intros Hm.
  assert (Hetag : forall c c',
    Api.header (Api.handleGetAllCandles Unix marshal_error r c c' Api.newWriter) !! "ETag"
    = Some (Api.generateETag Unix (GetLastUpdate c'))).
  { intros c c'. unfold Api.handleGetAllCandles, Api.Encode. rewrite Hm.
    replace (negb ("GET" =? "GET")%string) with false by reflexivity.
    destruct (marshal_error _).
    - rewrite (proj1 (Error_spec _ _ _)). cbn [Api.Header_Set Api.header].
      rewrite !lookup_insert_ne by done. apply lookup_insert_eq.
    - rewrite (proj1 (Write_spec _ _)). cbn [Api.Header_Set Api.header].
      apply lookup_insert_eq. }
  split; [apply Hetag |]. rewrite !Hetag. split.
  - intros H. exact (proj1 (generateETag_inj _ _) (inj Some _ _ H)).
  - intros H. f_equal. exact (proj2 (generateETag_inj _ _) H).
Qed.

Lemma handleGetSymbolCandles_cases (r : Api.Request) (c : Cache) :
  (Api.Method r <> "GET"
   /\ Api.handleGetSymbolCandles ToUpper Unix marshal_error r c Api.newWriter
      = Api.Error "Method not allowed" Api.StatusMethodNotAllowed Api.newWriter)
  \/ (Api.Method r = "GET"
      /\ ToUpper (Api.TrimPrefix (Api.Path r) "/api/candles/") = ""
      /\ Api.handleGetSymbolCandles ToUpper Unix marshal_error r c Api.newWriter
         = Api.Error "Symbol required" Api.StatusBadRequest Api.newWriter)
  \/ (Api.Method r = "GET"
      /\ ToUpper (Api.TrimPrefix (Api.Path r) "/api/candles/") <> ""
      /\ snd (Get c (ToUpper (Api.TrimPrefix (Api.Path r) "/api/candles/"))) = false
      /\ Api.handleGetSymbolCandles ToUpper Unix marshal_error r c Api.newWriter
         = Api.Error "Symbol not found" Api.StatusNotFound Api.newWriter)
  \/ (exists e,
        Api.Method r = "GET"
        /\ ToUpper (Api.TrimPrefix (Api.Path r) "/api/candles/") <> ""
        /\ Get c (ToUpper (Api.TrimPrefix (Api.Path r) "/api/candles/")) = (e, true)
        /\ ((marshal_error (Api.EntryJson e) <> None
             /\ Api.handleGetSymbolCandles ToUpper Unix marshal_error r c Api.newWriter
                = Api.Error "Internal server error" Api.StatusInternalServerError
                    (Api.Header_Set "ETag" (Api.generateETag Unix (LastUpdate e))
                       (Api.Header_Set "Content-Type" "application/json" Api.newWriter)))
            \/ (marshal_error (Api.EntryJson e) = None
                /\ Api.handleGetSymbolCandles ToUpper Unix marshal_error r c Api.newWriter
                   = Api.Write (Api.EntryJson e)
                       (Api.Header_Set "ETag" (Api.generateETag Unix (LastUpdate e))
                          (Api.Header_Set "Content-Type" "application/json"
                             Api.newWriter))))).
Proof.
  unfold Api.handleGetSymbolCandles.
  destruct (String.eqb_spec (Api.Method r) "GET") as [Hm|Hm]; cbn [negb]; [| by left].
  right.
  destruct (String.eqb_spec (ToUpper (Api.TrimPrefix (Api.Path r) "/api/candles/")) "")
    as [Hk|Hk]; [by left |].
  right.
  destruct (Get c (ToUpper (Api.TrimPrefix (Api.Path r) "/api/candles/")))
    as [e [|]] eqn:Hg; cbn [negb snd]; [| by left].
  right. exists e. split; [done |]. split; [done |]. split; [done |].
  unfold Api.Encode. destruct (marshal_error (Api.EntryJson e)) eqn:He; [left | right]; done.
Qed.

(** X16: handleGetSymbolCandles looks up the upper-cased rest of the
    path. When it answers with an entry, the entry is the one stored under
    a non-empty key that ToUpper leaves as it is, the status is 200 and
    the ETag is the quoted Unix second of the entry's time. For a GET of
    /api/candles/name it answers 404 when ToUpper(name) is not a key of
    the cache, also when name itself is one, and answers with the entry
    under ToUpper(name) when that is a key, whatever the case of name. *)
Theorem symbol_endpoint_upper_keys (r : Api.Request) (c : Cache) :
  (forall s, ToUpper (ToUpper s) = ToUpper s) ->
  (forall e,
      Api.EntryJson e
        ∈ Api.written (Api.handleGetSymbolCandles ToUpper Unix marshal_error r c Api.newWriter) ->
      exists k,
        ToUpper k = k /\ k <> "" /\ Get c k = (e, true)
        /\ Api.written (Api.handleGetSymbolCandles ToUpper Unix marshal_error r c Api.newWriter)
           = [Api.EntryJson e]
        /\ Api.statusCode
             (Api.handleGetSymbolCandles ToUpper Unix marshal_error r c Api.newWriter)
           = Some StatusOK
        /\ Api.header
             (Api.handleGetSymbolCandles ToUpper Unix marshal_error r c Api.newWriter)
           !! "ETag"
           = Some (Api.generateETag Unix (LastUpdate e)))
  /\ (forall name,
        Api.Method r = "GET" ->
        Api.Path r = ("/api/candles/" ++ name)%string ->
        ToUpper name <> "" ->
        (snd (Get c (ToUpper name)) = false ->
         Api.statusCode
           (Api.handleGetSymbolCandles ToUpper Unix marshal_error r c Api.newWriter)
         = Some Api.StatusNotFound
         /\ Api.written
              (Api.handleGetSymbolCandles ToUpper Unix marshal_error r c Api.newWriter)
            = [Api.Text "Symbol not found"])
        /\ (forall e,
              Get c (ToUpper name) = (e, true) ->
              marshal_error (Api.EntryJson e) = None ->
              Api.statusCode
                (Api.handleGetSymbolCandles ToUpper Unix marshal_error r c Api.newWriter)
              = Some StatusOK
              /\ Api.written
                   (Api.handleGetSymbolCandles ToUpper Unix marshal_error r c Api.newWriter)
                 = [Api.EntryJson e])).
Proof.
  intros Hidem. split.
  - intros e Hin.
    destruct (handleGetSymbolCandles_cases r c)
      as [[_ Hr]|[(_ & _ & Hr)|[(_ & _ & _ & Hr)|(e' & Hm & Hk & Hg & [[_ Hr]|[He Hr]])]]];
      rewrite Hr in Hin |- *.
    + rewrite (proj2 (proj2 (Error_spec _ _ _))) in Hin. cbn in Hin.
      apply list_elem_of_singleton in Hin. discriminate.
    + rewrite (proj2 (proj2 (Error_spec _ _ _))) in Hin. cbn in Hin.
      apply list_elem_of_singleton in Hin. discriminate.
    + rewrite (proj2 (proj2 (Error_spec _ _ _))) in Hin. cbn in Hin.
      apply list_elem_of_singleton in Hin. discriminate.
    + rewrite (proj2 (proj2 (Error_spec _ _ _))) in Hin. cbn in Hin.
      apply list_elem_of_singleton in Hin. discriminate.
    + destruct (Write_spec (Api.EntryJson e')
                  (Api.Header_Set "ETag" (Api.generateETag Unix (LastUpdate e'))
                     (Api.Header_Set "Content-Type" "application/json" Api.newWriter)))
        as (Hh & Hs & Hw).
      rewrite Hw in Hin. cbn in Hin. apply list_elem_of_singleton in Hin.
      injection Hin as ->.
      exists (ToUpper (Api.TrimPrefix (Api.Path r) "/api/candles/")).
      split; [apply Hidem |]. split; [exact Hk |]. split; [exact Hg |].
      rewrite Hh, Hs, Hw. cbn. split; [done |]. split; [done |].
      apply lookup_insert_eq.
  - intros name Hm Hp Hk.
    assert (Hsym : ToUpper (Api.TrimPrefix (Api.Path r) "/api/candles/") = ToUpper name)
      by (rewrite Hp, TrimPrefix_app; reflexivity).
    destruct (handleGetSymbolCandles_cases r c)
      as [[Hm' _]|[(_ & Hk' & _)|[(_ & _ & Hg' & Hr)|(e' & _ & _ & Hg' & Hr)]]];
      rewrite ?Hsym in *; try done.
    + split.
      * intros _. rewrite Hr.
        destruct (Error_spec "Symbol not found" Api.StatusNotFound Api.newWriter)
          as (_ & -> & ->). done.
      * intros e Hg. rewrite Hg in Hg'. discriminate.
    + split.
      * rewrite Hg'. discriminate.
      * intros e Hg He. rewrite Hg in Hg'. injection Hg' as <-.
        destruct Hr as [[Hne _]|[_ ->]]; [done |].
        destruct (Write_spec (Api.EntryJson e)
                    (Api.Header_Set "ETag" (Api.generateETag Unix (LastUpdate e))
                       (Api.Header_Set "Content-Type" "application/json" Api.newWriter)))
          as (_ & -> & ->). done.
Qed.

End ApiFacts.

(** ** The identifier list up to sharing *)

Lemma GetSymbols_fresh (h : SymbolMem.heap) (c : SymbolMem.Cache) :
  h !! Mem.array (snd (SymbolMem.GetSymbols h c)) = None.
Proof. cbn. apply not_elem_of_dom, is_fresh. Qed.

Lemma GetSymbols_contents (h : SymbolMem.heap) (c : SymbolMem.Cache) :
  length (SymbolMem.contents h (SymbolMem.symbols c)) = Mem.length_ (SymbolMem.symbols c) ->
  SymbolMem.contents (fst (SymbolMem.GetSymbols h c)) (snd (SymbolMem.GetSymbols h c))
  = SymbolMem.contents h (SymbolMem.symbols c).
Proof.
  intros Hlen. unfold SymbolMem.GetSymbols. cbn [fst snd].
  set (old := SymbolMem.contents h (SymbolMem.symbols c)) in *.
  unfold SymbolMem.contents. cbn [Mem.array Mem.offset Mem.length_].
  rewrite lookup_insert_eq. cbn [default]. rewrite drop_0.
  rewrite resize_all_alt by done. unfold id. rewrite take_ge by lia. reflexivity.
Qed.

Lemma assign_all_in_range (s : Mem.slice) (h : SymbolMem.heap) ixs :
  is_Some (h !! Mem.array s) ->
  Forall (fun ix => (fst ix < Mem.length_ s)%nat) ixs ->
  exists h2,
    SymbolMem.assign_all s h ixs = Some h2
    /\ forall a, a <> Mem.array s -> h2 !! a = h !! a.
Proof.
  intros Hs Hall. revert h Hs.
  induction Hall as [|[i x] ixs Hi _ IH]; intros h [elems Hel];
    cbn [SymbolMem.assign_all SymbolMem.assign].
  - eauto.
  - cbn [fst] in Hi. destruct (Nat.ltb_spec i (Mem.length_ s)); [| lia].
    rewrite Hel.
    destruct (IH (<[Mem.array s := <[(Mem.offset s + i)%nat := x]> elems]> h))
      as (h2 & Hrun & Hframe).
    { rewrite lookup_insert_eq. eauto. }
    exists h2. split; [exact Hrun |]. intros a Ha.
    rewrite (Hframe a Ha). by apply lookup_insert_ne.
Qed.

(** X17: GetSymbols returns a slice of a new array that holds the strings
    of the identifier list: assignments to elements of the returned slice,
    in any number and within its length, never panic and change nothing
    of the list the cache holds, which a later GetSymbols returns again. *)
Theorem GetSymbols_copy_is_private (h : SymbolMem.heap) (c : SymbolMem.Cache)
    (ixs : list (nat * string)) :
  is_Some (h !! Mem.array (SymbolMem.symbols c)) ->
  (Mem.offset (SymbolMem.symbols c) + Mem.length_ (SymbolMem.symbols c)
   <= length (default [] (h !! Mem.array (SymbolMem.symbols c))))%nat ->
  Forall (fun ix => (fst ix < Mem.length_ (SymbolMem.symbols c))%nat) ixs ->
  SymbolMem.contents (fst (SymbolMem.GetSymbols h c)) (snd (SymbolMem.GetSymbols h c))
  = SymbolMem.contents h (SymbolMem.symbols c)
  /\ exists h2,
       SymbolMem.assign_all (snd (SymbolMem.GetSymbols h c))
         (fst (SymbolMem.GetSymbols h c)) ixs = Some h2
       /\ SymbolMem.contents h2 (SymbolMem.symbols c)
          = SymbolMem.contents h (SymbolMem.symbols c)
       /\ SymbolMem.contents (fst (SymbolMem.GetSymbols h2 c))
            (snd (SymbolMem.GetSymbols h2 c))
          = SymbolMem.contents h (SymbolMem.symbols c).
Proof.
  intros [elems Hel] Hwf Hall.
  assert (Hne : Mem.array (SymbolMem.symbols c) <> Mem.array (snd (SymbolMem.GetSymbols h c))).
  { intros Heq. pose proof (GetSymbols_fresh h c) as Hf. rewrite <- Heq, Hel in Hf.
    discriminate. }
  assert (Hlen : length (SymbolMem.contents h (SymbolMem.symbols c))
                 = Mem.length_ (SymbolMem.symbols c)).
  { unfold SymbolMem.contents. rewrite length_take, length_drop. lia. }
  assert (Hcopy : forall h0,
    SymbolMem.contents h0 (SymbolMem.symbols c) = SymbolMem.contents h (SymbolMem.symbols c) ->
    SymbolMem.contents (fst (SymbolMem.GetSymbols h0 c)) (snd (SymbolMem.GetSymbols h0 c))
    = SymbolMem.contents h (SymbolMem.symbols c)).
  { intros h0 H0. rewrite GetSymbols_contents; [exact H0 |]. by rewrite H0. }
  split; [by apply Hcopy |].
  destruct (assign_all_in_range (snd (SymbolMem.GetSymbols h c))
              (fst (SymbolMem.GetSymbols h c)) ixs) as (h2 & Hrun & Hframe).
  { cbn. rewrite lookup_insert_eq. eauto. }
  { exact Hall. }
  exists h2. split; [exact Hrun |].
  assert (H2 : SymbolMem.contents h2 (SymbolMem.symbols c)
               = SymbolMem.contents h (SymbolMem.symbols c)).
  { unfold SymbolMem.contents. rewrite (Hframe _ Hne).
    cbn [SymbolMem.GetSymbols fst]. rewrite lookup_insert_ne; [done |].
    intros Heq. apply Hne. symmetry. exact Heq. }
  split; [exact H2 |]. by apply Hcopy.
Qed.

(** X18: SetSymbols stores the slice it is given, not a copy: after
    SetSymbols(syms), an assignment to an element of syms by the caller
    changes the list the cache holds and GetSymbols returns. *)
Theorem SetSymbols_keeps_callers_slice (h : SymbolMem.heap) (c : SymbolMem.Cache)
    (syms : Mem.slice) (now : Time) (i : nat) (x : string) :
  is_Some (h !! Mem.array syms) ->
  (i < Mem.length_ syms)%nat ->
  (Mem.offset syms + Mem.length_ syms <= length (default [] (h !! Mem.array syms)))%nat ->
  exists h2,
    SymbolMem.assign syms h (i, x) = Some h2
    /\ SymbolMem.contents h2 (SymbolMem.symbols (SymbolMem.SetSymbols c syms now))
       = <[i := x]> (SymbolMem.contents h syms)
    /\ SymbolMem.contents (fst (SymbolMem.GetSymbols h2 (SymbolMem.SetSymbols c syms now)))
         (snd (SymbolMem.GetSymbols h2 (SymbolMem.SetSymbols c syms now)))
       = <[i := x]> (SymbolMem.contents h syms).
Proof.
  intros [elems Hel] Hi Hwf. rewrite Hel in Hwf. cbn [default] in Hwf.
  unfold SymbolMem.assign. destruct (Nat.ltb_spec i (Mem.length_ syms)); [| lia].
  rewrite Hel. eexists. split; [reflexivity |].
  assert (Hc : SymbolMem.contents
                 (<[Mem.array syms := <[(Mem.offset syms + i)%nat := x]> elems]> h) syms
               = <[i := x]> (SymbolMem.contents h syms)).
  { unfold SymbolMem.contents. rewrite lookup_insert_eq, Hel. cbn [default].
    unfold id in *. rewrite drop_insert_ge by lia. rewrite take_insert_lt by lia.
    f_equal. lia. }
  split; [exact Hc |].
  rewrite GetSymbols_contents; cbn [SymbolMem.SetSymbols SymbolMem.symbols]; [exact Hc |].
  rewrite Hc, length_insert. unfold SymbolMem.contents.
  rewrite length_take, length_drop, Hel. unfold id in *. cbn [default]. unfold id. lia.
Qed.

(** ** The requests of a goroutine, and a refresh followed by a cycle *)

(** X19: the goroutine launched for a symbol makes one, two or three
    requests and never a fourth; it makes the next request only after a
    failed one, sleeping one second after the first failure and two after
    the second, and never sleeps after the third. It returns the candles
    of the first request that succeeds, and an error only when all three
    requests failed: the error that wraps the error of the third. *)
Theorem goroutine_requests (env : Env) (a : CandleFetcherActor) (i : nat) (sym : string)
    (st et : Z) :
  exists r n tr,
    fetch_with_retry env a i sym st et = Done (r, n, tr)
    /\ n = attempts tr
    /\ (1 <= n <= 3)%nat
    /\ sleeps tr = take (n - 1) [(1 * Second)%Z; (2 * Second)%Z]
    /\ (forall k, (S k < n)%nat ->
          is_ok (FetchCandles (ParseFloat env)
                   (upstream env i {| coin := sym; interval := candleInterval a;
                                      startTime := st; endTime := et |} k)) = false)
    /\ match r with
       | Ok candles =>
           FetchCandles (ParseFloat env)
             (upstream env i {| coin := sym; interval := candleInterval a;
                                startTime := st; endTime := et |} (n - 1))
           = Ok candles
       | Err e =>
           n = 3%nat
           /\ exists e3,
                FetchCandles (ParseFloat env)
                  (upstream env i {| coin := sym; interval := candleInterval a;
                                     startTime := st; endTime := et |} 2)
                = Err e3
                /\ e = ErrAfterRetries 3 (Some e3)
       end.
Proof.
  unfold fetch_with_retry, FetchCandlesWithRetry.
  change (Z.to_nat 3) with 3%nat.
  set (req := {| coin := sym; interval := candleInterval a; startTime := st; endTime := et |}).
  cbn [retry_loop]. change (0 <? 3)%Z with true. cbv iota.
  destruct (FetchCandles (ParseFloat env) (upstream env i req 0)) as [c0|e0] eqn:H0.
  { exists (Ok c0), 1%nat, [Attempted].
    repeat split; try (cbn; lia); try done; intros k Hk; lia. }
  change (Int64.add 0 1) with 1%Z. change (0 <? Int64.sub 3 1)%Z with true.
  change (1 <? 3)%Z with true. cbv iota.
  destruct (FetchCandles (ParseFloat env) (upstream env i req 1)) as [c1|e1] eqn:H1.
  { exists (Ok c1), 2%nat, [Attempted; Slept (backoff 0); Attempted].
    repeat split; try (cbn; lia); try done;
      intros [|k] Hk; [by rewrite H0 | lia]. }
  change (Int64.add 1 1) with 2%Z. change (1 <? Int64.sub 3 1)%Z with true.
  change (2 <? 3)%Z with true. cbv iota.
  destruct (FetchCandles (ParseFloat env) (upstream env i req 2)) as [c2|e2] eqn:H2.
  { exists (Ok c2), 3%nat,
      [Attempted; Slept (backoff 0); Attempted; Slept (backoff 1); Attempted].
    repeat split; try (cbn; lia); try done;
      intros [|[|k]] Hk; [by rewrite H0 | by rewrite H1 | lia]. }
  change (Int64.add 2 1) with 3%Z. change (2 <? Int64.sub 3 1)%Z with false.
  change (3 <? 3)%Z with false. cbv iota.
  exists (Err (ErrAfterRetries 3 (Some e2))), 3%nat,
    [Attempted; Slept (backoff 0); Attempted; Slept (backoff 1); Attempted].
  repeat split; try (cbn; lia); try done;
    try (intros [|[|k]] Hk; [by rewrite H0 | by rewrite H1 | lia]); eauto.
Qed.

(** X20: when the identifier refresh fetches a universe that is not empty
    and a cycle follows it, the cycle returns and the cache then holds the
    fetched list as its identifier list and, for every identifier of it,
    an entry that names it; the entries of keys outside the list are as
    they were before the refresh. *)
Theorem refresh_then_cycle (env : Env)
    (Unmarshal_meta : option json -> result MetaResponse)
    (reply : http_reply) (a : SymbolFetcher.SymbolFetcherActor)
    (actor : CandleFetcherActor) (w : world) (syms : list string) :
  FetchPerpetualSymbols Unmarshal_meta reply = Ok syms ->
  syms <> [] ->
  (0 < batchSize actor <= Int64.max_int)%Z ->
  (len syms < 2 ^ 62)%Z ->
  exists w',
    fetchAllCandles env actor
      (snd (SymbolFetcher.fetchSymbols env Unmarshal_meta reply a w)) = Done w'
    /\ GetSymbols (cache w') = syms
    /\ SymbolFetcher.cachedSymbols
         (fst (SymbolFetcher.fetchSymbols env Unmarshal_meta reply a w)) = syms
    /\ (forall X, X ∈ syms ->
          exists entry, Get (cache w') X = (entry, true) /\ Symbol entry = X)
    /\ (forall X, X ∉ syms -> Get (cache w') X = Get (cache w) X).
Proof.
  intros Hf Hne HB Hn.
  rewrite (fetchSymbols_discovered env Unmarshal_meta reply a w syms Hf Hne).
  cbn [fst snd SymbolFetcher.cachedSymbols].
  set (w1 := {| cache := SetSymbols (cache w) syms (clock env (ticks w));
                ticks := S (ticks w); recvs := recvs w;
                trace := trace w ++ [Logged LogFetchingSymbols;
                                     Logged (LogDiscovered (len syms)); WroteSymbols syms] |}).
  assert (Hs1 : GetSymbols (cache w1) = syms) by reflexivity.
  destruct (cycle_writes_listed_keys_aux env actor w1) as (w' & Hrun & Hsym & Hout & Hin);
    rewrite ?Hs1; try done.
  exists w'. split; [exact Hrun |]. rewrite Hs1 in *.
  split; [exact Hsym |]. split; [reflexivity |]. split.
  - intros X HX. destruct (Hin X HX) as (entry & Hg & Hs). eauto.
  - intros X HX. rewrite (Hout X HX). reflexivity.
Qed.

(** X21: the candle fetcher that NewCandleFetcherActor makes runs a cycle
    over N identifiers, N not zero, as ceil(N/10) batches, each of 1 to 10
    identifiers, which are the list cut into consecutive pieces of 10, and
    pauses 200 milliseconds after every batch but the last. *)
Theorem constructed_actor_cycle (env : Env) (refreshInterval : Z) (candleInterval : string)
    (candleDays : Z) (w : world) :
  GetSymbols (cache w) <> [] ->
  (len (GetSymbols (cache w)) < 2 ^ 62)%Z ->
  exists w',
    fetchAllCandles env (NewCandleFetcherActor refreshInterval candleInterval candleDays) w
    = Done w'
    /\ batches_of (trace w') = batches_of (trace w) ++ chunks 10 (GetSymbols (cache w))
    /\ len (chunks 10 (GetSymbols (cache w))) = ((len (GetSymbols (cache w)) + 9) / 10)%Z
    /\ Forall (fun b => (1 <= length b <= 10)%nat) (chunks 10 (GetSymbols (cache w)))
    /\ pauses_of (trace w')
       = pauses_of (trace w)
         ++ replicate (length (chunks 10 (GetSymbols (cache w))) - 1) (200 * Millisecond)%Z.
Proof.
  intros Hne Hn.
  set (a := NewCandleFetcherActor refreshInterval candleInterval candleDays).
  assert (HB : (0 < batchSize a <= Int64.max_int)%Z)
    by (split; [reflexivity | intros H; discriminate H]).
  destruct (fetchAllCandles_spec env a w Hne HB Hn)
    as (order & w' & _ & Hrun & _ & Hb & _).
  destruct (fetchAllCandles_trace env a w Hne HB Hn) as (orders & w2 & Harr & Hrun2 & Ht).
  rewrite Hrun in Hrun2. injection Hrun2 as <-.
  change (Z.to_nat (batchSize a)) with 10%nat in *.
  change (batchSize a) with 10%Z in *.
  change (batchDelay a) with (200 * Millisecond)%Z in *.
  set (syms := GetSymbols (cache w)) in *.
  destruct (totalBatches_spec syms 10 Hne HB Hn) as [Hfit _].
  change (Z.to_nat 10) with 10%nat in Hfit.
  assert (Htotal : Int64.quot (Int64.sub (Int64.add (len syms) 10) 1) 10 = len (chunks 10 syms))
    by (apply Hfit; unfold Int64.max_int; lia).
  exists w'. split; [exact Hrun |]. split; [exact Hb |]. split; [| split].
  - rewrite <- Htotal. unfold Int64.quot, Int64.sub, Int64.add. rewrite wrap64_sub_wrap.
    assert (Hpos : (0 <= len syms)%Z) by (unfold len; lia).
    rewrite (wrap64_in_range (len syms + 10 - 1))
      by (unfold Int64.in_range, Int64.min_int, Int64.max_int; lia).
    rewrite Z.quot_div_nonneg by lia.
    replace (len syms + 10 - 1)%Z with (len syms + 9)%Z by lia.
    apply wrap64_in_range. unfold Int64.in_range, Int64.min_int, Int64.max_int.
    pose proof (Z.div_pos (len syms + 9) 10 ltac:(lia) ltac:(lia)).
    assert ((len syms + 9) / 10 <= len syms + 9)%Z by (apply Z.div_le_upper_bound; lia).
    lia.
  - apply Forall_lookup. intros j b Hj. unfold chunks in Hj.
    apply chunk_fuel_lookup_inv in Hj as [Hlt ->]; [| lia | lia].
    rewrite length_take, length_drop. lia.
  - apply arrivals_length in Harr.
    rewrite Ht, !pauses_of_app, pauses_of_segments by exact Harr.
    change (pauses_of [Logged _]) with (@nil Z).
    change (pauses_of [Logged _; Logged _]) with (@nil Z).
    cbn [app]. rewrite app_nil_r. f_equal. rewrite Htotal. f_equal. unfold len. lia.
Qed.

(** ** Witnesses of the further properties *)

Lemma cache_entries_under_own_key_witness :
  exists entry,
    Get (apply_ops ops_ex NewCache) "BTC" = (entry, true)
    /\ Symbol entry = "BTC"
    /\ Candles entry = [candle_ex 2 2.5%float].
Proof.
  eexists. split; [vm_compute; reflexivity |]. split; [| reflexivity].
  apply (cache_entries_under_own_key ops_ex "BTC"). vm_compute. reflexivity.
Defined.

Lemma retry_attempts_and_sleeps_witness :
  exists r w' tr k,
    FetchCandlesWithRetry flaky_ex 3 0%nat = Done (r, w', tr)
    /\ (Z.of_nat k <= 3)%Z
    /\ tr = failed_attempts 3 0 k ++ (if is_ok r then [Attempted] else [])
    /\ sleeps tr = backoff <$> seqZ 0 (Z.of_nat (attempts tr) - 1).
Proof.
  destruct (retry_attempts_and_sleeps flaky_ex 3 0%nat)
    as (r & w' & tr & k & last & w1 & Hrun & Hk & _ & Htr & _ & _ & Hs).
  - unfold Int64.max_int. lia.
  - exists r, w', tr, k. split; [exact Hrun |]. split; [exact Hk |].
    split; [exact Htr | exact Hs].
Defined.

Lemma retry_returns_first_success_witness :
  exists tr,
    FetchCandlesWithRetry flaky_ex 5 0%nat = Done (Ok [candle_ex 1 1.5%float], 3%nat, tr)
    /\ attempts tr = 3%nat
    /\ sleeps tr = backoff <$> seqZ 0 2.
Proof.
  apply (proj1 (retry_returns_first_success flaky_ex 5 2 0%nat 2%nat
                  (Some (ErrExternal "timeout"))
                  ltac:(unfold Int64.max_int; lia) eq_refl)).
  - lia.
  - reflexivity.
Defined.

Lemma backoff_doubles_witness : backoff 5 = (2 ^ 5 * Second)%Z.
Proof. apply (backoff_doubles 5). lia. Defined.

Lemma timestamp_last_member_witness :
  exists rc,
    unmarshal_candle ParseFloat_ex (JObject members_ex) = Ok rc
    /\ Timestamp (to_Candle rc) = 1700003599999%Z.
Proof.
  eexists. split; [vm_compute; reflexivity |].
  apply (timestamp_last_member ParseFloat_ex
           [("t", JNumber "1700000000000")] [("s", JString "BTC"); ("o", JString "1.5")]
           "T" "1700003599999").
  - vm_compute. reflexivity.
  - reflexivity.
  - repeat constructor.
  - reflexivity.
Defined.

Lemma cycle_keeps_identifiers_witness :
  exists w',
    fetchAllCandles env_ex actor_ex world_ex = Done w'
    /\ GetSymbols (cache w') = ["X"; "Y"; "Z"]
    /\ GetSymbolUpdate (cache w') = 5%Z.
Proof.
  destruct (cycle_keeps_identifiers env_ex actor_ex world_ex) as (w' & Hrun & Hs & Hu & _).
  - split; [reflexivity | intros H; discriminate H].
  - reflexivity.
  - exists w'. split; [exact Hrun |]. split; [exact Hs | exact Hu].
Defined.

Lemma cycle_writes_listed_keys_witness :
  exists w' entry k,
    fetchAllCandles env_ex actor_ex world_ex = Done w'
    /\ GetLastUpdate (cache w') = clock env_ex 7
    /\ Get (cache w') "BTC" = (zeroCacheEntry, false)
    /\ Get (cache w') "Y" = (entry, true)
    /\ Symbol entry = "Y"
    /\ (k < 3)%nat
    /\ LastUpdate entry = clock env_ex (2 + 2 * k).
Proof.
  destruct (cycle_writes_listed_keys env_ex actor_ex world_ex)
    as (w' & Hrun & Hl & Hout & Hin).
  - discriminate.
  - split; [reflexivity | intros H; discriminate H].
  - reflexivity.
  - destruct (Hin "Y") as (entry & k & Hg & Hs & Hk & Hu).
    { right. left. }
    exists w', entry, k. split; [exact Hrun |]. split; [exact Hl |].
    split.
    { rewrite (Hout "BTC"); [reflexivity |].
      intros H. repeat (apply elem_of_cons in H as [H|H]; [discriminate H |]).
      by apply elem_of_nil in H. }
    split; [exact Hg |]. split; [exact Hs |]. split; [exact Hk | exact Hu].
Defined.

Lemma cycle_events_in_order_witness :
  exists orders w',
    fetchAllCandles env_ex actor_ex world_ex = Done w'
    /\ length orders = 2%nat
    /\ concat orders
       ≡ₚ jobs env_ex actor_ex 0 ["X"; "Y"; "Z"]
            (fst (window env_ex actor_ex world_ex)) (snd (window env_ex actor_ex world_ex)).
Proof.
  destruct (cycle_events_in_order env_ex actor_ex world_ex)
    as (orders & w' & Hrun & Harr & _ & Hperm).
  - discriminate.
  - split; [reflexivity | intros H; discriminate H].
  - reflexivity.
  - exists orders, w'. split; [exact Hrun |]. split; [| exact Hperm].
    symmetry. exact (arrivals_length _ _ _ _ _ _ _ _ Harr).
Defined.

Lemma cycle_pauses_witness :
  exists w',
    fetchAllCandles env_ex actor_ex world_ex = Done w'
    /\ pauses_of (trace w') = [(200 * Millisecond)%Z].
Proof.
  destruct (cycle_pauses env_ex actor_ex world_ex) as (w' & Hrun & Hp).
  - discriminate.
  - split; [reflexivity | intros H; discriminate H].
  - reflexivity.
  - exists w'. split; [exact Hrun | exact Hp].
Defined.

Lemma env_ex_monotone : monotone env_ex.
Proof.
  split.
  - intros n. unfold zeroTime. cbn. lia.
  - intros m n Hmn. cbn. lia.
Qed.

Lemma cycled_ex_running :
  running env_ex Unmarshal_meta_ex (fst refreshed_ex) cycled_ex.
Proof.
  apply (running_fetchAllCandles env_ex Unmarshal_meta_ex actor_ex
           (fst refreshed_ex) (snd refreshed_ex) cycled_ex).
  - apply running_fetchSymbols, running_start.
  - vm_compute. reflexivity.
Qed.

Lemma timestamps_in_order_witness :
  exists entry,
    Get (cache cycled_ex) "BTC" = (entry, true)
    /\ (LastUpdate entry <= GetLastUpdate (cache cycled_ex))%Z.
Proof.
  eexists. split; [vm_compute; reflexivity |].
  apply (proj1 (timestamps_in_order env_ex Unmarshal_meta_ex (fst refreshed_ex) cycled_ex
                  env_ex_monotone cycled_ex_running) "BTC").
  vm_compute. reflexivity.
Defined.

Lemma cache_holds_fallback_witness :
  GetSymbols (cache cycled_ex) = ["BTC"; "ETH"].
Proof.
  apply (cache_holds_fallback env_ex Unmarshal_meta_ex (fst refreshed_ex) cycled_ex
           cycled_ex_running).
Defined.

Lemma upper_idempotent (c : ascii) : Json.upper (Json.upper c) = Json.upper c.
Proof. destruct c as [[] [] [] [] [] [] [] []]; reflexivity. Qed.

Lemma ToUpper_ex_idempotent (s : string) : ToUpper_ex (ToUpper_ex s) = ToUpper_ex s.
Proof.
  induction s as [|c s IH]; [reflexivity |].
  cbn [ToUpper_ex]. by rewrite upper_idempotent, IH.
Qed.

Lemma etag_same_second_witness :
  Api.header (Api.handleGetAllCandles Unix_ex marshal_error_ex (get_ex "/api/candles")
                api_cache_ex api_cache_ex Api.newWriter) !! "ETag"
  = Api.header (Api.handleGetAllCandles Unix_ex marshal_error_ex (get_ex "/api/candles")
                  api_cache_later_ex api_cache_later_ex Api.newWriter) !! "ETag".
Proof.
  apply (proj2 (etag_same_second Unix_ex marshal_error_ex (get_ex "/api/candles")
                  api_cache_ex api_cache_ex api_cache_later_ex api_cache_later_ex
                  eq_refl)).
  vm_compute. reflexivity.
Defined.

Lemma symbol_endpoint_upper_keys_witness :
  snd (Get api_cache_ex "kPEPE") = true
  /\ Api.statusCode (Api.handleGetSymbolCandles ToUpper_ex Unix_ex marshal_error_ex
                       (get_ex "/api/candles/kPEPE") api_cache_ex Api.newWriter)
     = Some Api.StatusNotFound
  /\ Api.written (Api.handleGetSymbolCandles ToUpper_ex Unix_ex marshal_error_ex
                    (get_ex "/api/candles/kPEPE") api_cache_ex Api.newWriter)
     = [Api.Text "Symbol not found"].
Proof.
  split; [vm_compute; reflexivity |].
  apply (proj2 (symbol_endpoint_upper_keys ToUpper_ex Unix_ex marshal_error_ex
                  (get_ex "/api/candles/kPEPE") api_cache_ex ToUpper_ex_idempotent)
           "kPEPE").
  - reflexivity.
  - reflexivity.
  - vm_compute. discriminate.
  - vm_compute. reflexivity.
Defined.

Lemma GetSymbols_copy_is_private_witness :
  exists h2,
    SymbolMem.assign_all (snd (SymbolMem.GetSymbols symbol_heap_ex symbol_cache_ex))
      (fst (SymbolMem.GetSymbols symbol_heap_ex symbol_cache_ex))
      [(0%nat, "XXX"); (1%nat, "YYY")] = Some h2
    /\ SymbolMem.contents h2 (SymbolMem.symbols symbol_cache_ex) = ["BTC"; "ETH"].
Proof.
  destruct (GetSymbols_copy_is_private symbol_heap_ex symbol_cache_ex
              [(0%nat, "XXX"); (1%nat, "YYY")]) as (_ & h2 & Hrun & Hc & _).
  - vm_compute. eauto.
  - vm_compute. lia.
  - repeat constructor.
  - exists h2. split; [exact Hrun |]. rewrite Hc. vm_compute. reflexivity.
Defined.

Lemma SetSymbols_keeps_callers_slice_witness :
  exists h2,
    SymbolMem.assign symbol_slice_ex symbol_heap_ex (1%nat, "XXX") = Some h2
    /\ SymbolMem.contents h2
         (SymbolMem.symbols (SymbolMem.SetSymbols symbol_cache_ex symbol_slice_ex 60%Z))
       = ["BTC"; "XXX"].
Proof.
  destruct (SetSymbols_keeps_callers_slice symbol_heap_ex symbol_cache_ex symbol_slice_ex
              60%Z 1 "XXX") as (h2 & Hrun & Hc & _).
  - vm_compute. eauto.
  - vm_compute. lia.
  - vm_compute. lia.
  - exists h2. split; [exact Hrun |]. rewrite Hc. vm_compute. reflexivity.
Defined.

Lemma refresh_then_cycle_witness :
  exists w' entry,
    fetchAllCandles env_ex actor_ex (snd refreshed_ex) = Done w'
    /\ GetSymbols (cache w') = ["BTC"; "ETH"]
    /\ Get (cache w') "ETH" = (entry, true)
    /\ Symbol entry = "ETH".
Proof.
  destruct (refresh_then_cycle env_ex Unmarshal_meta_ex universe_reply_ex
              (SymbolFetcher.NewSymbolFetcherActor (3600 * Second)) actor_ex
              (world_of NewCache) ["BTC"; "ETH"])
    as (w' & Hrun & Hs & _ & Hin & _).
  - vm_compute. reflexivity.
  - discriminate.
  - split; [reflexivity | intros H; discriminate H].
  - reflexivity.
  - destruct (Hin "ETH") as (entry & Hg & He); [right; left |].
    exists w', entry. split; [exact Hrun |]. split; [exact Hs |]. split; [exact Hg | exact He].
Defined.

Lemma constructed_actor_cycle_witness :
  exists w',
    fetchAllCandles env_ex (NewCandleFetcherActor (300 * Second) "1h" 7) world_ex = Done w'
    /\ batches_of (trace w') = [["X"; "Y"; "Z"]]
    /\ pauses_of (trace w') = [].
Proof.
  destruct (constructed_actor_cycle env_ex (300 * Second) "1h" 7 world_ex)
    as (w' & Hrun & Hb & _ & _ & Hp).
  - discriminate.
  - reflexivity.
  - exists w'. split; [exact Hrun |]. split; [exact Hb | exact Hp].
Defined.
